(** * webloader: the load orchestrator of web-profiler

    A shallow embedding of [src/webloader/loader.py] (the result model
    [LoadResult] / [PageResult] and the orchestrator [Loader.load_pages]),
    of the parts of [src/webloader/chrome_loader.py] and
    [src/tools/screenshot_generator.py] that the properties below talk
    about, and the properties themselves.

    Python values are modelled as follows.
    - [str] is [string]; status constants are the strings of the source.
    - [int] is [Z] where the source compares or receives it from the
      caller ([num_trials], [retries_per_trial], [tries_so_far]), and
      [nat] for a counter that starts at 0 and is only incremented
      ([_num_restarts]) and for the elements of [range(0, n)].
    - a [dict] is a [gmap]; the [defaultdict(list)] creates the missing
      key on every read access.
    - the subclass hooks ([_setup], [_teardown], [_load_page]) and the
      libraries ([urlparse], [requests]) are a record of functions over
      an opaque world; each may raise.
    - a method of [Loader] is a function in a state-and-exception monad
      which also records every call made to the backend and to
      [logging]. *)

From Stdlib Require Import ZArith QArith.QArith_base Ascii String List Lia.
From Stdlib Require Import DecimalString.
From stdpp Require Import base option strings list gmap.
Import ListNotations.

Local Open Scope Z_scope.
Local Open Scope string_scope.
Local Open Scope list_scope.

(** ** Python values used for the optional numeric fields *)

(** [time] and [size] of a [LoadResult] default to [None]; the PhantomJS
    loader stores the text it parsed, other loaders a number. *)
Inductive pyval : Type :=
| PyNone
| PyNum (q : Q)
| PyStr (s : string).

(** Truth value of an object, as in [if result.time:]. *)
Definition truthy (v : pyval) : bool :=
  match v with
  | PyNone => false
  | PyNum q => negb (Z.eqb (Qnum q) 0)
  | PyStr s => negb (String.eqb s "")
  end.

(** ** The result model *)

Module LoadResult.

Definition SUCCESS : string := "SUCCESS".
Definition FAILURE_TIMEOUT : string := "FAILURE_TIMEOUT".
Definition FAILURE_UNKNOWN : string := "FAILURE_UNKNOWN".
Definition FAILURE_NO_200 : string := "FAILURE_NO_200".
Definition FAILURE_UNSET : string := "FAILURE_UNSET".

(** [LoadResult.__init__] only stores its arguments. *)
Record t : Type := mk {
  status : string;
  url : string;
  final_url : option string;
  time : pyval;
  size : pyval;
  har_path : option string;
  image_path : option string;
  raw : option string;
  tcp_fast_open_supported : bool
}.

(** [LoadResult(status, url)] with every keyword at its default. *)
Definition make (status url : string) : t :=
  mk status url None PyNone PyNone None None None false.

End LoadResult.

Module PageResult.

Definition SUCCESS : string := "SUCCESS".
Definition PARTIAL_SUCCESS : string := "PARTIAL_SUCCESS".
Definition FAILURE_NOT_ACCESSIBLE : string := "FAILURE_NOT_ACCESSIBLE".
Definition FAILURE_UNKNOWN : string := "FAILURE_UNKNOWN".
Definition FAILURE_UNSET : string := "FAILURE_UNSET".

Record t : Type := mk {
  status : string;
  url : string;
  times : list pyval;
  sizes : list pyval;
  tcp_fast_open_support_statuses : list bool
}.

(** The locals of the [for result in load_results] loop together with
    the three lists it appends to. *)
Record scan : Type := mk_scan {
  was_a_failure : bool;
  was_a_success : bool;
  s_times : list pyval;
  s_sizes : list pyval;
  s_tfo : list bool
}.

(** One iteration of the loop of [__init__] (lines 155-162). *)
Definition scan_step (acc : scan) (result : LoadResult.t) : scan :=
  if String.eqb (LoadResult.status result) SUCCESS then
    {| was_a_failure := was_a_failure acc;
       was_a_success := true;
       s_times := if truthy (LoadResult.time result)
                  then s_times acc ++ [LoadResult.time result]
                  else s_times acc;
       s_sizes := if truthy (LoadResult.size result)
                  then s_sizes acc ++ [LoadResult.size result]
                  else s_sizes acc;
       s_tfo := s_tfo acc ++ [LoadResult.tcp_fast_open_supported result] |}
  else
    {| was_a_failure := true;
       was_a_success := was_a_success acc;
       s_times := s_times acc;
       s_sizes := s_sizes acc;
       s_tfo := s_tfo acc |}.

Definition scan0 : scan := mk_scan false false [] [] [].

(** [if load_results:] holds for a list that is neither [None] nor
    empty; [if status:] for a string that is neither [None] nor
    empty. *)
Definition nonempty_list {A} (l : option (list A)) : option (list A) :=
  match l with
  | Some (x :: l') => Some (x :: l')
  | _ => None
  end.

Definition nonempty_str (s : option string) : option string :=
  match s with
  | Some "" => None
  | other => other
  end.

(** [PageResult.__init__(self, url, status=None, load_results=None)]. *)
Definition init (url : string) (status : option string)
    (load_results : option (list LoadResult.t)) : t :=
  let acc :=
    match nonempty_list load_results with
    | Some rs => Some (fold_left scan_step rs scan0)
    | None => None
    end in
  let derived :=
    match acc with
    | Some a =>
        if was_a_failure a && was_a_success a then PARTIAL_SUCCESS
        else if was_a_success a then SUCCESS
        else FAILURE_UNKNOWN
    | None => FAILURE_UNSET
    end in
  {| status := match nonempty_str status with
               | Some s => s
               | None => derived
               end;
     url := url;
     times := match acc with Some a => s_times a | None => [] end;
     sizes := match acc with Some a => s_sizes a | None => [] end;
     tcp_fast_open_support_statuses :=
       match acc with Some a => s_tfo a | None => [] end |}.

End PageResult.

(** ** File names *)

(** The regular expression of [_sanitize_url] is one bracket expression.
    Inside brackets a backslash followed by a character that is neither a
    letter nor a digit stands for that character; every other character
    of this pattern stands for itself (there is no range and the [^]s are
    not in first position). [class_members] lists the members in order
    of appearance. *)
Fixpoint class_members (escaped : bool) (body : string) : list ascii :=
  match body with
  | EmptyString => []
  | String c rest =>
      if escaped then c :: class_members false rest
      else if Ascii.eqb c "\"%char then class_members true rest
      else c :: class_members false rest
  end.

Definition sanitize_pattern : string := "[/\;,><&*:%=+@!#^()|?^]".

Definition sanitize_class : list ascii :=
  class_members false
    (substring 1 (String.length sanitize_pattern - 2)%nat sanitize_pattern).

Definition in_class (cls : list ascii) (c : ascii) : bool :=
  existsb (Ascii.eqb c) cls.

(** [re.sub] of a one-character pattern: each matching character is
    replaced, the others are copied. *)
Fixpoint re_sub_class (cls : list ascii) (repl : ascii) (s : string) : string :=
  match s with
  | EmptyString => EmptyString
  | String c rest =>
      String (if in_class cls c then repl else c) (re_sub_class cls repl rest)
  end.

(** [Loader._sanitize_url]. *)
Definition _sanitize_url (url : string) : string :=
  re_sub_class sanitize_class "-"%char url.

(** The characters the file-name rule is documented to replace. *)
Definition documented_class : list ascii :=
  ["/"; "\"; ";"; ","; ">"; "<"; "&"; "*"; ":"; "%"; "="; "+"; "@"; "!";
   "#"; "^"; "("; ")"; "|"; "?"; "^"]%char.

(** ** Outcomes, backend and recorded calls *)

(** An exception object (an instance of [Exception]): the
    [TimeoutError] of [loader.py], raised by the alarm of a [Timeout]
    block, or any other class, by its name. *)
Inductive exn : Type :=
| TimeoutError (message : string)
| OtherError (class message : string).

(** What a call to a hook or to a library gives back. *)
Inductive answer (A : Type) : Type :=
| Returned (a : A)
| Raised (e : exn).
Arguments Returned {A} a.
Arguments Raised {A} e.

(** How a piece of the orchestrator ends. [Diverge] is the model's value
    for a [while] loop that is given too little fuel; [load_pages_total]
    below shows it does not occur. *)
Inductive outcome (A : Type) : Type :=
| Ret (a : A)
| Raise (e : exn)
| Diverge.
Arguments Ret {A} a.
Arguments Raise {A} e.
Arguments Diverge {A}.

(** The subclass hooks and the two libraries used by the protocol check.
    [W] is whatever they keep between calls (processes, the network).
    [_load_page] takes [url], [outdir] and the trial number; an answer
    [Raised] also stands for a return value without a [status]
    attribute. [requests_get] gives the [url] attribute of the response;
    the alarm of the enclosing [Timeout] block is part of it. *)
Record Backend (W : Type) : Type := {
  _setup : W -> W * answer bool;
  _teardown : W -> W * answer unit;
  _load_page : string -> string -> nat -> W -> W * answer LoadResult.t;
  urlparse_scheme : string -> answer string;
  requests_get : string -> Z -> list (string * string) -> W -> W * answer string
}.
Arguments _setup {W} _ _.
Arguments _teardown {W} _ _.
Arguments _load_page {W} _ _ _ _ _.
Arguments urlparse_scheme {W} _ _.
Arguments requests_get {W} _ _ _ _ _.

(** The options of [Loader.__init__] that [loader.py] itself reads. *)
Record Config : Type := {
  outdir : string;
  num_trials : Z;
  timeout : Z;
  user_agent : option string;
  restart_on_fail : bool;
  retries_per_trial : Z;
  check_protocol_availability : bool
}.

(** Messages handed to [logging], by the line that writes them. *)
Inductive log_record : Type :=
| WarnNoProtocol (url : string)
| DebugChecking (url protocol : string)
| ProbeFailed (url : string) (e : exn)
| ErrorSettingUp
| InfoNotAccessible (url : string)
| DebugTry (i : nat) (tries_so_far : Z) (result : LoadResult.t)
| ErrorLoadingPage (url : string) (e : exn)
| ErrorLoadingPages (e : exn)
| ErrorNoURLs.

(** Calls leaving the orchestrator, with what came back. *)
Inductive event : Type :=
| EvSetup (a : answer bool)
| EvTeardown (a : answer unit)
| EvLoadPage (url outdir : string) (i : nat) (a : answer LoadResult.t)
| EvRequest (url : string) (a : answer string)
| EvLog (l : log_record).

(** The attributes of a [Loader] that [load_pages] changes. *)
Record Loader : Type := {
  _urls : list string;
  _load_results : gmap string (list LoadResult.t);
  _page_results : gmap string PageResult.t;
  _num_restarts : nat
}.

(** The attributes as [Loader.__init__] leaves them. *)
Definition new_loader : Loader :=
  {| _urls := []; _load_results := ∅; _page_results := ∅; _num_restarts := 0 |}.

Record state (W : Type) : Type := {
  world : W;
  self : Loader;
  trace : list event
}.
Arguments world {W} _.
Arguments self {W} _.
Arguments trace {W} _.

Definition M (W A : Type) : Type := state W -> state W * outcome A.

Section Monad.
Context {W : Type}.

Definition ret {A} (a : A) : M W A := fun s => (s, Ret a).

Definition raise {A} (e : exn) : M W A := fun s => (s, Raise e).

Definition diverge {A} : M W A := fun s => (s, Diverge).

Definition bind {A B} (m : M W A) (f : A -> M W B) : M W B :=
  fun s =>
    match m s with
    | (s', Ret a) => f a s'
    | (s', Raise e) => (s', Raise e)
    | (s', Diverge) => (s', Diverge)
    end.

(** [try: m  except Exception as e: h e]. *)
Definition try_except {A} (m : M W A) (h : exn -> M W A) : M W A :=
  fun s =>
    match m s with
    | (s', Raise e) => h e s'
    | other => other
    end.

(** [try: m  finally: fin]: [fin] runs however [m] ended; if it raises,
    its exception is the one that propagates. *)
Definition try_finally {A} (m : M W A) (fin : M W unit) : M W A :=
  fun s =>
    match m s with
    | (s1, Diverge) => (s1, Diverge)
    | (s1, o) =>
        match fin s1 with
        | (s2, Ret _) => (s2, o)
        | (s2, Raise e) => (s2, Raise e)
        | (s2, Diverge) => (s2, Diverge)
        end
    end.

Definition emit (e : event) : M W unit :=
  fun s => ({| world := world s; self := self s; trace := trace s ++ [e] |}, Ret tt).

Definition modify (f : Loader -> Loader) : M W unit :=
  fun s => ({| world := world s; self := f (self s); trace := trace s |}, Ret tt).

Definition of_answer {A} (a : answer A) : outcome A :=
  match a with
  | Returned x => Ret x
  | Raised e => Raise e
  end.

(** A call to the outside: the world moves on, the call is recorded. *)
Definition call {A} (f : W -> W * answer A) (ev : answer A -> event) : M W A :=
  fun s =>
    let (w, a) := f (world s) in
    ({| world := w; self := self s; trace := trace s ++ [ev a] |}, of_answer a).

End Monad.

Declare Scope loader_scope.
Delimit Scope loader_scope with loader.
Notation "x <- m ;; k" := (bind m (fun x => k))
  (at level 100, m at next level, k at level 200, right associativity) : loader_scope.
Notation "m ;; k" := (bind m (fun _ => k))
  (at level 100, k at level 200, right associativity) : loader_scope.

(** ** The orchestrator *)

(** [needle in hay] for strings. *)
Fixpoint contains (needle hay : string) : bool :=
  match hay with
  | EmptyString => String.prefix needle EmptyString
  | String _ rest => String.prefix needle hay || contains needle rest
  end.

(** The value [_check_url] returns. *)
Definition normalized (url : string) : string :=
  if negb (contains "://" url) then String.append "http://" url else url.

(** [self._urls.append(url)]. *)
Definition append_url (url : string) (l : Loader) : Loader :=
  {| _urls := _urls l ++ [url];
     _load_results := _load_results l;
     _page_results := _page_results l;
     _num_restarts := _num_restarts l |}.

(** [self._load_results[url].append(result)]; the [defaultdict] starts a
    missing key at the empty list. *)
Definition append_load_result (url : string) (result : LoadResult.t)
    (l : Loader) : Loader :=
  {| _urls := _urls l;
     _load_results :=
       <[url := default [] (_load_results l !! url) ++ [result]]> (_load_results l);
     _page_results := _page_results l;
     _num_restarts := _num_restarts l |}.

(** Reading [self._load_results[url]] leaves a missing key behind with
    the empty list. *)
Definition touch_load_results (url : string) (l : Loader) : Loader :=
  {| _urls := _urls l;
     _load_results :=
       match _load_results l !! url with
       | Some _ => _load_results l
       | None => <[url := []]> (_load_results l)
       end;
     _page_results := _page_results l;
     _num_restarts := _num_restarts l |}.

(** [self._page_results[url] = page_result]. *)
Definition set_page_result (url : string) (page_result : PageResult.t)
    (l : Loader) : Loader :=
  {| _urls := _urls l;
     _load_results := _load_results l;
     _page_results := <[url := page_result]> (_page_results l);
     _num_restarts := _num_restarts l |}.

(** [self._num_restarts += 1]. *)
Definition count_restart (l : Loader) : Loader :=
  {| _urls := _urls l;
     _load_results := _load_results l;
     _page_results := _page_results l;
     _num_restarts := S (_num_restarts l) |}.

Section Loader.
Context {W : Type}.
Variable bk : Backend W.
Variable cfg : Config.

Local Open Scope loader_scope.

Definition log (l : log_record) : M W unit := emit (EvLog l).

Definition call_setup : M W bool := call (_setup bk) EvSetup.

Definition call_teardown : M W unit := call (_teardown bk) EvTeardown.

Definition call_load_page (url outdir : string) (i : nat) : M W LoadResult.t :=
  call (_load_page bk url outdir i) (EvLoadPage url outdir i).

(** [urlparse.urlparse(url).scheme]; it touches nothing but may raise. *)
Definition scheme_of (url : string) : M W string :=
  fun s => (s, of_answer (urlparse_scheme bk url)).

(** [Loader._check_url]. *)
Definition _check_url (url : string) : M W string :=
  if negb (contains "://" url) then
    log (WarnNoProtocol url);;
    ret (String.append "http://" url)
  else ret url.

(** [Loader._check_protocol_available]. The four [except] clauses
    differ in the message only: each returns [False]. *)
Definition _check_protocol_available (url : string) : M W bool :=
  orig_protocol <- scheme_of url;;
  log (DebugChecking url orig_protocol);;
  let headers :=
    match PageResult.nonempty_str (user_agent cfg) with
    | Some ua => [("User-Agent", ua)]
    | None => []
    end in
  response <-
    try_except
      (final <- call (requests_get bk url (timeout cfg) headers) (EvRequest url);;
       ret (Some final))
      (fun e => log (ProbeFailed url e);; ret None);;
  match response with
  | None => ret false
  | Some response_url =>
      final_protocol <- scheme_of response_url;;
      ret (String.eqb orig_protocol final_protocol)
  end.

(** Lines 437-452: the body of the [while] after [tries_so_far += 1].
    The value is [true] when the loop is left by [break]. *)
Definition try_once (url : string) (i : nat) (tries_so_far : Z) : M W bool :=
  result <- call_load_page url (outdir cfg) i;;
  log (DebugTry i tries_so_far result);;
  if String.eqb (LoadResult.status result) LoadResult.SUCCESS then
    modify (append_url url);;
    modify (append_load_result url result);;
    ret true
  else
    (if (tries_so_far >? retries_per_trial cfg)%Z then
       modify (append_url url);;
       modify (append_load_result url result)
     else ret tt);;
    (if String.eqb (LoadResult.status result) LoadResult.FAILURE_UNKNOWN
        && restart_on_fail cfg then
       call_teardown;;
       call_setup;;
       modify count_restart
     else ret tt);;
    ret false.

(** Lines 434-452: [while tries_so_far <= self._retries_per_trial]. *)
Fixpoint while_tries (fuel : nat) (url : string) (i : nat) (tries_so_far : Z)
    : M W unit :=
  if (tries_so_far <=? retries_per_trial cfg)%Z then
    match fuel with
    | O => diverge
    | S fuel' =>
        let tries_so_far := tries_so_far + 1 in
        stop <- try_once url i tries_so_far;;
        if stop then ret tt else while_tries fuel' url i tries_so_far
    end
  else ret tt.

(** Lines 433-452: what the [try] of a trial encloses. The loop runs at
    most [retries_per_trial + 1] times, which is the fuel it gets. *)
Definition trial_body (url : string) (i : nat) : M W unit :=
  while_tries (Z.to_nat (retries_per_trial cfg + 1)) url i 0.

(** Lines 431-456: one trial, with the handler around it. *)
Definition trial (url : string) (i : nat) : M W unit :=
  try_except (trial_body url i) (fun e => log (ErrorLoadingPage url e)).

(** A [for] loop over a list. *)
Fixpoint for_each {A} (l : list A) (body : A -> M W unit) : M W unit :=
  match l with
  | [] => ret tt
  | x :: l' => body x;; for_each l' body
  end.

(** Lines 417-460: the body of [for url in urls]. *)
Definition process_url (url0 : string) : M W unit :=
  url <- _check_url url0;;
  skip <-
    (if check_protocol_availability cfg then
       available <- _check_protocol_available url;;
       ret (negb available)
     else ret false);;
  if (skip : bool) then
    log (InfoNotAccessible url);;
    modify (append_url url);;
    modify (set_page_result url
              (PageResult.init url (Some PageResult.FAILURE_NOT_ACCESSIBLE) None))
  else
    for_each (seq 0 (Z.to_nat (num_trials cfg))) (trial url);;
    modify (touch_load_results url);;
    rs <- (fun s => (s, Ret (default [] (_load_results (self s) !! url))));;
    modify (set_page_result url (PageResult.init url None (Some rs))).

(** [Loader.load_pages]. *)
Definition load_pages (urls : list string) : M W unit :=
  try_finally
    (try_except
       (ok <- call_setup;;
        if negb ok then log ErrorSettingUp
        else for_each urls process_url)
       (fun e => log (ErrorLoadingPages e)))
    (call_teardown;; ret tt).

End Loader.

(** ** The Chrome loader *)

(** [os.path.join(a, b)] on POSIX. *)
Definition path_join (a b : string) : string :=
  if String.prefix "/" b then b
  else if String.eqb a "" || String.eqb (substring (String.length a - 1)%nat 1 a) "/"
       then String.append a b
       else String.append a (String.append "/" b).

(** ['%d' % n] for a trial number. *)
Definition decimal (n : nat) : string :=
  NilZero.string_of_uint (Nat.to_uint n).

Section ChromeLoader.
Context {W : Type}.

(** [subprocess.check_output] of the capturer command under the alarm:
    it returns, or raises [TimeoutError], [CalledProcessError] or
    something else. *)
Variable check_output : string -> W -> W * answer string.
Variable save_har : bool.

(** [ChromeLoader._load_page]: every exception is turned into a
    [LoadResult]; a success carries the HAR path and nothing else. *)
Definition chrome_load_page (url outdir : string) (trial_num : nat) (w : W)
    : W * answer LoadResult.t :=
  let safeurl := _sanitize_url url in
  let filename :=
    String.append safeurl
      (String.append "_trial" (String.append (decimal trial_num) ".har")) in
  let harpath := if save_har then path_join outdir filename else "/dev/null" in
  let capturer_cmd :=
    String.append "/usr/bin/env chrome-har-capturer -o "
      (String.append harpath (String.append " " url)) in
  match check_output capturer_cmd w with
  | (w', Raised (TimeoutError _)) =>
      (w', Returned (LoadResult.make LoadResult.FAILURE_TIMEOUT url))
  | (w', Raised (OtherError _ _)) =>
      (w', Returned (LoadResult.make LoadResult.FAILURE_UNKNOWN url))
  | (w', Returned _) =>
      (w', Returned
             (LoadResult.mk LoadResult.SUCCESS url None PyNone PyNone
                (Some harpath) None None false))
  end.

End ChromeLoader.

(** ** The command-line tool *)

(** [main] of [tools/screenshot_generator.py] from the point where the
    list [urls] has been assembled, up to the return of [load_pages]
    (the pickling of the loader follows). [sys.exit(-1)] ends the
    process before a loader exists; otherwise a fresh loader runs with
    the options [main] passes and the defaults of [Loader.__init__]. *)
Inductive ended : Type :=
| Exit (code : Z)
| Done (loader : Loader).

Definition main_config (outdir : string) (useragent : option string)
    (numtrials : Z) : Config :=
  {| outdir := outdir;
     num_trials := numtrials;
     timeout := 30;
     user_agent := useragent;
     restart_on_fail := true;
     retries_per_trial := 3;
     check_protocol_availability := true |}.

Definition main {W : Type} (bk : Backend W) (outdir : string)
    (useragent : option string) (numtrials : Z) (urls : list string)
    (w : W) : W * list event * outcome ended :=
  if (length urls =? 0)%nat then
    (w, [EvLog ErrorNoURLs], Ret (Exit (-1)))
  else
    let '(s, o) :=
      load_pages bk (main_config outdir useragent numtrials) urls
        {| world := w; self := new_loader; trace := [] |} in
    (world s, trace s,
     match o with
     | Ret _ => Ret (Done (self s))
     | Raise e => Raise e
     | Diverge => Diverge
     end).

(** ** A scripted backend for running the model

    Each hook answers from a list; an exhausted list gives the default
    (set-up succeeds, tear-down returns, the request comes back from the
    URL it was sent to, loading raises, the capturer exits normally).
    The stand-in for [urlparse] gives the text before the first colon
    as the scheme, which is what [urlparse] gives for the URLs of the
    runs below (a lower-case scheme name followed by [://]), and raises
    the [ValueError] of Python 2.7 ("Invalid IPv6 URL") on an unmatched
    bracket; it does not lower-case the scheme and gives the whole text
    when there is no colon, where [urlparse] gives the empty scheme. *)
Module Scripted.

Record script : Type := {
  loads : list (answer LoadResult.t);
  gets : list (answer string);
  setups : list (answer bool);
  teardowns : list (answer unit);
  outputs : list (answer string)
}.

Fixpoint before_colon (s : string) : string :=
  match s with
  | EmptyString => EmptyString
  | String c rest =>
      if Ascii.eqb c ":"%char then EmptyString else String c (before_colon rest)
  end.

Definition setup (w : script) : script * answer bool :=
  match setups w with
  | a :: rest =>
      ({| loads := loads w; gets := gets w; setups := rest;
          teardowns := teardowns w; outputs := outputs w |}, a)
  | [] => (w, Returned true)
  end.

Definition teardown (w : script) : script * answer unit :=
  match teardowns w with
  | a :: rest =>
      ({| loads := loads w; gets := gets w; setups := setups w;
          teardowns := rest; outputs := outputs w |}, a)
  | [] => (w, Returned tt)
  end.

Definition load_page (_ _ : string) (_ : nat) (w : script)
    : script * answer LoadResult.t :=
  match loads w with
  | a :: rest =>
      ({| loads := rest; gets := gets w; setups := setups w;
          teardowns := teardowns w; outputs := outputs w |}, a)
  | [] => (w, Raised (OtherError "TypeError" "no answer"))
  end.

Definition scheme (url : string) : answer string :=
  if contains "[" url && negb (contains "]" url)
  then Raised (OtherError "ValueError" "Invalid IPv6 URL")
  else Returned (before_colon url).

Definition get (url : string) (_ : Z) (_ : list (string * string)) (w : script)
    : script * answer string :=
  match gets w with
  | a :: rest =>
      ({| loads := loads w; gets := rest; setups := setups w;
          teardowns := teardowns w; outputs := outputs w |}, a)
  | [] => (w, Returned url)
  end.

Definition check_output (_ : string) (w : script) : script * answer string :=
  match outputs w with
  | a :: rest =>
      ({| loads := loads w; gets := gets w; setups := setups w;
          teardowns := teardowns w; outputs := rest |}, a)
  | [] => (w, Returned "")
  end.

(** A backend whose page loads are scripted. *)
Definition backend : Backend script :=
  {| _setup := setup; _teardown := teardown; _load_page := load_page;
     urlparse_scheme := scheme; requests_get := get |}.

(** The Chrome loader over a scripted capturer. *)
Definition chrome (save_har : bool) : Backend script :=
  {| _setup := setup; _teardown := teardown;
     _load_page := chrome_load_page check_output save_har;
     urlparse_scheme := scheme; requests_get := get |}.

(** A world that answers the page loads with [l] and is otherwise at
    its defaults, under a loader just constructed. *)
Definition fresh (l : list (answer LoadResult.t)) : state script :=
  {| world := {| loads := l; gets := []; setups := []; teardowns := [];
                 outputs := [] |};
     self := new_loader;
     trace := [] |}.

Definition config (trials retries : Z) (restart check : bool) : Config :=
  {| outdir := "."; num_trials := trials; timeout := 30; user_agent := None;
     restart_on_fail := restart; retries_per_trial := retries;
     check_protocol_availability := check |}.

Definition loaded (status url : string) (time : pyval) : answer LoadResult.t :=
  Returned (LoadResult.mk status url None time PyNone None None None false).

Definition ok (time : pyval) : answer LoadResult.t :=
  loaded LoadResult.SUCCESS "http://a.example" time.

Definition unknown : answer LoadResult.t :=
  loaded LoadResult.FAILURE_UNKNOWN "http://a.example" PyNone.

Definition timed_out : answer LoadResult.t :=
  loaded LoadResult.FAILURE_TIMEOUT "http://a.example" PyNone.


(** The state after one occurrence of a URL has been loaded, one trial
    per URL and no protocol check, with a second answer waiting. *)
Definition seen_once : state script :=
  fst (process_url backend (config 1 0 false false) "http://a.example"
         (fresh [ok (PyNum 1.5); ok (PyNum 2)])).

(** The world in which the page load fails for an unknown reason and
    the tear-down of the restart raises. *)
Definition stuck : state script :=
  {| world := {| loads := [unknown]; gets := []; setups := []; outputs := [];
                 teardowns := [Raised (OtherError "OSError" "No such process")] |};
     self := new_loader;
     trace := [] |}.

(** The world in which the page loads with its first request answered
    and the second request fails to connect. *)
Definition reachable_once : state script :=
  {| world := {| loads := [ok (PyNum 1.5)]; setups := []; teardowns := [];
                 outputs := [];
                 gets := [Returned "http://a.example";
                          Raised (OtherError "ConnectionError" "refused")] |};
     self := new_loader;
     trace := [] |}.

(** The world in which set-up returns [False]. *)
Definition no_setup : state script :=
  {| world := {| loads := []; gets := []; teardowns := []; outputs := [];
                 setups := [Returned false] |};
     self := new_loader;
     trace := [] |}.

End Scripted.

(** ** The PhantomJS loader, as [load_pages] calls it

    [PhantomJSLoader._load_page(self, url, outdir)] has no parameter for
    the trial number that [load_pages] passes as third argument (line
    437 of [loader.py]): Python raises [TypeError] before the body of
    the method runs. *)
Definition phantomjs_load_page {W : Type} (url outdir : string) (trial_num : nat)
    (w : W) : W * answer LoadResult.t :=
  (w, Raised (OtherError "TypeError"
                "_load_page() takes exactly 3 arguments (4 given)")).

(** The PhantomJS loader over the scripted world. *)
Definition scripted_phantomjs : Backend Scripted.script :=
  {| _setup := Scripted.setup; _teardown := Scripted.teardown;
     _load_page := phantomjs_load_page;
     urlparse_scheme := Scripted.scheme; requests_get := Scripted.get |}.

(** ** The processes of the Chrome loader

    [ChromeLoader._setup] and [_teardown] over the two attributes
    [_xvfb_proc] and [_chrome_proc] and whatever else the operating
    system keeps ([os_state]). [popen] is [subprocess.Popen] followed by
    the [sleep]; [kill] and [wait] are the methods of the handle. The
    messages of the two methods are left out. *)
Record chrome_world (W H : Type) : Type := {
  os_state : W;
  _xvfb_proc : option H;
  _chrome_proc : option H
}.
Arguments os_state {W H} _.
Arguments _xvfb_proc {W H} _.
Arguments _chrome_proc {W H} _.

Definition xvfb_command : string :=
  "/usr/bin/env Xvfb :99 -screen 0 1366x768x24 -ac".

(** The character that encloses the user agent on the command line. *)
Definition double_quote : string := String (ascii_of_nat 34) EmptyString.

(** [chrome_command] of [_setup], before it is split at white space. *)
Definition chrome_command (user_agent : option string)
    (disable_local_cache : bool) : string :=
  let options := "" in
  let options :=
    match PageResult.nonempty_str user_agent with
    | Some ua =>
        String.append options
          (String.append " --user-agent="
             (String.append double_quote (String.append ua double_quote)))
    | None => options
    end in
  let options :=
    if disable_local_cache
    then String.append options " --disable-application-cache --disable-cache"
    else options in
  let options :=
    String.append options
      " --remote-debugging-port=9222 --enable-benchmarking --enable-net-benchmarking" in
  String.append "/usr/bin/env google-chrome" (String.append " " options).

Section ChromeProcesses.
Context {W H : Type}.
Variable popen : string -> W -> W * answer H.
Variable kill : H -> W -> W * answer unit.
Variable wait : H -> W -> W * answer unit.
Variable headless : bool.
Variable user_agent : option string.
Variable disable_local_cache : bool.

(** The second [try] of [_setup]: launch Chrome. *)
Definition chrome_launch (w : chrome_world W H) : chrome_world W H * answer bool :=
  match popen (chrome_command user_agent disable_local_cache) (os_state w) with
  | (os, Returned h) =>
      ({| os_state := os; _xvfb_proc := _xvfb_proc w; _chrome_proc := Some h |},
       Returned true)
  | (os, Raised _) =>
      ({| os_state := os; _xvfb_proc := _xvfb_proc w;
          _chrome_proc := _chrome_proc w |},
       Returned false)
  end.

(** [ChromeLoader._setup]. *)
Definition chrome_setup (w : chrome_world W H) : chrome_world W H * answer bool :=
  if headless then
    match popen xvfb_command (os_state w) with
    | (os, Returned h) =>
        chrome_launch
          {| os_state := os; _xvfb_proc := Some h; _chrome_proc := _chrome_proc w |}
    | (os, Raised _) =>
        ({| os_state := os; _xvfb_proc := _xvfb_proc w;
            _chrome_proc := _chrome_proc w |},
         Returned false)
    end
  else chrome_launch w.

(** [proc.kill()] then [proc.wait()] on the operating system. *)
Definition stop (h : H) (os : W) : W * answer unit :=
  match kill h os with
  | (os', Returned _) => wait h os'
  | (os', Raised e) => (os', Raised e)
  end.

(** [ChromeLoader._teardown]: the handles stay in the attributes. *)
Definition chrome_teardown (w : chrome_world W H) : chrome_world W H * answer unit :=
  let with_os os :=
    {| os_state := os; _xvfb_proc := _xvfb_proc w; _chrome_proc := _chrome_proc w |} in
  let after_chrome :=
    match _chrome_proc w with
    | Some h => stop h (os_state w)
    | None => (os_state w, Returned tt)
    end in
  match after_chrome with
  | (os, Raised e) => (with_os os, Raised e)
  | (os, Returned _) =>
      match _xvfb_proc w with
      | Some h => let (os', a) := stop h os in (with_os os', a)
      | None => (with_os os, Returned tt)
      end
  end.

End ChromeProcesses.

(** ** The list of URLs of the command-line tool *)

(** White space for [str.strip()]: space, tab, line feed, vertical tab,
    form feed and carriage return. *)
Definition is_space (c : ascii) : bool :=
  existsb (Nat.eqb (nat_of_ascii c)) [32; 9; 10; 11; 12; 13]%nat.

Fixpoint lstrip (s : string) : string :=
  match s with
  | EmptyString => EmptyString
  | String c rest => if is_space c then lstrip rest else s
  end.

Fixpoint rstrip (s : string) : string :=
  match s with
  | EmptyString => EmptyString
  | String c rest =>
      match rstrip rest with
      | EmptyString => if is_space c then EmptyString else String c EmptyString
      | rest' => String c rest'
      end
  end.

(** [line.strip()]. *)
Definition strip (s : string) : string := rstrip (lstrip s).

(** The loop over the lines of the URL file (lines 22-24 of
    [screenshot_generator.py]). *)
Fixpoint urls_of_lines (lines : list string) : list string :=
  match lines with
  | [] => []
  | line :: rest =>
      let line := strip line in
      if negb (String.eqb line "") then strip line :: urls_of_lines rest
      else urls_of_lines rest
  end.

(** The list [urls] of [main]: the lines of the file given with [-f],
    if any, then the URLs given with [-l], if any. *)
Definition assemble_urls (file_lines : option (list string))
    (load_pages_arg : option (list string)) : list string :=
  (match file_lines with Some lines => urls_of_lines lines | None => [] end)
  ++ (match load_pages_arg with Some l => l | None => [] end).

(** ** The body of [PhantomJSLoader._load_page]

    What a call with the two arguments the method declares does. *)

(** [s.split(sep)] for a separator that is not empty: the pieces
    between the occurrences of [sep], found from the left and not
    overlapping. [skip] counts the characters of an occurrence still
    to be passed, [piece] is the piece read so far. *)
Fixpoint split_from (sep : string) (skip : nat) (piece s : string) : list string :=
  match s with
  | EmptyString => [piece]
  | String c rest =>
      match skip with
      | S n => split_from sep n piece rest
      | O =>
          if String.prefix sep s
          then piece :: split_from sep (String.length sep - 1) "" rest
          else split_from sep 0 (String.append piece (String c EmptyString)) rest
      end
  end.

Definition str_split (sep s : string) : list string := split_from sep 0 "" s.

(** [sep.join(pieces)]. *)
Fixpoint str_join (sep : string) (pieces : list string) : string :=
  match pieces with
  | [] => ""
  | [p] => p
  | p :: rest => String.append p (String.append sep (str_join sep rest))
  end.

(** ['%d' % n] for an integer. *)
Definition decimal_int (n : Z) : string :=
  NilZero.string_of_int (Z.to_int n).

(** [Loader.NAME] for one of the names the method looks up on the class
    [Loader]: [SUCCESS], [FAILURE_TIMEOUT] and [FAILURE_UNKNOWN]. The
    class (lines 228-464 of [loader.py]) defines methods and properties
    only; the status constants belong to [LoadResult] and [PageResult].
    So the look-up raises [AttributeError]. *)
Definition loader_attribute (name : string) : answer string :=
  Raised (OtherError "AttributeError"
            (String.append "type object 'Loader' has no attribute '"
               (String.append name "'"))).

(** [LoadResult(Loader.NAME, ...)]: the status is evaluated first. *)
Definition load_result_with (name : string)
    (build : string -> answer LoadResult.t) : answer LoadResult.t :=
  match loader_attribute name with
  | Returned status => build status
  | Raised e => Raised e
  end.

(** The dictionary comprehension of line 61: each field is split at
    ["="]; a field without one has no second piece ([IndexError]). *)
Fixpoint returnvals_of (fields : list string) (d : gmap string string)
    : answer (gmap string string) :=
  match fields with
  | [] => Returned d
  | field :: rest =>
      match str_split "=" field with
      | key :: value :: _ => returnvals_of rest (<[key := value]> d)
      | _ => Raised (OtherError "IndexError" "list index out of range")
      end
  end.

(** [returnvals[key]]. *)
Definition getitem (d : gmap string string) (key : string) : answer string :=
  match d !! key with
  | Some v => Returned v
  | None => Raised (OtherError "KeyError" key)
  end.

Definition phantomjs_harpath (url outdir : string) : string :=
  path_join outdir (String.append (_sanitize_url url) ".har").

Definition phantomjs_imagepath (url outdir : string) : string :=
  path_join outdir (String.append (_sanitize_url url) ".png").

Definition phantom_cmd (timeout : Z) (url outdir : string) : string :=
  String.append "/usr/bin/env phantomjs ./phantomloader.js "
    (String.append url
       (String.append " "
          (String.append (phantomjs_imagepath url outdir)
             (String.append " " (decimal_int timeout))))).

Section PhantomJSLoader.
Context {W : Type}.

(** [subprocess.check_output] of the PhantomJS command under the alarm,
    and [open(harpath, 'w')] followed by [f.write(har)]. *)
Variable check_output : string -> W -> W * answer string.
Variable write_file : string -> string -> W -> W * answer unit.
Variable timeout : Z.

(** The [try] block, lines 33-70. *)
Definition phantomjs_try (url outdir : string) (w : W) : W * answer LoadResult.t :=
  match check_output (phantom_cmd timeout url outdir) w with
  | (w1, Raised e) => (w1, Raised e)
  | (w1, Returned output) =>
      match str_split "*=*=*=*" output with
      | [har; statusline] =>
          let fields := str_split ":" (strip statusline) in
          let status := hd "" fields in
          let message := str_join ":" (tl fields) in
          if String.eqb status "FAILURE" then
            if String.eqb message "timeout" then
              (w1, load_result_with "FAILURE_TIMEOUT"
                     (fun st => Returned (LoadResult.make st url)))
            else
              (w1, load_result_with "FAILURE_UNKNOWN"
                     (fun st => Returned (LoadResult.make st url)))
          else if String.eqb status "SUCCESS" then
            match write_file (phantomjs_harpath url outdir) har w1 with
            | (w2, Raised e) => (w2, Raised e)
            | (w2, Returned _) =>
                match returnvals_of (str_split ";" message) ∅ with
                | Raised e => (w2, Raised e)
                | Returned returnvals =>
                    (w2, load_result_with "SUCCESS"
                           (fun st =>
                              match getitem returnvals "final_url" with
                              | Raised e => Raised e
                              | Returned final_url =>
                                  match getitem returnvals "time" with
                                  | Raised e => Raised e
                                  | Returned time =>
                                      Returned
                                        (LoadResult.mk st url (Some final_url)
                                           (PyStr time) PyNone
                                           (Some (phantomjs_harpath url outdir))
                                           (Some (phantomjs_imagepath url outdir))
                                           None false)
                                  end
                              end))
                end
            end
          else
            (w1, load_result_with "FAILURE_UNKNOWN"
                   (fun st => Returned (LoadResult.make st url)))
      | [] => (w1, Raised (OtherError "ValueError" "need more than 0 values to unpack"))
      | [_] => (w1, Raised (OtherError "ValueError" "need more than 1 value to unpack"))
      | _ => (w1, Raised (OtherError "ValueError" "too many values to unpack"))
      end
  end.

(** The three [except] clauses, lines 73-81: each builds its result from
    a constant of [Loader]. *)
Definition phantomjs_except (url : string) (e : exn) : answer LoadResult.t :=
  match e with
  | TimeoutError _ =>
      load_result_with "FAILURE_TIMEOUT" (fun st => Returned (LoadResult.make st url))
  | OtherError _ _ =>
      load_result_with "FAILURE_UNKNOWN" (fun st => Returned (LoadResult.make st url))
  end.

(** [PhantomJSLoader._load_page(url, outdir)]. *)
Definition phantomjs_load_page_body (url outdir : string) (w : W)
    : W * answer LoadResult.t :=
  match phantomjs_try url outdir w with
  | (w', Returned r) => (w', Returned r)
  | (w', Raised e) => (w', phantomjs_except url e)
  end.

End PhantomJSLoader.

(** ** Constructing a loader *)

(** The keyword arguments of [Loader.__init__]: those [loader.py] reads
    itself ([common]) and those left to the subclasses. *)
Record Options : Type := {
  common : Config;
  http2 : bool;
  disable_local_cache : bool;
  disable_network_cache : bool;
  full_page : bool;
  headless : bool;
  proxy : option string;
  save_har : bool;
  save_screenshot : bool;
  stdout_filename : option string
}.

Definition not_implemented {A : Type} (message : string) : answer A :=
  Raised (OtherError "NotImplementedError" message).

(** [ChromeLoader.__init__]: the options Chrome cannot honour are
    refused, in this order; the loader starts without processes. *)
Definition chrome_init {W H : Type} (o : Options) (os : W)
    : answer (chrome_world W H) :=
  if negb (full_page o) then
    not_implemented "ChromeLoader does not support loading only an object"
  else
    match PageResult.nonempty_str (user_agent (common o)) with
    | Some _ =>
        not_implemented "ChromeLoader does not support custom user agents."
    | None =>
        if disable_network_cache o then
          not_implemented "ChromeLoader does not support disabling network caches."
        else if save_screenshot o then
          not_implemented "ChromeLoader does not support saving screenshots."
        else
          Returned {| os_state := os; _xvfb_proc := None; _chrome_proc := None |}
    end.

(** * Vocabulary of the properties *)

Definition is_success (r : LoadResult.t) : bool :=
  String.eqb (LoadResult.status r) LoadResult.SUCCESS.

(** A success whose [time] passes [if result.time:]. *)
Definition is_timed_success (r : LoadResult.t) : bool :=
  is_success r && truthy (LoadResult.time r).

(** Number of elements of a list that pass a test. *)
Definition count {A} (f : A -> bool) (l : list A) : nat :=
  length (List.filter f l).

(** The answers of the [_load_page] calls among some events, in order. *)
Fixpoint load_calls (evs : list event) : list (answer LoadResult.t) :=
  match evs with
  | [] => []
  | EvLoadPage _ _ _ a :: rest => a :: load_calls rest
  | _ :: rest => load_calls rest
  end.

Definition is_teardown (e : event) : bool :=
  match e with EvTeardown _ => true | _ => false end.

Definition is_setup (e : event) : bool :=
  match e with EvSetup _ => true | _ => false end.

Definition is_request (e : event) : bool :=
  match e with EvRequest _ _ => true | _ => false end.

(** A page load that came back with [FAILURE_UNKNOWN] while
    [restart_on_fail] is set. *)
Definition triggers_restart (cfg : Config) (e : event) : bool :=
  match e with
  | EvLoadPage _ _ _ (Returned r) =>
      String.eqb (LoadResult.status r) LoadResult.FAILURE_UNKNOWN
      && restart_on_fail cfg
  | _ => false
  end.

(** What recording a trial result does to the loader (lines 441-442 and
    446-447). *)
Definition record (url : string) (result : LoadResult.t) (l : Loader) : Loader :=
  append_load_result url result (append_url url l).

(** Two loaders that differ at most in the restart counter. *)
Definition same_results (l l' : Loader) : Prop :=
  _urls l = _urls l' /\ _load_results l = _load_results l'
  /\ _page_results l = _page_results l'.

(** An attempt that came back with a status other than [SUCCESS]. *)
Definition failed_attempt (a : answer LoadResult.t) : Prop :=
  exists r, a = Returned r /\ is_success r = false.

(** Every attempt before the last one came back with a failure. *)
Definition earlier_failed (attempts : list (answer LoadResult.t)) : Prop :=
  Forall failed_attempt (removelast attempts).

(** Recording several results, first to last. *)
Definition record_all (url : string) (rs : list LoadResult.t) (l : Loader) : Loader :=
  fold_left (fun acc r => record url r acc) rs l.

(** Events that involve neither [_load_page] nor a restart. *)
Definition no_backend (evs : list event) : Prop :=
  load_calls evs = [] /\ count is_teardown evs = 0%nat
  /\ count is_setup evs = 0%nat.

(** The loader holds a summary under [k], made for [k]. *)
Definition has_summary (l : Loader) (k : string) : Prop :=
  exists pr, _page_results l !! k = Some pr /\ PageResult.url pr = k.

(** What a piece of the orchestrator does, told by a relation [P]
    between the events it adds and the loader before and after. *)
Definition effect {W A} (P : list event -> Loader -> Loader -> Prop)
    (m : M W A) : Prop :=
  forall s s' o, m s = (s', o) ->
    exists new, trace s' = trace s ++ new /\ P new (self s) (self s').

(** A call of [_setup] that returned. *)
Definition returned_setup (e : event) : bool :=
  match e with EvSetup (Returned _) => true | _ => false end.

(** The loader only grew: the list of URLs and every list of trial
    results were extended at the end, no summary went away and the
    restart counter did not go down. *)
Definition grew (l l' : Loader) : Prop :=
  (exists more, _urls l' = _urls l ++ more) /\
  (forall k, exists more,
     default [] (_load_results l' !! k) = default [] (_load_results l !! k) ++ more) /\
  (forall k, is_Some (_page_results l !! k) -> is_Some (_page_results l' !! k)) /\
  (_num_restarts l <= _num_restarts l')%nat.

(** The restart counter went up by the number of [_setup] calls among
    the events that returned; without [restart_on_fail] there was no
    such call at all. *)
Definition restarts_counted (cfg : Config) (new : list event) (l l' : Loader) : Prop :=
  _num_restarts l' = (_num_restarts l + count returned_setup new)%nat /\
  (restart_on_fail cfg = false -> count is_setup new = 0%nat).

(** Every trial result on the loader satisfies [Q], and every summary is
    either the one of an inaccessible URL or the one computed, for its
    own key, from results that satisfy [Q]. *)
Definition from_answers (Q : LoadResult.t -> Prop) (l : Loader) : Prop :=
  (forall k rs, _load_results l !! k = Some rs -> Forall Q rs) /\
  (forall k pr, _page_results l !! k = Some pr ->
     pr = PageResult.init k (Some PageResult.FAILURE_NOT_ACCESSIBLE) None \/
     exists rs, Forall Q rs /\ pr = PageResult.init k None (Some rs)).

(** [_urls] has at least one entry for every trial result recorded. *)
Definition tally_le (l : Loader) : Prop :=
  forall k, (length (default [] (_load_results l !! k))
             <= count (String.eqb k) (_urls l))%nat.

(** [_urls] has exactly one entry for every trial result recorded. *)
Definition tally_eq (l : Loader) : Prop :=
  forall k, length (default [] (_load_results l !! k))
            = count (String.eqb k) (_urls l).

(** A result without a load time and without a size. *)
Definition untimed (r : LoadResult.t) : Prop :=
  LoadResult.time r = PyNone /\ LoadResult.size r = PyNone.

(** The status of a summary of two lists of results put together, from
    the statuses of the summaries of each. *)
Definition combine_status (x y : string) : string :=
  if String.eqb x PageResult.FAILURE_UNSET then y
  else if String.eqb y PageResult.FAILURE_UNSET then x
  else if String.eqb x PageResult.SUCCESS && String.eqb y PageResult.SUCCESS
       then PageResult.SUCCESS
  else if String.eqb x PageResult.FAILURE_UNKNOWN
          && String.eqb y PageResult.FAILURE_UNKNOWN
       then PageResult.FAILURE_UNKNOWN
  else PageResult.PARTIAL_SUCCESS.

(** The character [c] occurs in [s]. *)
Fixpoint occurs (c : ascii) (s : string) : bool :=
  match s with
  | EmptyString => false
  | String d rest => Ascii.eqb c d || occurs c rest
  end.

(** The name [ChromeLoader._load_page] gives the HAR file of a trial. *)
Definition har_name (url : string) (trial_num : nat) : string :=
  String.append (_sanitize_url url)
    (String.append "_trial" (String.append (decimal trial_num) ".har")).

(** The command [ChromeLoader._load_page] runs for a trial. *)
Definition capturer_command (save_har : bool) (url outdir : string)
    (trial_num : nat) : string :=
  String.append "/usr/bin/env chrome-har-capturer -o "
    (String.append
       (if save_har then path_join outdir (har_name url trial_num)
        else "/dev/null")
       (String.append " " url)).

(** [grew], for any events. *)
Definition growth (_ : list event) (l l' : Loader) : Prop := grew l l'.

(** Every summary is that of an inaccessible URL or the one computed
    from the trial results the loader holds under the same key. *)
Definition up_to_date (l : Loader) : Prop :=
  forall k pr, _page_results l !! k = Some pr ->
    pr = PageResult.init k (Some PageResult.FAILURE_NOT_ACCESSIBLE) None \/
    pr = PageResult.init k None (Some (default [] (_load_results l !! k))).

(** The loader [l'] differs from [l] under the keys [keys] only: the
    results and the summary of any other key are those of [l], and what
    was appended to [_urls] is among [keys]. *)
Definition same_outside (keys : list string) (l l' : Loader) : Prop :=
  (forall k, ~ In k keys ->
     _load_results l' !! k = _load_results l !! k /\
     _page_results l' !! k = _page_results l !! k) /\
  exists more, _urls l' = _urls l ++ more /\ Forall (fun u => In u keys) more.

(** The headers the protocol check sends (lines 331-333). *)
Definition request_headers (cfg : Config) : list (string * string) :=
  match PageResult.nonempty_str (user_agent cfg) with
  | Some ua => [("User-Agent", ua)]
  | None => []
  end.

(** The events [evs] are the calls made to the backend from the world
    [w], one after the other and each with the answer it gave, and
    [w'] is the world they leave. A message is not a call. *)
Fixpoint calls_from {W} (bk : Backend W) (cfg : Config) (w : W)
    (evs : list event) (w' : W) : Prop :=
  match evs with
  | [] => w' = w
  | EvSetup a :: rest =>
      exists w1, _setup bk w = (w1, a) /\ calls_from bk cfg w1 rest w'
  | EvTeardown a :: rest =>
      exists w1, _teardown bk w = (w1, a) /\ calls_from bk cfg w1 rest w'
  | EvLoadPage url outdir i a :: rest =>
      exists w1,
        _load_page bk url outdir i w = (w1, a) /\ calls_from bk cfg w1 rest w'
  | EvRequest url a :: rest =>
      exists w1,
        requests_get bk url (timeout cfg) (request_headers cfg) w = (w1, a) /\
        calls_from bk cfg w1 rest w'
  | EvLog _ :: rest => calls_from bk cfg w rest w'
  end.

(** A piece of the orchestrator only adds to the trace, and what it
    adds are the calls it made to the backend. *)
Definition traced {W A} (bk : Backend W) (cfg : Config) (m : M W A) : Prop :=
  forall s s' o, m s = (s', o) ->
    exists new,
      trace s' = trace s ++ new /\
      calls_from bk cfg (world s) new (world s').

(** The result an attempt records, by its message (line 438): a
    success, or the failure of the attempt after the last retry (lines
    440-447). *)
Definition recorded_by (cfg : Config) (e : event) : option LoadResult.t :=
  match e with
  | EvLog (DebugTry _ tries_so_far result) =>
      if is_success result || (tries_so_far >? retries_per_trial cfg)%Z
      then Some result
      else None
  | _ => None
  end.

(** The results recorded by the attempts among some events, in order. *)
Fixpoint recorded (cfg : Config) (evs : list event) : list LoadResult.t :=
  match evs with
  | [] => []
  | e :: rest =>
      match recorded_by cfg e with
      | Some r => r :: recorded cfg rest
      | None => recorded cfg rest
      end
  end.

(** The results that [_load_page] returned among some answers. *)
Fixpoint returned (answers : list (answer LoadResult.t)) : list LoadResult.t :=
  match answers with
  | [] => []
  | Returned r :: rest => r :: returned rest
  | Raised _ :: rest => returned rest
  end.

(** The attempts among the events [new] account for what was added to
    [_load_results] under [url]: the results they recorded, in order,
    were appended, and each of them is a value that a [_load_page] call
    among [new] returned. *)
Definition stores (cfg : Config) (url : string) (new : list event)
    (l l' : Loader) : Prop :=
  default [] (_load_results l' !! url)
    = default [] (_load_results l !! url) ++ recorded cfg new /\
  (forall r, In r (recorded cfg new) -> In (Returned r) (load_calls new)).

(** Tactics for running the monad in a hypothesis. *)

(** Case analysis on the innermost scrutinee of a hypothesis. *)
Ltac innermost x :=
  lazymatch x with
  | context [match ?y with _ => _ end] => innermost y
  | _ => constr:(x)
  end.

Ltac crunch H :=
  repeat (simpl in H;
          match type of H with
          | context [match ?x with _ => _ end] =>
              let y := innermost x in destruct y eqn:?
          end);
  simpl in H.

Ltac finish H := inversion H; subst; clear H; simpl.

(** * Properties of the result model *)

Lemma is_success_true r : is_success r = true <-> LoadResult.status r = LoadResult.SUCCESS.
Proof. unfold is_success. apply String.eqb_eq. Qed.

Lemma is_success_false r : is_success r = false <-> LoadResult.status r <> LoadResult.SUCCESS.
Proof. unfold is_success. apply String.eqb_neq. Qed.

Section Scan.
Import PageResult.

Lemma scan_flags rs : forall acc,
  was_a_success (fold_left scan_step rs acc) = was_a_success acc || existsb is_success rs /\
  was_a_failure (fold_left scan_step rs acc)
    = was_a_failure acc || existsb (fun r => negb (is_success r)) rs.
Proof.
  induction rs as [|r rs IH]; intros acc; simpl.
  - now rewrite !orb_false_r.
  - destruct (IH (scan_step acc r)) as [-> ->].
    unfold scan_step.
    change (String.eqb (LoadResult.status r) SUCCESS) with (is_success r).
    destruct (is_success r), (was_a_success acc), (was_a_failure acc);
      simpl; split; reflexivity.
Qed.

Lemma scan_times rs : forall acc,
  s_times (fold_left scan_step rs acc)
    = s_times acc ++ List.map LoadResult.time (List.filter is_timed_success rs).
Proof.
  induction rs as [|r rs IH]; intros acc; simpl.
  - now rewrite app_nil_r.
  - rewrite IH. unfold scan_step, is_timed_success.
    change (String.eqb (LoadResult.status r) SUCCESS) with (is_success r).
    destruct (is_success r); simpl; [|reflexivity].
    destruct (truthy (LoadResult.time r)); simpl; [|reflexivity].
    now rewrite <- app_assoc.
Qed.

(** The derived status, as a function of the list. *)
Lemma init_status url rs :
  status (init url None (Some rs)) =
    match rs with
    | [] => FAILURE_UNSET
    | _ =>
        if existsb (fun r => negb (is_success r)) rs && existsb is_success rs
        then PARTIAL_SUCCESS
        else if existsb is_success rs then SUCCESS else FAILURE_UNKNOWN
    end.
Proof.
  destruct rs as [|r rs]; [reflexivity|].
  unfold init. cbn [nonempty_list nonempty_str status].
  destruct (scan_flags (r :: rs) scan0) as [-> ->]. reflexivity.
Qed.

Lemma init_times url rs :
  times (init url None (Some rs))
    = List.map LoadResult.time (List.filter is_timed_success rs).
Proof.
  destruct rs as [|r rs]; [reflexivity|].
  unfold init. cbn [nonempty_list times]. now rewrite scan_times.
Qed.


End Scan.

Lemma existsb_false_Forall {A} (f : A -> bool) l :
  existsb f l = false <-> Forall (fun x => f x = false) l.
Proof.
  induction l as [|x l IH]; simpl.
  - split; auto.
  - rewrite orb_false_iff, IH. split.
    + intros [? ?]. now constructor.
    + intros H. inversion H; subst. auto.
Qed.

Lemma existsb_true_Exists {A} (f : A -> bool) l :
  existsb f l = true <-> Exists (fun x => f x = true) l.
Proof.
  rewrite List.existsb_exists, List.Exists_exists. reflexivity.
Qed.

(** * Properties of the orchestrator *)

Local Open Scope Z_scope.

Lemma count_app {A} (f : A -> bool) l1 l2 :
  count f (l1 ++ l2) = (count f l1 + count f l2)%nat.
Proof. unfold count. now rewrite List.filter_app, length_app. Qed.

Lemma load_calls_app l1 l2 : load_calls (l1 ++ l2) = load_calls l1 ++ load_calls l2.
Proof.
  induction l1 as [|e l1 IH]; simpl; [reflexivity|].
  destruct e; simpl; now rewrite ?IH.
Qed.

(** ** The trace and the backend *)

Section Traced.
Context {W : Type}.
Variable bk : Backend W.
Variable cfg : Config.

Lemma calls_from_app n1 : forall n2 (w w1 w2 : W),
  calls_from bk cfg w n1 w1 -> calls_from bk cfg w1 n2 w2 ->
  calls_from bk cfg w (n1 ++ n2) w2.
Proof.
  induction n1 as [|e n1 IH]; intros n2 w w1 w2 H1 H2; simpl in *.
  - now subst w1.
  - destruct e; try destruct H1 as (w0 & Hc & H1); eauto.
Qed.

Lemma calls_from_split n1 : forall n2 (w w2 : W),
  calls_from bk cfg w (n1 ++ n2) w2 ->
  exists w1, calls_from bk cfg w n1 w1 /\ calls_from bk cfg w1 n2 w2.
Proof.
  induction n1 as [|e n1 IH]; intros n2 w w2 H; simpl in *.
  - eauto.
  - destruct e; try destruct H as (w0 & Hc & H);
      apply IH in H; destruct H as (w1 & H1 & H2); eauto.
Qed.

Lemma traced_pure {A} (o : state W -> outcome A) :
  traced bk cfg (fun s => (s, o s)).
Proof.
  intros s s' o' H. finish H. exists []. now rewrite app_nil_r.
Qed.

Lemma traced_ret {A} (a : A) : traced bk cfg (ret a).
Proof. apply (traced_pure (fun _ => Ret a)). Qed.

Lemma traced_bind {A B} (m : M W A) (f : A -> M W B) :
  traced bk cfg m -> (forall a, traced bk cfg (f a)) -> traced bk cfg (bind m f).
Proof.
  intros Hm Hf s s' o H. unfold bind in H.
  destruct (m s) as [s1 o1] eqn:H1. apply Hm in H1.
  destruct H1 as (n1 & Ht1 & Hc1).
  destruct o1 as [a|e|].
  - apply Hf in H. destruct H as (n2 & Ht2 & Hc2).
    exists (n1 ++ n2). rewrite Ht2, Ht1, <- app_assoc.
    eauto using calls_from_app.
  - finish H. eauto.
  - finish H. eauto.
Qed.

Lemma traced_try_except {A} (m : M W A) (h : exn -> M W A) :
  traced bk cfg m -> (forall e, traced bk cfg (h e)) ->
  traced bk cfg (try_except m h).
Proof.
  intros Hm Hh s s' o H. unfold try_except in H.
  destruct (m s) as [s1 o1] eqn:H1. apply Hm in H1.
  destruct H1 as (n1 & Ht1 & Hc1).
  destruct o1 as [a|e|].
  - finish H. eauto.
  - apply Hh in H. destruct H as (n2 & Ht2 & Hc2).
    exists (n1 ++ n2). rewrite Ht2, Ht1, <- app_assoc.
    eauto using calls_from_app.
  - finish H. eauto.
Qed.

Lemma traced_try_finally {A} (m : M W A) (fin : M W unit) :
  traced bk cfg m -> traced bk cfg fin -> traced bk cfg (try_finally m fin).
Proof.
  intros Hm Hfin s s' o H. unfold try_finally in H.
  destruct (m s) as [s1 o1] eqn:H1. apply Hm in H1.
  destruct H1 as (n1 & Ht1 & Hc1).
  destruct o1 as [a|e|]; [| |finish H; eauto];
    destruct (fin s1) as [s2 o2] eqn:H2; apply Hfin in H2;
    destruct H2 as (n2 & Ht2 & Hc2);
    destruct o2 as [[]|e'|]; finish H;
    exists (n1 ++ n2); rewrite Ht2, Ht1, <- app_assoc;
    eauto using calls_from_app.
Qed.

Lemma traced_log (r : log_record) : traced bk cfg (log r).
Proof.
  intros s s' o H. unfold log, emit in H. finish H.
  exists [EvLog r]. split; reflexivity.
Qed.

Lemma traced_modify (f : Loader -> Loader) : traced bk cfg (modify f).
Proof.
  intros s s' o H. unfold modify in H. finish H.
  exists []. now rewrite app_nil_r.
Qed.

Lemma traced_setup : traced bk cfg (call_setup bk).
Proof.
  intros s s' o H. unfold call_setup, call in H.
  destruct (_setup bk (world s)) as [w a] eqn:Hc. finish H.
  exists [EvSetup a]. split; [reflexivity|]. simpl. eauto.
Qed.

Lemma traced_teardown : traced bk cfg (call_teardown bk).
Proof.
  intros s s' o H. unfold call_teardown, call in H.
  destruct (_teardown bk (world s)) as [w a] eqn:Hc. finish H.
  exists [EvTeardown a]. split; [reflexivity|]. simpl. eauto.
Qed.

Lemma traced_load_page url outdir i :
  traced bk cfg (call_load_page bk url outdir i).
Proof.
  intros s s' o H. unfold call_load_page, call in H.
  destruct (_load_page bk url outdir i (world s)) as [w a] eqn:Hc. finish H.
  exists [EvLoadPage url outdir i a]. split; [reflexivity|]. simpl. eauto.
Qed.

Lemma traced_request url :
  traced bk cfg
    (call (requests_get bk url (timeout cfg) (request_headers cfg))
       (EvRequest url)).
Proof.
  intros s s' o H. unfold call in H.
  destruct (requests_get bk url _ _ (world s)) as [w a] eqn:Hc. finish H.
  exists [EvRequest url a]. split; [reflexivity|]. simpl. eauto.
Qed.

Lemma traced_for_each {A} (body : A -> M W unit) (l : list A) :
  (forall x, traced bk cfg (body x)) -> traced bk cfg (for_each l body).
Proof.
  intros Hbody. induction l as [|x l IH]; simpl.
  - apply traced_ret.
  - apply traced_bind; auto.
Qed.

Local Open Scope loader_scope.

Lemma traced_try_once url i t : traced bk cfg (try_once bk cfg url i t).
Proof.
  unfold try_once.
  apply traced_bind; [apply traced_load_page|]. intros result.
  apply traced_bind; [apply traced_log|]. intros _.
  destruct (String.eqb _ LoadResult.SUCCESS).
  - repeat (apply traced_bind; [apply traced_modify|]; intros _).
    apply traced_ret.
  - apply traced_bind.
    { destruct (t >? retries_per_trial cfg)%Z; [|apply traced_ret].
      apply traced_bind; [apply traced_modify|]. intros _. apply traced_modify. }
    intros _. apply traced_bind; [|intros _; apply traced_ret].
    destruct (_ && _); [|apply traced_ret].
    apply traced_bind; [apply traced_teardown|]. intros _.
    apply traced_bind; [apply traced_setup|]. intros _. apply traced_modify.
Qed.

Lemma traced_while_tries url i fuel : forall t,
  traced bk cfg (while_tries bk cfg fuel url i t).
Proof.
  induction fuel as [|fuel IH]; intros t; simpl;
    destruct (t <=? retries_per_trial cfg)%Z; try apply traced_ret.
  - apply (traced_pure (fun _ => Diverge)).
  - apply traced_bind; [apply traced_try_once|].
    intros [|]; [apply traced_ret|apply IH].
Qed.

Lemma traced_trial url i : traced bk cfg (trial bk cfg url i).
Proof.
  apply traced_try_except; [apply traced_while_tries|].
  intros e. apply traced_log.
Qed.

Lemma traced_probe url : traced bk cfg (_check_protocol_available bk cfg url).
Proof.
  unfold _check_protocol_available.
  apply traced_bind; [apply (traced_pure (fun _ => of_answer _))|]. intros p.
  apply traced_bind; [apply traced_log|]. intros _.
  apply traced_bind.
  - apply traced_try_except.
    + apply traced_bind; [apply traced_request|].
      intros a. apply traced_ret.
    + intros e. apply traced_bind; [apply traced_log|].
      intros _. apply traced_ret.
  - intros [final|]; [|apply traced_ret].
    apply traced_bind; [apply (traced_pure (fun _ => of_answer _))|].
    intros q. apply traced_ret.
Qed.

Lemma traced_check_url u : traced bk cfg (_check_url u).
Proof.
  unfold _check_url. destruct (negb (contains "://" u)); [|apply traced_ret].
  apply traced_bind; [apply traced_log|]. intros _. apply traced_ret.
Qed.

Lemma traced_process_url u : traced bk cfg (process_url bk cfg u).
Proof.
  unfold process_url.
  apply traced_bind; [apply traced_check_url|]. intros url.
  apply traced_bind.
  { destruct (check_protocol_availability cfg); [|apply traced_ret].
    apply traced_bind; [apply traced_probe|]. intros b. apply traced_ret. }
  intros [|].
  - apply traced_bind; [apply traced_log|]. intros _.
    apply traced_bind; [apply traced_modify|]. intros _. apply traced_modify.
  - apply traced_bind; [apply traced_for_each; intros i; apply traced_trial|].
    intros _. apply traced_bind; [apply traced_modify|]. intros _.
    apply traced_bind; [apply (traced_pure (fun s => Ret _))|].
    intros rs. apply traced_modify.
Qed.

Lemma traced_load_pages urls : traced bk cfg (load_pages bk cfg urls).
Proof.
  unfold load_pages. apply traced_try_finally.
  - apply traced_try_except.
    + apply traced_bind; [apply traced_setup|]. intros ok.
      destruct (negb ok); [apply traced_log|].
      apply traced_for_each. intros u. apply traced_process_url.
    + intros e. apply traced_log.
  - apply traced_bind; [apply traced_teardown|]. intros _. apply traced_ret.
Qed.

(** What a piece adds to the trace is determined by the trace. *)
Lemma traced_new {A} (m : M W A) (s s' : state W) o new :
  traced bk cfg m -> m s = (s', o) -> trace s' = trace s ++ new ->
  calls_from bk cfg (world s) new (world s').
Proof.
  intros Hm H Htr. apply Hm in H. destruct H as (new' & Htr' & Hc).
  rewrite Htr in Htr'. apply app_inv_head in Htr'. now subst new'.
Qed.

End Traced.

Section Orchestrator.
Context {W : Type}.
Variable bk : Backend W.
Variable cfg : Config.

Lemma same_results_refl l : same_results l l.
Proof. repeat split. Qed.

Lemma same_results_trans l1 l2 l3 :
  same_results l1 l2 -> same_results l2 l3 -> same_results l1 l3.
Proof.
  intros (? & ? & ?) (? & ? & ?). repeat split; congruence.
Qed.

Lemma same_results_record url r l l' :
  same_results l l' -> same_results (record url r l) (record url r l').
Proof.
  intros (H1 & H2 & H3). unfold record, same_results; simpl.
  now rewrite H1, H2, H3.
Qed.

Lemma same_results_count l : same_results (count_restart l) l.
Proof. repeat split. Qed.

(** *** One attempt *)

Lemma try_once_spec url i t (s s' : state W) o :
  try_once bk cfg url i t s = (s', o) ->
  exists w1 a rest,
    _load_page bk url (outdir cfg) i (world s) = (w1, a) /\
    trace s' = trace s ++ EvLoadPage url (outdir cfg) i a :: rest /\
    load_calls rest = [] /\
    count is_request rest = 0%nat /\
    count is_teardown rest
      = count (triggers_restart cfg) [EvLoadPage url (outdir cfg) i a] /\
    count (triggers_restart cfg) rest = 0%nat /\
    match a with
    | Raised e => o = Raise e /\ self s' = self s
    | Returned r =>
        if is_success r then o = Ret true /\ self s' = record url r (self s)
        else (o = Ret false \/ exists e, o = Raise e) /\
             same_results (self s')
               (if (t >? retries_per_trial cfg)%Z then record url r (self s)
                else self s)
    end.
Proof.
  intros H. unfold try_once, call_load_page, call_teardown, call_setup, call,
    log, emit, modify, bind, ret, of_answer in H.
  crunch H.
  all: finish H.
  all: do 3 eexists; split; [reflexivity|]; rewrite <- ?app_assoc; simpl.
  all: split; [reflexivity|].
  all: unfold count, is_success; simpl;
    repeat match goal with
           | H : _ = true |- _ => rewrite H
           | H : _ = false |- _ => rewrite H
           end; simpl.
  all: repeat split; eauto using same_results_refl, same_results_count.
  match goal with
  | H : String.eqb _ LoadResult.SUCCESS = true |- _ =>
      apply String.eqb_eq in H; rewrite H; reflexivity
  end.
Qed.

(** *** The attempt loop *)

Lemma while_tries_spec url i fuel : forall t (s s' : state W) o,
  (Z.to_nat (retries_per_trial cfg + 1 - t) <= fuel)%nat ->
  while_tries bk cfg fuel url i t s = (s', o) ->
  o <> Diverge /\
  exists new,
    trace s' = trace s ++ new /\
    count is_request new = 0%nat /\
    count is_teardown new = count (triggers_restart cfg) new /\
    (length (load_calls new) <= Z.to_nat (retries_per_trial cfg + 1 - t))%nat /\
    earlier_failed (load_calls new) /\
    (same_results (self s') (self s) \/
     t <= retries_per_trial cfg /\
     exists r, same_results (self s') (record url r (self s))) /\
    (o = Ret tt -> t <= retries_per_trial cfg ->
     exists r,
       last (load_calls new) = Some (Returned r) /\
       same_results (self s') (record url r (self s)) /\
       (is_success r = false ->
        length (load_calls new) = Z.to_nat (retries_per_trial cfg + 1 - t))).
Proof.
  assert (Hdone : forall t (s s' : state W) o,
    retries_per_trial cfg < t -> ret tt s = (s', o) ->
    o <> Diverge /\
    exists new,
      trace s' = trace s ++ new /\
      count is_request new = 0%nat /\
      count is_teardown new = count (triggers_restart cfg) new /\
      (length (load_calls new) <= Z.to_nat (retries_per_trial cfg + 1 - t))%nat /\
      earlier_failed (load_calls new) /\
      (same_results (self s') (self s) \/
       t <= retries_per_trial cfg /\
       exists r, same_results (self s') (record url r (self s))) /\
      (o = Ret tt -> t <= retries_per_trial cfg ->
       exists r,
         last (load_calls new) = Some (Returned r) /\
         same_results (self s') (record url r (self s)) /\
         (is_success r = false ->
          length (load_calls new) = Z.to_nat (retries_per_trial cfg + 1 - t)))).
  { intros t s s' o Hgt H. unfold ret in H. finish H.
    split; [discriminate|]. exists []. rewrite app_nil_r. simpl.
    split; [reflexivity|]. split; [reflexivity|]. split; [reflexivity|].
    split; [lia|]. split; [constructor|].
    split; [left; apply same_results_refl|]. intros _ ?. lia. }
  induction fuel as [|fuel IH]; intros t s s' o Hfuel H; simpl in H.
  - destruct (t <=? retries_per_trial cfg) eqn:Hle.
    + apply Z.leb_le in Hle. lia.
    + apply Z.leb_gt in Hle. eauto.
  - destruct (t <=? retries_per_trial cfg) eqn:Hle.
    2:{ apply Z.leb_gt in Hle. eauto. }
    apply Z.leb_le in Hle.
    unfold bind in H.
    destruct (try_once bk cfg url i (t + 1) s) as [s1 o1] eqn:Honce.
    apply try_once_spec in Honce.
    destruct Honce as (w1 & a & rest & Hcall & Htr & Hlc & Hrq & Htd & Htg & Hcase).
    assert (Hn : Z.to_nat (retries_per_trial cfg + 1 - t)
                 = S (Z.to_nat (retries_per_trial cfg + 1 - (t + 1)))) by lia.
    destruct a as [r|e].
    + destruct (is_success r) eqn:Hs.
      * (* success: break *)
        destruct Hcase as [-> Hself]. unfold ret in H. finish H.
        split; [discriminate|].
        exists (EvLoadPage url (outdir cfg) i (Returned r) :: rest).
        split; [assumption|].
        change (EvLoadPage url (outdir cfg) i (Returned r) :: rest)
          with ([EvLoadPage url (outdir cfg) i (Returned r)] ++ rest).
        rewrite !count_app, load_calls_app, Hlc, Hrq, Htd, Htg. simpl.
        split; [reflexivity|]. split; [lia|]. split; [lia|].
        split; [constructor|].
        split; [right; split; [lia|]; exists r; rewrite Hself;
                apply same_results_refl|].
        intros _ _. exists r. split; [reflexivity|].
        split; [rewrite Hself; apply same_results_refl|]. congruence.
      * (* failure *)
        destruct Hcase as [[-> | [e ->]] Hself].
        -- (* next round *)
           apply IH in H; [|lia].
           destruct H as (Hnd & new & Htr' & Hrq' & Hbal' & Hlen' & Hearly' & Hrec' & Hret').
           split; [assumption|].
           exists (EvLoadPage url (outdir cfg) i (Returned r) :: rest ++ new).
           set (E := EvLoadPage url (outdir cfg) i (Returned r)) in *.
           assert (Hfail : failed_attempt (Returned r)) by (exists r; auto).
           split; [rewrite Htr', Htr, <- app_assoc; reflexivity|].
           change (E :: rest ++ new) with ([E] ++ rest ++ new).
           rewrite !count_app, !load_calls_app, Hlc, Hrq, Hrq', Htd, Htg, Hbal'.
           change (load_calls [E]) with [Returned r]. simpl app.
           change (count is_teardown [E]) with 0%nat.
           change (count is_request [E]) with 0%nat.
           split; [reflexivity|]. split; [lia|].
           split; [simpl; lia|].
           split.
           { unfold earlier_failed in *. simpl.
             destruct (load_calls new); constructor; assumption. }
           destruct (t + 1 >? retries_per_trial cfg) eqn:Hlast.
           ++ (* this was the last allowed attempt *)
              apply Z.gtb_lt in Hlast.
              assert (Hnone : load_calls new = []).
              { destruct (load_calls new); [reflexivity|simpl in Hlen'; lia]. }
              assert (Hsame : same_results (self s') (record url r (self s))).
              { destruct Hrec' as [Hrec'|[? _]]; [|lia].
                eapply same_results_trans; eassumption. }
              split; [right; split; [lia|]; exists r; assumption|].
              intros _ _. exists r. rewrite Hnone.
              split; [reflexivity|]. split; [assumption|].
              intros _. simpl. lia.
           ++ (* another attempt follows *)
              assert (Hlast' : t + 1 <= retries_per_trial cfg).
              { destruct (Z.gtb_spec (t + 1) (retries_per_trial cfg));
                  [discriminate|lia]. }
              split.
              { destruct Hrec' as [Hrec'|[_ [r' Hrec']]].
                - left. eapply same_results_trans; eassumption.
                - right. split; [lia|]. exists r'.
                  eapply same_results_trans; [eassumption|].
                  now apply same_results_record. }
              intros Ho _. destruct (Hret' Ho Hlast') as (r' & Hl & Hsame & Hcount).
              exists r'. split.
              { destruct (load_calls new); [discriminate|exact Hl]. }
              split.
              { eapply same_results_trans; [eassumption|].
                now apply same_results_record. }
              intros Hf. simpl. rewrite (Hcount Hf). lia.
        -- (* the restart raised *)
           finish H. split; [discriminate|].
           exists (EvLoadPage url (outdir cfg) i (Returned r) :: rest).
           split; [assumption|].
           change (EvLoadPage url (outdir cfg) i (Returned r) :: rest)
             with ([EvLoadPage url (outdir cfg) i (Returned r)] ++ rest).
           rewrite !count_app, load_calls_app, Hlc, Hrq, Htd, Htg. simpl.
           split; [reflexivity|]. split; [lia|]. split; [lia|].
           split; [constructor|].
           split; [|discriminate].
           destruct (t + 1 >? retries_per_trial cfg).
           ++ right. split; [lia|]. exists r. assumption.
           ++ left. assumption.
    + (* the page load raised *)
      destruct Hcase as [-> Hself]. finish H. split; [discriminate|].
      exists (EvLoadPage url (outdir cfg) i (Raised e) :: rest).
      split; [assumption|].
      change (EvLoadPage url (outdir cfg) i (Raised e) :: rest)
        with ([EvLoadPage url (outdir cfg) i (Raised e)] ++ rest).
      rewrite !count_app, load_calls_app, Hlc, Hrq, Htd, Htg.
      unfold count. simpl.
      split; [reflexivity|]. split; [lia|]. split; [lia|].
      split; [constructor|].
      split; [|discriminate].
      left. rewrite Hself. apply same_results_refl.
Qed.

(** *** One trial *)

Lemma trial_spec url i (s s' : state W) o :
  trial bk cfg url i s = (s', o) ->
  o = Ret tt /\
  exists new,
    trace s' = trace s ++ new /\
    count is_request new = 0%nat /\
    count is_teardown new = count (triggers_restart cfg) new /\
    (length (load_calls new) <= Z.to_nat (retries_per_trial cfg + 1))%nat /\
    (same_results (self s') (self s) \/
     exists r, same_results (self s') (record url r (self s))).
Proof.
  unfold trial, try_except, trial_body. intros H.
  destruct (while_tries bk cfg _ url i 0 s) as [s1 o1] eqn:Hloop.
  apply while_tries_spec in Hloop; [|rewrite Z.sub_0_r; lia].
  destruct Hloop as (Hnd & new & Htr & Hrq & Hbal & Hlen & _ & Hrec & _).
  rewrite Z.sub_0_r in Hlen.
  assert (Hrec' : same_results (self s1) (self s) \/
                  exists r, same_results (self s1) (record url r (self s))).
  { destruct Hrec as [?|[_ ?]]; auto. }
  destruct o1 as [[]|e|]; [| |congruence].
  - finish H. split; [reflexivity|]. exists new. auto.
  - unfold log, emit in H. finish H. split; [reflexivity|].
    exists (new ++ [EvLog (ErrorLoadingPage url e)]).
    rewrite Htr, <- app_assoc, !count_app, load_calls_app, Hrq, Hbal.
    simpl. rewrite app_nil_r, !Nat.add_0_r. auto.
Qed.

(** *** The trials of one URL *)

Lemma same_results_record_all url rs : forall l l',
  same_results l l' -> same_results (record_all url rs l) (record_all url rs l').
Proof.
  induction rs as [|r rs IH]; intros l l' H; simpl; [assumption|].
  apply IH. now apply same_results_record.
Qed.

Lemma record_all_page_results url rs : forall l,
  _page_results (record_all url rs l) = _page_results l.
Proof. induction rs as [|r rs IH]; intros l; simpl; [reflexivity|]. now rewrite IH. Qed.

Lemma record_all_restarts url rs : forall l,
  _num_restarts (record_all url rs l) = _num_restarts l.
Proof. induction rs as [|r rs IH]; intros l; simpl; [reflexivity|]. now rewrite IH. Qed.

Lemma record_all_urls url rs : forall l,
  _urls (record_all url rs l) = _urls l ++ List.map (fun _ => url) rs.
Proof.
  induction rs as [|r rs IH]; intros l; simpl; [now rewrite app_nil_r|].
  rewrite IH. simpl. now rewrite <- app_assoc.
Qed.

Lemma record_all_load_results url rs : forall l,
  default [] (_load_results (record_all url rs l) !! url)
    = default [] (_load_results l !! url) ++ rs.
Proof.
  induction rs as [|r rs IH]; intros l; simpl; [now rewrite app_nil_r|].
  rewrite IH. simpl. rewrite lookup_insert_eq. simpl. now rewrite <- app_assoc.
Qed.

Lemma record_all_load_results_ne url rs k : forall l,
  k <> url ->
  _load_results (record_all url rs l) !! k = _load_results l !! k.
Proof.
  induction rs as [|r rs IH]; intros l Hne; simpl; [reflexivity|].
  rewrite IH by assumption. simpl. now rewrite lookup_insert_ne.
Qed.

Lemma trials_spec url l : forall (s s' : state W) o,
  for_each l (trial bk cfg url) s = (s', o) ->
  o = Ret tt /\
  exists new rs,
    trace s' = trace s ++ new /\
    count is_request new = 0%nat /\
    count is_teardown new = count (triggers_restart cfg) new /\
    (length (load_calls new) <= length l * Z.to_nat (retries_per_trial cfg + 1))%nat /\
    (length rs <= length l)%nat /\
    same_results (self s') (record_all url rs (self s)).
Proof.
  induction l as [|i l IH]; intros s s' o H; simpl in H.
  - unfold ret in H. finish H. split; [reflexivity|]. exists [], [].
    rewrite app_nil_r. simpl. repeat split; auto.
  - unfold bind in H.
    destruct (trial bk cfg url i s) as [s1 o1] eqn:Htrial.
    apply trial_spec in Htrial.
    destruct Htrial as (-> & new1 & Htr1 & Hrq1 & Hbal1 & Hlen1 & Hrec1).
    apply IH in H.
    destruct H as (-> & new2 & rs2 & Htr2 & Hrq2 & Hbal2 & Hlen2 & Hn2 & Hrec2).
    split; [reflexivity|].
    assert (Hrs : exists rs, (length rs <= S (length l))%nat /\
              same_results (self s') (record_all url rs (self s))).
    { destruct Hrec1 as [Hsame|[r Hsame]].
      - exists rs2. split; [lia|].
        eapply same_results_trans; [eassumption|].
        now apply same_results_record_all.
      - exists (r :: rs2). split; [simpl; lia|].
        eapply same_results_trans; [eassumption|].
        simpl. now apply same_results_record_all. }
    destruct Hrs as (rs & Hn & Hsame).
    exists (new1 ++ new2), rs.
    rewrite Htr2, Htr1, <- app_assoc, !count_app, load_calls_app, length_app,
      Hrq1, Hrq2, Hbal1, Hbal2.
    split; [reflexivity|]. split; [reflexivity|]. split; [reflexivity|].
    split; [simpl; lia|]. split; [simpl; lia|]. assumption.
Qed.

(** *** The protocol check *)

Lemma no_load_no_trigger evs :
  load_calls evs = [] -> count (triggers_restart cfg) evs = 0%nat.
Proof.
  induction evs as [|e evs IH]; [reflexivity|].
  destruct e; simpl; try discriminate; intros H; unfold count in *; simpl;
    auto.
Qed.

Lemma check_url_spec u (s : state W) :
  exists logs,
    _check_url u s
      = ({| world := world s; self := self s; trace := trace s ++ logs |},
         Ret (normalized u))
    /\ no_backend logs.
Proof.
  unfold _check_url, normalized.
  destruct (negb (contains "://" u)).
  - exists [EvLog (WarnNoProtocol u)]. split; [reflexivity|].
    repeat split.
  - exists []. rewrite app_nil_r. destruct s. split; [reflexivity|].
    repeat split.
Qed.

Lemma probe_spec url (s s' : state W) o :
  _check_protocol_available bk cfg url s = (s', o) ->
  o <> Diverge /\ self s' = self s /\
  exists new, trace s' = trace s ++ new /\ no_backend new.
Proof.
  intros H.
  unfold _check_protocol_available, scheme_of, try_except, call, log, emit,
    bind, ret, of_answer in H.
  crunch H.
  all: finish H.
  all: split; [discriminate|]; split; [reflexivity|].
  all: rewrite <- ?app_assoc; simpl.
  all: first [ exists []; rewrite app_nil_r; split; [reflexivity|]
             | eexists; split; [reflexivity|] ].
  all: repeat split.
Qed.

(** *** One URL *)

Local Open Scope loader_scope.

(** Lines 430-460: the trials of an accessible URL and its summary. *)
Lemma load_url_spec u' (s s' : state W) o :
  (for_each (seq 0 (Z.to_nat (num_trials cfg))) (trial bk cfg u');;
   modify (touch_load_results u');;
   rs <- (fun s => (s, Ret (default [] (_load_results (self s) !! u'))));;
   modify (set_page_result u' (PageResult.init u' None (Some rs)))) s = (s', o) ->
  o = Ret tt /\
  exists new rs,
    trace s' = trace s ++ new /\
    count is_request new = 0%nat /\
    count is_teardown new = count (triggers_restart cfg) new /\
    (length rs <= Z.to_nat (num_trials cfg))%nat /\
    (length (load_calls new)
     <= Z.to_nat (num_trials cfg) * Z.to_nat (retries_per_trial cfg + 1))%nat /\
    _page_results (self s') =
      <[u' := PageResult.init u' None
                (Some (default [] (_load_results (self s) !! u') ++ rs))]>
        (_page_results (self s)) /\
    _load_results (self s') !! u'
      = Some (default [] (_load_results (self s) !! u') ++ rs) /\
    (forall k, k <> u' ->
       _load_results (self s') !! k = _load_results (self s) !! k) /\
    _urls (self s') = _urls (self s) ++ List.map (fun _ => u') rs.
Proof.
  intros H. unfold bind at 1 in H.
  destruct (for_each _ (trial bk cfg u') s) as [s1 o1] eqn:Htrials.
  apply trials_spec in Htrials.
  destruct Htrials as (-> & new & rs & Htr & Hrq & Hbal & Hlen & Hn & Hsame).
  rewrite length_seq in Hlen, Hn.
  unfold bind, modify in H. simpl in H. finish H.
  split; [reflexivity|]. exists new, rs.
  destruct Hsame as (Hu & Hl & Hp).
  assert (Hold : default [] (_load_results (self s1) !! u')
                 = default [] (_load_results (self s) !! u') ++ rs).
  { rewrite Hl. apply record_all_load_results. }
  split; [assumption|]. split; [assumption|]. split; [assumption|].
  split; [assumption|]. split; [assumption|].
  split.
  { destruct (_load_results (self s1) !! u') eqn:Hk; simpl in *;
      rewrite ?lookup_insert_eq, ?Hk; simpl;
      rewrite Hp, record_all_page_results; congruence. }
  split.
  { destruct (_load_results (self s1) !! u') eqn:Hk; simpl in *.
    - congruence.
    - rewrite lookup_insert_eq. congruence. }
  split.
  { intros k Hne.
    destruct (_load_results (self s1) !! u') eqn:Hk; simpl;
      rewrite ?lookup_insert_ne by congruence;
      rewrite Hl; now apply record_all_load_results_ne. }
  rewrite Hu. apply record_all_urls.
Qed.

Lemma process_url_spec u (s s' : state W) o :
  process_url bk cfg u s = (s', o) ->
  let u' := normalized u in
  let probe := _check_protocol_available bk cfg u' (fst (_check_url u s)) in
  exists new,
    trace s' = trace s ++ new /\
    count is_teardown new = count (triggers_restart cfg) new /\
    match o with
    | Diverge => False
    | Raise e =>
        self s' = self s /\ no_backend new /\
        check_protocol_availability cfg = true /\ snd probe = Raise e
    | Ret _ =>
        (check_protocol_availability cfg = true /\ snd probe = Ret false /\
         no_backend new /\
         self s' =
           set_page_result u'
             (PageResult.init u' (Some PageResult.FAILURE_NOT_ACCESSIBLE) None)
             (append_url u' (self s)))
        \/
        ((check_protocol_availability cfg = false \/ snd probe = Ret true) /\
         exists rs,
           (length rs <= Z.to_nat (num_trials cfg))%nat /\
           (length (load_calls new)
            <= Z.to_nat (num_trials cfg) * Z.to_nat (retries_per_trial cfg + 1))%nat /\
           _page_results (self s') =
             <[u' := PageResult.init u' None
                       (Some (default [] (_load_results (self s) !! u') ++ rs))]>
               (_page_results (self s)) /\
           _load_results (self s') !! u'
             = Some (default [] (_load_results (self s) !! u') ++ rs) /\
           (forall k, k <> u' ->
              _load_results (self s') !! k = _load_results (self s) !! k) /\
           _urls (self s') = _urls (self s) ++ List.map (fun _ => u') rs)
    end.
Proof.
  intros H u' probe. subst probe.
  destruct (check_url_spec u s) as (logs & Hcu & Hlogs).
  unfold process_url in H. unfold bind at 1 in H.
  rewrite Hcu in *. cbn [fst]. fold u' in H |- *.
  set (s0 := {| world := world s; self := self s; trace := trace s ++ logs |}) in *.
  destruct Hlogs as (Hl0 & Ht0 & Hs0).
  unfold bind at 1 in H.
  destruct (check_protocol_availability cfg) eqn:Hcheck.
  - unfold bind at 1 in H.
    destruct (_check_protocol_available bk cfg u' s0) as [s1 o1] eqn:Hprobe.
    apply probe_spec in Hprobe.
    destruct Hprobe as (Hnd & Hself & new1 & Htr1 & Hl1 & Ht1 & Hs1).
    destruct o1 as [[|]|e|]; [| | |congruence]; cbn [ret negb snd] in H.
    + (* accessible *)
      apply load_url_spec in H.
      destruct H as (-> & new & rs & Htr & Hrq & Hbal & Hn & Hlen & Hp & Hl & Hk & Hu).
      exists (logs ++ new1 ++ new).
      rewrite Htr, Htr1. subst s0. cbn [trace]. rewrite <- !app_assoc.
      split; [reflexivity|].
      rewrite !count_app, !load_calls_app, Hl0, Hl1, Ht0, Ht1, Hbal,
        (no_load_no_trigger logs), (no_load_no_trigger new1) by assumption.
      split; [reflexivity|]. right. split; [now right|].
      exists rs. rewrite Hself in *. cbn [self] in *. repeat split; assumption.
    + (* not accessible *)
      unfold bind, log, emit, modify in H. simpl in H. finish H.
      exists (logs ++ new1 ++ [EvLog (InfoNotAccessible u')]).
      rewrite Htr1. subst s0. cbn [trace self] in *.
      rewrite <- !app_assoc. split; [reflexivity|].
      rewrite !count_app, (no_load_no_trigger logs), (no_load_no_trigger new1),
        Ht0, Ht1 by assumption.
      split; [reflexivity|]. left.
      split; [reflexivity|]. split; [reflexivity|].
      split; [|now rewrite Hself].
      unfold no_backend. rewrite !count_app, !load_calls_app, Hl0, Hl1, Ht0,
        Ht1, Hs0, Hs1. repeat split.
    + (* the check raised *)
      finish H. exists (logs ++ new1). rewrite Htr1.
      subst s0. cbn [trace self] in *. rewrite <- app_assoc.
      split; [reflexivity|].
      rewrite !count_app, (no_load_no_trigger logs), (no_load_no_trigger new1),
        Ht0, Ht1 by assumption.
      split; [reflexivity|]. split; [now rewrite Hself|].
      split; [|auto].
      unfold no_backend. rewrite !count_app, !load_calls_app, Hl0, Hl1, Ht0,
        Ht1, Hs0, Hs1. repeat split.
  - cbn [ret] in H.
    apply load_url_spec in H.
    destruct H as (-> & new & rs & Htr & Hrq & Hbal & Hn & Hlen & Hp & Hl & Hk & Hu).
    exists (logs ++ new).
    rewrite Htr. subst s0. cbn [trace self] in *. rewrite <- !app_assoc.
    split; [reflexivity|].
    rewrite !count_app, !load_calls_app, Hl0, Ht0, Hbal,
      (no_load_no_trigger logs) by assumption.
    split; [reflexivity|]. right. split; [now left|].
    exists rs. repeat split; assumption.
Qed.

(** *** The loop over the URLs *)

Lemma process_url_keeps u k (s s' : state W) o :
  process_url bk cfg u s = (s', o) ->
  has_summary (self s) k -> has_summary (self s') k.
Proof.
  intros H (pr & Hk & Hurl). apply process_url_spec in H.
  destruct H as (new & _ & _ & H).
  destruct o as [[]|e|]; [| |contradiction].
  - destruct (decide (normalized u = k)) as [<-|Hne].
    + destruct H as [(_ & _ & _ & ->)|(_ & rs & _ & _ & Hp & _)].
      * eexists. simpl. rewrite lookup_insert_eq. split; reflexivity.
      * eexists. rewrite Hp, lookup_insert_eq. split; reflexivity.
    + exists pr. split; [|assumption].
      destruct H as [(_ & _ & _ & ->)|(_ & rs & _ & _ & Hp & _)].
      * simpl. now rewrite lookup_insert_ne.
      * now rewrite Hp, lookup_insert_ne.
  - destruct H as (-> & _). exists pr. auto.
Qed.

Lemma process_url_adds u (s s' : state W) :
  process_url bk cfg u s = (s', Ret tt) ->
  has_summary (self s') (normalized u).
Proof.
  intros H. apply process_url_spec in H.
  destruct H as (new & _ & _ & H).
  destruct H as [(_ & _ & _ & ->)|(_ & rs & _ & _ & Hp & _)].
  - eexists. simpl. rewrite lookup_insert_eq. split; reflexivity.
  - eexists. rewrite Hp, lookup_insert_eq. split; reflexivity.
Qed.

Lemma urls_spec urls : forall (s s' : state W) o,
  for_each urls (process_url bk cfg) s = (s', o) ->
  o <> Diverge /\
  (exists new,
     trace s' = trace s ++ new /\
     count is_teardown new = count (triggers_restart cfg) new) /\
  (forall k, has_summary (self s) k -> has_summary (self s') k) /\
  (o = Ret tt -> forall u, In u urls -> has_summary (self s') (normalized u)).
Proof.
  induction urls as [|u urls IH]; intros s s' o H; simpl in H.
  - unfold ret in H. finish H. split; [discriminate|].
    split; [exists []; now rewrite app_nil_r|].
    split; [auto|]. intros _ u [].
  - unfold bind in H.
    destruct (process_url bk cfg u s) as [s1 o1] eqn:Hone.
    pose proof (fun k => process_url_keeps u k _ _ _ Hone) as Hkeep.
    pose proof (process_url_spec _ _ _ _ Hone) as (new1 & Htr1 & Hbal1 & Hcase).
    destruct o1 as [[]|e|]; [| |contradiction].
    + apply IH in H. destruct H as (Hnd & (new2 & Htr2 & Hbal2) & Hk & Hall).
      split; [assumption|]. split.
      { exists (new1 ++ new2).
        rewrite Htr2, Htr1, <- app_assoc, !count_app, Hbal1, Hbal2. auto. }
      split; [intros k Hs; apply Hk, Hkeep, Hs|].
      intros Ho v [<-|Hin]; [|now apply Hall].
      apply Hk. eapply process_url_adds; eassumption.
    + finish H. split; [discriminate|].
      split; [exists new1; auto|].
      split; [exact Hkeep|]. discriminate.
Qed.

(** *** Attempts within a trial *)

Lemma record_results url r l l' :
  same_results l' (record url r l) ->
  _load_results l' !! url = Some (default [] (_load_results l !! url) ++ [r]) /\
  _urls l' = _urls l ++ [url].
Proof.
  intros (Hu & Hl & _). rewrite Hu, Hl. unfold record. simpl.
  now rewrite lookup_insert_eq.
Qed.

(** An attempt loop whose last page load raised: the exception leaves
    the loop and nothing was recorded. A loop that may run makes a
    call. *)
Lemma while_tries_raised url i fuel : forall t (s s' : state W) o,
  while_tries bk cfg fuel url i t s = (s', o) ->
  exists new,
    trace s' = trace s ++ new /\
    (retries_per_trial cfg < t -> new = [] /\ self s' = self s) /\
    (t <= retries_per_trial cfg -> fuel <> 0%nat -> load_calls new <> []) /\
    (forall e, last (load_calls new) = Some (Raised e) ->
       o = Raise e /\ same_results (self s') (self s)).
Proof.
  assert (Hstop : forall (s s' : state W) (o : outcome unit),
            (s, o) = (s', o) ->
            exists new : list event,
              trace s' = trace s ++ new /\ new = [] /\ self s' = self s).
  { intros s s' o H. finish H. exists []. now rewrite app_nil_r. }
  induction fuel as [|fuel IH]; intros t s s' o H; simpl in H.
  - destruct (t <=? retries_per_trial cfg) eqn:Hle;
      [apply Z.leb_le in Hle|apply Z.leb_gt in Hle];
      unfold diverge, ret in H; finish H;
      exists []; rewrite app_nil_r;
      (split; [reflexivity|]); (split; [auto|]);
      (split; [intros; lia || congruence|]); discriminate.
  - destruct (t <=? retries_per_trial cfg) eqn:Hle.
    2:{ apply Z.leb_gt in Hle. unfold ret in H. finish H.
        exists []. rewrite app_nil_r. split; [reflexivity|]. split; [auto|].
        split; [intros; lia|]. discriminate. }
    apply Z.leb_le in Hle. unfold bind in H.
    destruct (try_once bk cfg url i (t + 1) s) as [s1 o1] eqn:Honce.
    apply try_once_spec in Honce.
    destruct Honce as (w1 & a & rest & _ & Htr & Hlc & _ & _ & _ & Hcase).
    set (E := EvLoadPage url (outdir cfg) i a) in *.
    assert (Hone : load_calls (E :: rest) = [a]).
    { change (E :: rest) with ([E] ++ rest). rewrite load_calls_app, Hlc.
      reflexivity. }
    destruct a as [r|e].
    + destruct (is_success r) eqn:Hs.
      * destruct Hcase as [-> Hself]. unfold ret in H. finish H.
        exists (E :: rest). rewrite Hone.
        split; [assumption|]. split; [intros; lia|].
        split; [discriminate|]. discriminate.
      * destruct Hcase as [[-> | [e ->]] Hself].
        -- apply IH in H. destruct H as (new & Htr' & Hnone & Hsome & Hraised).
           exists (E :: rest ++ new).
           split; [rewrite Htr', Htr, <- app_assoc; reflexivity|].
           split; [intros; lia|].
           change (E :: rest ++ new) with ((E :: rest) ++ new).
           rewrite load_calls_app, Hone.
           split; [discriminate|].
           intros e He.
           destruct (load_calls new) as [|x lc] eqn:Hlcn; [discriminate|].
           change (([Returned r] ++ x :: lc)) with (Returned r :: x :: lc) in He.
           rewrite last_cons_cons in He.
           destruct (Hraised e He) as [-> Hsame]. split; [reflexivity|].
           eapply same_results_trans; [exact Hsame|].
           destruct (t + 1 >? retries_per_trial cfg) eqn:Hlast; [|assumption].
           apply Z.gtb_lt in Hlast.
           destruct (Hnone Hlast) as [Hnil _]. subst new. discriminate.
        -- finish H. exists (E :: rest). rewrite Hone.
           split; [assumption|]. split; [intros; lia|].
           split; [discriminate|]. discriminate.
    + destruct Hcase as [-> Hself]. finish H.
      exists (E :: rest). rewrite Hone.
      split; [assumption|]. split; [intros; lia|].
      split; [discriminate|].
      intros e' [= <-]. split; [reflexivity|].
      rewrite Hself. apply same_results_refl.
Qed.

(** C5 (as amended). Within one trial [_load_page] is called at most
    [1 + retries_per_trial] times, and at least once unless
    [retries_per_trial] is negative; the calls in the trace are the
    calls made to the backend, and every call before the last came back
    with a failure, so the loop stops at the first success. The trial
    never records more than one result. When the attempt loop ends
    without an exception, exactly one result is recorded (one more
    entry of [_load_results[url]] and of [_urls]): the answer of the
    last call, which is the first success if there was one and
    otherwise the failure of the last of all [1 + retries_per_trial]
    attempts. When the last [_load_page] call raised, the exception
    leaves the loop, there is no retry, and nothing is recorded for the
    trial. With a negative [retries_per_trial] nothing is called and
    nothing recorded. The handler of the trial only writes a message:
    the trial ends normally, with the loader as the loop left it. *)
Theorem trial_attempts url i (s : state W) :
  let r := trial_body bk cfg url i s in
  let old := default [] (_load_results (self s) !! url) in
  exists new,
    trace (fst r) = trace s ++ new /\
    calls_from bk cfg (world s) new (world (fst r)) /\
    (length (load_calls new) <= Z.to_nat (1 + retries_per_trial cfg))%nat /\
    earlier_failed (load_calls new) /\
    (0 <= retries_per_trial cfg -> load_calls new <> []) /\
    (exists rs,
       (length rs <= 1)%nat /\
       default [] (_load_results (self (fst r)) !! url) = old ++ rs /\
       _urls (self (fst r)) = _urls (self s) ++ List.map (fun _ => url) rs) /\
    (snd r = Ret tt -> 0 <= retries_per_trial cfg ->
     exists result,
       last (load_calls new) = Some (Returned result) /\
       _load_results (self (fst r)) !! url = Some (old ++ [result]) /\
       _urls (self (fst r)) = _urls (self s) ++ [url] /\
       (is_success result = false ->
        length (load_calls new) = Z.to_nat (1 + retries_per_trial cfg))) /\
    (forall e, last (load_calls new) = Some (Raised e) ->
       snd r = Raise e /\
       _load_results (self (fst r)) = _load_results (self s) /\
       _urls (self (fst r)) = _urls (self s)) /\
    (retries_per_trial cfg < 0 -> new = [] /\ self (fst r) = self s) /\
    snd (trial bk cfg url i s) = Ret tt /\
    self (fst (trial bk cfg url i s)) = self (fst r).
Proof.
  intros r old. subst r old.
  assert (Hhandler : snd (trial bk cfg url i s) = Ret tt /\
                     self (fst (trial bk cfg url i s))
                       = self (fst (trial_body bk cfg url i s))).
  { pose proof (while_tries_spec url i (Z.to_nat (retries_per_trial cfg + 1)) 0 s)
      as Hnd.
    unfold trial, try_except, trial_body in *.
    destruct (while_tries bk cfg _ url i 0 s) as [s1 [[]|e|]]; cbn [fst snd];
      [split; reflexivity|split; reflexivity|].
    destruct (Hnd s1 Diverge) as [Hd _];
      [rewrite Z.sub_0_r; lia|reflexivity|congruence]. }
  revert Hhandler. unfold trial_body.
  destruct (while_tries bk cfg _ url i 0 s) as [s' o] eqn:H.
  intros Hhandler.
  pose proof (while_tries_raised _ _ _ _ _ _ _ H)
    as (new & Htr & Hnone & Hsome & Hraised).
  pose proof (traced_new bk cfg _ _ _ _ new (traced_while_tries bk cfg url i _ 0)
                H Htr) as Hcalls.
  apply while_tries_spec in H; [|rewrite Z.sub_0_r; lia].
  destruct H as (_ & new' & Htr' & _ & _ & Hlen & Hearly & Hrec & Hret).
  rewrite Htr in Htr'. apply app_inv_head in Htr'. subst new'.
  rewrite Z.sub_0_r, Z.add_comm in Hlen, Hret.
  exists new. cbn [fst snd].
  split; [exact Htr|]. split; [exact Hcalls|]. split; [exact Hlen|].
  split; [exact Hearly|].
  split; [intros Hr; apply Hsome; lia|].
  split.
  { destruct Hrec as [(Hu & Hl & _)|(_ & result & Hsame)].
    - exists []. rewrite Hu, Hl, !app_nil_r. auto.
    - exists [result]. apply record_results in Hsame.
      destruct Hsame as [-> ->]. auto. }
  split.
  { intros Ho Hr. destruct (Hret Ho Hr) as (result & Hlast & Hsame & Hcount).
    exists result. apply record_results in Hsame. destruct Hsame as [Hl Hu].
    auto. }
  split.
  { intros e He. destruct (Hraised e He) as (-> & Hu & Hl & _). auto. }
  split; [intros Hneg; apply Hnone; lia|].
  exact Hhandler.
Qed.

(** *** Restarts *)

(** C6 (as amended). With [restart_on_fail] set, an attempt that comes
    back with [FAILURE_UNKNOWN] is followed at once by one call of
    [_teardown] and, if that returns, by one call of [_setup]. The
    restart counter goes up by one when both calls return, whatever
    [_setup] returns; when one of them raises, the exception ends the
    attempt loop and the counter stays as it was. An attempt that comes
    back with [FAILURE_TIMEOUT] is followed by no call of either hook
    and leaves the counter as it was. *)
Theorem restart_on_unknown_failure url i t (s : state W) w1 result :
  restart_on_fail cfg = true ->
  _load_page bk url (outdir cfg) i (world s) = (w1, Returned result) ->
  let r := try_once bk cfg url i t s in
  let attempt :=
    [EvLoadPage url (outdir cfg) i (Returned result);
     EvLog (DebugTry i t result)] in
  (LoadResult.status result = LoadResult.FAILURE_UNKNOWN ->
   match _teardown bk w1 with
   | (w2, Raised e) =>
       trace (fst r) = trace s ++ attempt ++ [EvTeardown (Raised e)] /\
       _num_restarts (self (fst r)) = _num_restarts (self s) /\
       world (fst r) = w2 /\
       snd r = Raise e
   | (w2, Returned u) =>
       match _setup bk w2 with
       | (w3, Raised e) =>
           trace (fst r)
             = trace s ++ attempt
               ++ [EvTeardown (Returned u); EvSetup (Raised e)] /\
           _num_restarts (self (fst r)) = _num_restarts (self s) /\
           world (fst r) = w3 /\
           snd r = Raise e
       | (w3, Returned b) =>
           trace (fst r)
             = trace s ++ attempt
               ++ [EvTeardown (Returned u); EvSetup (Returned b)] /\
           _num_restarts (self (fst r)) = S (_num_restarts (self s)) /\
           world (fst r) = w3 /\
           snd r = Ret false
       end
   end) /\
  (LoadResult.status result = LoadResult.FAILURE_TIMEOUT ->
   trace (fst r) = trace s ++ attempt /\
   _num_restarts (self (fst r)) = _num_restarts (self s) /\
   world (fst r) = w1 /\
   snd r = Ret false).
Proof.
  intros Hrestart Hload r attempt. subst r attempt.
  unfold try_once, call_load_page, call_teardown, call_setup, call, log, emit,
    modify, bind, ret, of_answer.
  rewrite Hload, Hrestart. split.
  - intros Hst. rewrite Hst. simpl.
    destruct (t >? retries_per_trial cfg); simpl;
      destruct (_teardown bk w1) as [w2 [u|e]]; simpl;
      try (destruct (_setup bk w2) as [w3 [b|e]]; simpl);
      rewrite <- !app_assoc; auto.
  - intros Hst. rewrite Hst. simpl.
    destruct (t >? retries_per_trial cfg); simpl; rewrite <- !app_assoc; auto.
Qed.

(** *** URLs that are not accessible *)


(** *** A URL that occurs again *)

Lemma recorded_app n1 n2 :
  recorded cfg (n1 ++ n2) = recorded cfg n1 ++ recorded cfg n2.
Proof.
  induction n1 as [|e n1 IH]; simpl; [reflexivity|].
  destruct (recorded_by cfg e); simpl; now rewrite IH.
Qed.

Lemma stores_quiet url new l :
  recorded cfg new = [] -> stores cfg url new l l.
Proof.
  intros H. unfold stores. rewrite H, app_nil_r. split; [reflexivity|].
  intros r [].
Qed.

Lemma stores_app url n1 n2 l1 l2 l3 :
  stores cfg url n1 l1 l2 -> stores cfg url n2 l2 l3 ->
  stores cfg url (n1 ++ n2) l1 l3.
Proof.
  intros [H1 I1] [H2 I2]. unfold stores.
  rewrite recorded_app, load_calls_app, H2, H1, <- app_assoc.
  split; [reflexivity|].
  intros r Hr. apply in_app_iff in Hr. apply in_app_iff.
  destruct Hr; [left|right]; auto.
Qed.

Lemma stores_same url new l1 l2 l2' :
  stores cfg url new l1 l2 -> _load_results l2' = _load_results l2 ->
  stores cfg url new l1 l2'.
Proof. intros [H I] E. unfold stores. now rewrite E. Qed.

Lemma try_once_stores url i t (s s' : state W) o :
  try_once bk cfg url i t s = (s', o) ->
  exists new,
    trace s' = trace s ++ new /\ stores cfg url new (self s) (self s').
Proof.
  intros H. unfold try_once, call_load_page, call_teardown, call_setup, call,
    log, emit, modify, bind, ret, of_answer in H.
  crunch H.
  all: finish H.
  all: eexists; (split; [rewrite <- ?app_assoc; reflexivity|]).
  all: unfold stores; simpl; unfold is_success;
    repeat match goal with
           | H : _ = true |- _ => rewrite H
           | H : _ = false |- _ => rewrite H
           end; simpl;
    rewrite ?lookup_insert_eq, ?app_nil_r; simpl.
  all: split; [reflexivity|]; intros r' Hr'; simpl in Hr';
    intuition congruence.
Qed.

Lemma while_tries_stores url i fuel : forall t (s s' : state W) o,
  while_tries bk cfg fuel url i t s = (s', o) ->
  exists new,
    trace s' = trace s ++ new /\ stores cfg url new (self s) (self s').
Proof.
  assert (Hstop : forall (s s' : state W) (o o' : outcome unit),
            (s, o) = (s', o') ->
            exists new,
              trace s' = trace s ++ new /\ stores cfg url new (self s) (self s')).
  { intros s s' o o' H. finish H. exists []. rewrite app_nil_r.
    split; [reflexivity|]. now apply stores_quiet. }
  induction fuel as [|fuel IH]; intros t s s' o H; simpl in H;
    destruct (t <=? retries_per_trial cfg); unfold diverge, ret in H; eauto.
  unfold bind in H.
  destruct (try_once bk cfg url i (t + 1) s) as [s1 o1] eqn:Honce.
  apply try_once_stores in Honce. destruct Honce as (n1 & Ht1 & H1).
  destruct o1 as [[|]|e|]; unfold ret in H;
    [finish H; eauto| |finish H; eauto|finish H; eauto].
  apply IH in H. destruct H as (n2 & Ht2 & H2).
  exists (n1 ++ n2). rewrite Ht2, Ht1, <- app_assoc.
  eauto using stores_app.
Qed.

Lemma trial_stores url i (s s' : state W) o :
  trial bk cfg url i s = (s', o) ->
  exists new,
    trace s' = trace s ++ new /\ stores cfg url new (self s) (self s').
Proof.
  unfold trial, try_except, trial_body. intros H.
  destruct (while_tries bk cfg _ url i 0 s) as [s1 o1] eqn:Hloop.
  apply while_tries_stores in Hloop. destruct Hloop as (n1 & Ht1 & H1).
  destruct o1 as [[]|e|]; [finish H; eauto| |finish H; eauto].
  unfold log, emit in H. finish H.
  exists (n1 ++ [EvLog (ErrorLoadingPage url e)]).
  rewrite Ht1, <- app_assoc. split; [reflexivity|].
  eapply stores_app; [exact H1|]. now apply stores_quiet.
Qed.

Lemma trials_stores url l : forall (s s' : state W) o,
  for_each l (trial bk cfg url) s = (s', o) ->
  exists new,
    trace s' = trace s ++ new /\ stores cfg url new (self s) (self s').
Proof.
  induction l as [|i l IH]; intros s s' o H; simpl in H.
  - unfold ret in H. finish H. exists []. rewrite app_nil_r.
    split; [reflexivity|]. now apply stores_quiet.
  - unfold bind in H.
    destruct (trial bk cfg url i s) as [s1 o1] eqn:Htrial.
    apply trial_stores in Htrial. destruct Htrial as (n1 & Ht1 & H1).
    destruct o1 as [[]|e|]; [|finish H; eauto|finish H; eauto].
    apply IH in H. destruct H as (n2 & Ht2 & H2).
    exists (n1 ++ n2). rewrite Ht2, Ht1, <- app_assoc.
    eauto using stores_app.
Qed.

(** A trial that may attempt begins with a call of [_load_page] for its
    own index. *)
Lemma trial_calls url i (s s' : state W) o :
  0 <= retries_per_trial cfg ->
  trial bk cfg url i s = (s', o) ->
  exists a rest,
    trace s' = trace s ++ EvLoadPage url (outdir cfg) i a :: rest.
Proof.
  intros Hr. unfold trial, try_except, trial_body.
  destruct (Z.to_nat (retries_per_trial cfg + 1)) as [|fuel] eqn:Hfuel; [lia|].
  simpl. destruct (Z.leb_spec 0 (retries_per_trial cfg)); [|lia].
  unfold bind at 1.
  destruct (try_once bk cfg url i (0 + 1) s) as [s1 o1] eqn:Honce.
  apply try_once_spec in Honce.
  destruct Honce as (w1 & a & rest & _ & Htr & _).
  assert (Hmore : forall (s2 : state W),
            (exists more, trace s2 = trace s1 ++ more) ->
            exists a0 rest0,
              trace s2 = trace s ++ EvLoadPage url (outdir cfg) i a0 :: rest0).
  { intros s2 [more Hm]. exists a, (rest ++ more).
    rewrite Hm, Htr, <- app_assoc. reflexivity. }
  intros Hrun. apply Hmore.
  destruct o1 as [[|]|e|].
  - unfold ret in Hrun. finish Hrun. exists []. now rewrite app_nil_r.
  - destruct (while_tries bk cfg fuel url i (0 + 1) s1) as [s2 o2] eqn:Hloop.
    apply while_tries_stores in Hloop. destruct Hloop as (n2 & Ht2 & _).
    destruct o2 as [[]|e|]; [finish Hrun; eauto| |finish Hrun; eauto].
    unfold log, emit in Hrun. finish Hrun. rewrite Ht2, <- app_assoc. eauto.
  - unfold log, emit in Hrun. finish Hrun. eauto.
  - finish Hrun. exists []. now rewrite app_nil_r.
Qed.

Lemma trials_calls url l : forall (s s' : state W) o,
  0 <= retries_per_trial cfg ->
  for_each l (trial bk cfg url) s = (s', o) ->
  exists new,
    trace s' = trace s ++ new /\
    forall i, In i l -> exists a, In (EvLoadPage url (outdir cfg) i a) new.
Proof.
  induction l as [|i l IH]; intros s s' o Hr H; simpl in H.
  - unfold ret in H. finish H. exists []. rewrite app_nil_r.
    split; [reflexivity|]. intros i [].
  - unfold bind in H.
    destruct (trial bk cfg url i s) as [s1 o1] eqn:Htrial.
    pose proof (trial_spec _ _ _ _ _ Htrial) as [-> _].
    apply trial_calls in Htrial; [|assumption].
    destruct Htrial as (a & rest & Ht1).
    apply IH in H; [|assumption]. destruct H as (n2 & Ht2 & H2).
    exists ((EvLoadPage url (outdir cfg) i a :: rest) ++ n2).
    rewrite Ht2, Ht1, <- app_assoc. split; [reflexivity|].
    intros j [<-|Hj].
    + exists a. now left.
    + destruct (H2 j Hj) as [a' Ha']. exists a'.
      apply in_app_iff. now right.
Qed.

Lemma check_url_quiet u (s : state W) :
  exists logs,
    _check_url u s
      = ({| world := world s; self := self s; trace := trace s ++ logs |},
         Ret (normalized u))
    /\ recorded cfg logs = [].
Proof.
  unfold _check_url, normalized.
  destruct (negb (contains "://" u)).
  - exists [EvLog (WarnNoProtocol u)]. split; reflexivity.
  - exists []. rewrite app_nil_r. destruct s. split; reflexivity.
Qed.

Lemma probe_quiet url (s s' : state W) o :
  _check_protocol_available bk cfg url s = (s', o) ->
  self s' = self s /\
  exists new, trace s' = trace s ++ new /\ recorded cfg new = [].
Proof.
  intros H.
  unfold _check_protocol_available, scheme_of, try_except, call, log, emit,
    bind, ret, of_answer in H.
  crunch H.
  all: finish H.
  all: split; [reflexivity|].
  all: rewrite <- ?app_assoc; simpl.
  all: first [ exists []; rewrite app_nil_r; split; reflexivity
             | eexists; split; reflexivity ].
Qed.

(** The trials and the summary of a URL that is loaded. *)
Lemma load_url_stores u' (s s' : state W) o :
  (for_each (seq 0 (Z.to_nat (num_trials cfg))) (trial bk cfg u');;
   modify (touch_load_results u');;
   rs <- (fun s => (s, Ret (default [] (_load_results (self s) !! u'))));;
   modify (set_page_result u' (PageResult.init u' None (Some rs)))) s = (s', o) ->
  exists new,
    trace s' = trace s ++ new /\
    stores cfg u' new (self s) (self s') /\
    (0 <= retries_per_trial cfg ->
     forall i, (i < Z.to_nat (num_trials cfg))%nat ->
       exists a, In (EvLoadPage u' (outdir cfg) i a) new).
Proof.
  intros H. unfold bind at 1 in H.
  destruct (for_each _ (trial bk cfg u') s) as [s1 o1] eqn:Htrials.
  pose proof (trials_spec _ _ _ _ _ Htrials) as [-> _].
  pose proof (trials_stores _ _ _ _ _ Htrials) as (new & Htr & Hst).
  unfold bind, modify in H. simpl in H. finish H.
  exists new. split; [exact Htr|]. split.
  - destruct Hst as [Hl Hin]. split; [|exact Hin]. rewrite <- Hl.
    destruct (_load_results (self s1) !! u') eqn:Hk; simpl;
      rewrite ?Hk, ?lookup_insert_eq; reflexivity.
  - intros Hr i Hi.
    pose proof (trials_calls _ _ _ _ _ Hr Htrials) as (new' & Htr' & Hcalls).
    rewrite Htr in Htr'. apply app_inv_head in Htr'. subst new'.
    apply Hcalls. apply in_seq. lia.
Qed.

(** What the processing of a URL appends to the results of that URL are
    the results its attempts recorded; when the URL is loaded, every
    trial makes a call. *)
Lemma process_url_stores u (s s' : state W) o :
  process_url bk cfg u s = (s', o) ->
  let u' := normalized u in
  let probe := _check_protocol_available bk cfg u' (fst (_check_url u s)) in
  exists new,
    trace s' = trace s ++ new /\
    stores cfg u' new (self s) (self s') /\
    (check_protocol_availability cfg = false \/ snd probe = Ret true ->
     0 <= retries_per_trial cfg ->
     forall i, (i < Z.to_nat (num_trials cfg))%nat ->
       exists a, In (EvLoadPage u' (outdir cfg) i a) new).
Proof.
  intros H u' probe. subst probe.
  destruct (check_url_quiet u s) as (logs & Hcu & Hq0).
  unfold process_url in H. unfold bind at 1 in H.
  rewrite Hcu in *. cbn [fst]. fold u' in H |- *.
  set (s0 := {| world := world s; self := self s; trace := trace s ++ logs |}) in *.
  unfold bind at 1 in H.
  destruct (check_protocol_availability cfg) eqn:Hcheck.
  - unfold bind at 1 in H.
    destruct (_check_protocol_available bk cfg u' s0) as [s1 o1] eqn:Hprobe.
    apply probe_quiet in Hprobe. destruct Hprobe as (Hself & new1 & Htr1 & Hq1).
    destruct o1 as [[|]|e|]; cbn [ret negb snd] in H.
    + apply load_url_stores in H. destruct H as (new & Htr & Hst & Hcalls).
      exists (logs ++ new1 ++ new).
      rewrite Htr, Htr1. subst s0. cbn [trace]. rewrite <- !app_assoc.
      split; [reflexivity|]. split.
      * eapply stores_app; [now apply stores_quiet|].
        eapply stores_app; [now apply stores_quiet|].
        rewrite Hself in Hst. exact Hst.
      * intros _ Hr i Hi. destruct (Hcalls Hr i Hi) as [a Ha]. exists a.
        rewrite !in_app_iff. auto.
    + unfold bind, log, emit, modify in H. simpl in H. finish H.
      exists (logs ++ new1 ++ [EvLog (InfoNotAccessible u')]).
      rewrite Htr1. subst s0. cbn [trace self] in *.
      rewrite <- !app_assoc. split; [reflexivity|]. split.
      * eapply stores_same; [apply stores_quiet|now rewrite Hself].
        now rewrite !recorded_app, Hq0, Hq1.
      * intros [?|?]; discriminate.
    + finish H. exists (logs ++ new1). rewrite Htr1.
      subst s0. cbn [trace self] in *. rewrite <- app_assoc.
      split; [reflexivity|]. split.
      * eapply stores_same; [apply stores_quiet|now rewrite Hself].
        now rewrite !recorded_app, Hq0, Hq1.
      * intros [?|?]; discriminate.
    + finish H. exists (logs ++ new1). rewrite Htr1.
      subst s0. cbn [trace self] in *. rewrite <- app_assoc.
      split; [reflexivity|]. split.
      * eapply stores_same; [apply stores_quiet|now rewrite Hself].
        now rewrite !recorded_app, Hq0, Hq1.
      * intros [?|?]; discriminate.
  - cbn [ret] in H.
    apply load_url_stores in H. destruct H as (new & Htr & Hst & Hcalls).
    exists (logs ++ new).
    rewrite Htr. subst s0. cbn [trace self] in *. rewrite <- !app_assoc.
    split; [reflexivity|]. split.
    + eapply stores_app; [now apply stores_quiet|]. exact Hst.
    + intros _ Hr i Hi. destruct (Hcalls Hr i Hi) as [a Ha]. exists a.
      rewrite !in_app_iff. auto.
Qed.

(** C10 (as amended). The trial results are kept in [_load_results]
    under the normalised URL and stay there from one occurrence of a
    URL to the next. When an occurrence is loaded (the protocol check is
    disabled or passed), the results recorded by its attempts (each a
    value [_load_page] returned, at most [num_trials] of them, every
    trial calling [_load_page] at least once unless
    [retries_per_trial] is negative) are appended to the results [old]
    of the earlier occurrences, the summary is computed from all of
    them, so that its [times] are those of the timed successes of all
    occurrences, and it takes the place of the earlier summary in
    [_page_results]. When a later occurrence is found inaccessible, the
    stored results stay as they are but the summary that replaces the
    earlier one is that of an inaccessible URL, with no [times]: it is
    not computed from the results. *)
Theorem results_accumulate u (s : state W) :
  let r := process_url bk cfg u s in
  let u' := normalized u in
  let probe := _check_protocol_available bk cfg u' (fst (_check_url u s)) in
  let old := default [] (_load_results (self s) !! u') in
  snd r = Ret tt ->
  exists new,
    trace (fst r) = trace s ++ new /\
    calls_from bk cfg (world s) new (world (fst r)) /\
    (check_protocol_availability cfg = false \/ snd probe = Ret true ->
     let rs := recorded cfg new in
     (forall result, In result rs -> In (Returned result) (load_calls new)) /\
     (length rs <= Z.to_nat (num_trials cfg))%nat /\
     (0 <= retries_per_trial cfg ->
      forall i, (i < Z.to_nat (num_trials cfg))%nat ->
        exists a, In (EvLoadPage u' (outdir cfg) i a) new) /\
     _load_results (self (fst r)) !! u' = Some (old ++ rs) /\
     _page_results (self (fst r))
       = <[u' := PageResult.init u' None (Some (old ++ rs))]>
           (_page_results (self s)) /\
     PageResult.times (PageResult.init u' None (Some (old ++ rs)))
       = List.map LoadResult.time (List.filter is_timed_success old)
         ++ List.map LoadResult.time (List.filter is_timed_success rs)) /\
    (check_protocol_availability cfg = true /\ snd probe = Ret false ->
     recorded cfg new = [] /\
     load_calls new = [] /\
     _load_results (self (fst r)) = _load_results (self s) /\
     _page_results (self (fst r))
       = <[u' := PageResult.init u'
                   (Some PageResult.FAILURE_NOT_ACCESSIBLE) None]>
           (_page_results (self s)) /\
     PageResult.times
       (PageResult.init u' (Some PageResult.FAILURE_NOT_ACCESSIBLE) None) = []).
Proof.
  intros r u' probe old Hret. subst r probe old.
  destruct (process_url bk cfg u s) as [s' o] eqn:H. cbn [fst snd] in *.
  subst o.
  pose proof (process_url_stores _ _ _ _ H) as (new & Htr & [Hst Hin] & Hcalls).
  fold u' in Hst, Hcalls.
  pose proof (traced_new bk cfg _ _ _ _ new (traced_process_url bk cfg u) H Htr)
    as Hfrom.
  apply process_url_spec in H. fold u' in H.
  destruct H as (new' & Htr' & _ & H).
  rewrite Htr in Htr'. apply app_inv_head in Htr'. subst new'.
  exists new. split; [exact Htr|]. split; [exact Hfrom|]. split.
  - intros Hreach.
    destruct H as [(Hc & Hp & _)|(_ & rs & Hn & _ & Hpr & Hlr & _)];
      [destruct Hreach; congruence|].
    assert (Hrs : rs = recorded cfg new).
    { rewrite Hlr in Hst. simpl in Hst. now apply app_inv_head in Hst. }
    subst rs. cbv zeta.
    split; [exact Hin|]. split; [exact Hn|].
    split; [now apply Hcalls|]. split; [exact Hlr|]. split; [exact Hpr|].
    now rewrite init_times, List.filter_app, List.map_app.
  - intros [Hc Hp].
    destruct H as [(_ & _ & (Hlc & _) & Hself)|(Hreach & _)];
      [|destruct Hreach; congruence].
    rewrite Hself in *. cbn [set_page_result append_url _load_results
                              _page_results] in *.
    split.
    { apply app_inv_head with (l := default [] (_load_results (self s) !! u')).
      now rewrite app_nil_r, <- Hst. }
    split; [exact Hlc|]. split; [reflexivity|]. split; reflexivity.
Qed.

(** *** The length of [times] *)

(** C4 (as amended). For a URL that has no trial results on the loader
    yet, the summary left by its processing has as many [times] as
    there are recorded results with status [SUCCESS] and a time that
    [if result.time:] accepts; that is at most the number of
    successes, and at most [num_trials] (zero if that is negative). *)
Theorem times_count u (s : state W) :
  let r := process_url bk cfg u s in
  let u' := normalized u in
  snd r = Ret tt ->
  _load_results (self s) !! u' = None ->
  exists pr,
    _page_results (self (fst r)) !! u' = Some pr /\
    let rs := default [] (_load_results (self (fst r)) !! u') in
    length (PageResult.times pr) = count is_timed_success rs /\
    (count is_timed_success rs <= count is_success rs)%nat /\
    (length (PageResult.times pr) <= Z.to_nat (num_trials cfg))%nat.
Proof.
  intros r u' Hret Hnone. subst r.
  destruct (process_url bk cfg u s) as [s' o] eqn:H. cbn [fst snd] in *.
  subst o. apply process_url_spec in H. fold u' in H.
  assert (Hle : forall rs : list LoadResult.t,
             (count is_timed_success rs <= count is_success rs)%nat).
  { intros rs. unfold count, is_timed_success.
    induction rs as [|x rs IH]; simpl; [lia|].
    destruct (is_success x), (truthy (LoadResult.time x)); simpl; lia. }
  assert (Hlen : forall rs : list LoadResult.t,
             (count is_timed_success rs <= length rs)%nat).
  { intros rs. unfold count. apply List.filter_length_le. }
  destruct H as (new & Htr & _ & [(Hc & Hp & _ & Hself)
                                 |(_ & rs & Hn & _ & Hpr & Hlr & _)]).
  - eexists. rewrite Hself. simpl. rewrite lookup_insert_eq, Hnone.
    split; [reflexivity|]. simpl. unfold count. simpl. lia.
  - eexists. rewrite Hpr, lookup_insert_eq, Hlr, Hnone.
    split; [reflexivity|]. cbv zeta.
    rewrite init_times, length_map. cbn [default from_option id app].
    fold (count is_timed_success rs).
    split; [reflexivity|]. split; [apply Hle|].
    specialize (Hlen rs). lia.
Qed.

(** *** The run *)

(** What [load_pages] does after the loop over the URLs, or instead of
    it: the handler of line 461 and the [finally] of line 463. *)
Lemma load_pages_unfold urls (s : state W) :
  load_pages bk cfg urls s =
    let (s1, o1) := call_setup bk s in
    let (s2, o2) :=
      match o1 with
      | Ret true => for_each urls (process_url bk cfg) s1
      | Ret false => log ErrorSettingUp s1
      | Raise e => (s1, Raise e)
      | Diverge => (s1, Diverge)
      end in
    let (s3, o3) :=
      match o2 with
      | Raise e => log (ErrorLoadingPages e) s2
      | _ => (s2, o2)
      end in
    match o3 with
    | Diverge => (s3, Diverge)
    | _ =>
        let (s4, o4) := call_teardown bk s3 in
        (s4, match o4 with Ret _ => o3 | Raise e => Raise e | Diverge => Diverge end)
    end.
Proof.
  unfold load_pages, try_finally, try_except, bind.
  destruct (call_setup bk s) as [s1 [[|]|e|]]; cbn [negb]; try reflexivity.
  - destruct (for_each urls (process_url bk cfg) s1) as [s2 [[]|e|]];
      try reflexivity.
    + destruct (call_teardown bk s2) as [s4 [[]|e|]]; reflexivity.
    + destruct (log (ErrorLoadingPages e) s2) as [s3 [[]|e'|]]; try reflexivity.
      * destruct (call_teardown bk s3) as [s4 [[]|e''|]]; reflexivity.
      * destruct (call_teardown bk s3) as [s4 [[]|e''|]]; reflexivity.
  - destruct (log ErrorSettingUp s1) as [s2 [[]|e|]] eqn:Hlog; try reflexivity.
    + destruct (call_teardown bk s2) as [s4 [[]|e|]]; reflexivity.
    + unfold log, emit in Hlog. discriminate.
  - destruct (log (ErrorLoadingPages e) s1) as [s3 [[]|e'|]]; try reflexivity.
    + destruct (call_teardown bk s3) as [s4 [[]|e''|]]; reflexivity.
    + destruct (call_teardown bk s3) as [s4 [[]|e''|]]; reflexivity.
Qed.

(** The fuel given to the attempt loops is enough: a run ends. *)
Lemma load_pages_total urls (s : state W) :
  snd (load_pages bk cfg urls s) <> Diverge.
Proof.
  rewrite load_pages_unfold. unfold call_setup, call_teardown, call, log, emit.
  destruct (_setup bk (world s)) as [w1 [[|]|e]]; cbn [of_answer].
  - match goal with
    | |- context [for_each urls (process_url bk cfg) ?s1] =>
        destruct (for_each urls (process_url bk cfg) s1) as [s2 o2] eqn:Hloop
    end.
    apply urls_spec in Hloop. destruct Hloop as (Hnd & _).
    destruct o2 as [[]|e|]; [| |congruence]; cbn [world];
      match goal with
      | |- context [_teardown bk ?w] => destruct (_teardown bk w) as [w4 [[]|e']]
      end; discriminate.
  - cbn [world]. destruct (_teardown bk w1) as [w4 [[]|e']]; discriminate.
  - cbn [world]. destruct (_teardown bk w1) as [w4 [[]|e']]; discriminate.
Qed.

(** The shape of a run: set-up, what lies in between, tear-down. *)
Lemma load_pages_shape urls (s : state W) :
  let r := load_pages bk cfg urls s in
  exists a mid t,
    trace (fst r) = trace s ++ EvSetup a :: mid ++ [EvTeardown t] /\
    count is_teardown mid = count (triggers_restart cfg) mid /\
    snd r = of_answer t /\
    (a = Returned false ->
     mid = [EvLog ErrorSettingUp] /\ self (fst r) = self s).
Proof.
  intros r. subst r. rewrite load_pages_unfold.
  unfold call_setup, call_teardown, call, log, emit.
  destruct (_setup bk (world s)) as [w1 [[|]|e]]; cbn [of_answer].
  - (* set-up succeeded *)
    match goal with
    | |- context [for_each urls (process_url bk cfg) ?s1] =>
        destruct (for_each urls (process_url bk cfg) s1) as [s2 o2] eqn:Hloop
    end.
    apply urls_spec in Hloop.
    destruct Hloop as (Hnd & (new & Htr & Hbal) & _). cbn [trace] in Htr.
    destruct o2 as [[]|e|]; [| |congruence]; cbn [world self trace].
    + destruct (_teardown bk (world s2)) as [w4 [[]|e]]; cbn [fst snd of_answer];
        eexists _, new, _; rewrite Htr, <- !app_assoc;
        (split; [reflexivity|]); (split; [assumption|]);
        (split; [reflexivity|]); discriminate.
    + destruct (_teardown bk (world s2)) as [w4 [[]|e']]; cbn [fst snd of_answer];
        eexists _, (new ++ [EvLog (ErrorLoadingPages e)]), _;
        rewrite Htr, <- !app_assoc, !count_app, Hbal;
        (split; [reflexivity|]); (split; [reflexivity|]);
        (split; [reflexivity|]); discriminate.
  - (* set-up returned False *)
    cbn [world self trace].
    destruct (_teardown bk w1) as [w4 [[]|e]]; cbn [fst snd of_answer];
      eexists _, [EvLog ErrorSettingUp], _; rewrite <- !app_assoc;
      (split; [reflexivity|]); (split; [reflexivity|]);
      (split; [reflexivity|]); auto.
  - (* set-up raised *)
    cbn [world self trace].
    destruct (_teardown bk w1) as [w4 [[]|e']]; cbn [fst snd of_answer];
      eexists _, [EvLog (ErrorLoadingPages e)], _; rewrite <- !app_assoc;
      (split; [reflexivity|]); (split; [reflexivity|]);
      (split; [reflexivity|]); discriminate.
Qed.

Lemma no_restart_no_trigger evs :
  restart_on_fail cfg = false -> count (triggers_restart cfg) evs = 0%nat.
Proof.
  intros H. unfold count.
  induction evs as [|e evs IH]; [reflexivity|].
  destruct e as [| |? ? ? [r|]| |]; simpl; try exact IH.
  now rewrite H, andb_false_r.
Qed.

(** C7 (as amended). Every run of [load_pages] begins with a call of
    [_setup] and ends with a call of [_teardown], made by the [finally]
    clause after everything else and whatever happened before (set-up
    refused, set-up raised, an error reached the handler of the run, or
    the loop came to its end): the trace is that of the calls made to
    the backend, and the last of them is the [_teardown] that leaves
    the final world. This last call is the only [_teardown] of the run
    when [restart_on_fail] is off; otherwise each page load that
    triggers a restart adds one, so that the run calls [_teardown] once
    more than there were such page loads. If [_setup] returned [False],
    nothing but the error message lies between the two calls and the
    loader is as it was: no URL is processed and no summary recorded.
    The run returns unless this last [_teardown] raises. *)
Theorem teardown_on_every_exit urls (s : state W) :
  let r := load_pages bk cfg urls s in
  exists a mid t w_mid,
    trace (fst r) = trace s ++ EvSetup a :: mid ++ [EvTeardown t] /\
    calls_from bk cfg (world s) (EvSetup a :: mid) w_mid /\
    _teardown bk w_mid = (world (fst r), t) /\
    count is_teardown (EvSetup a :: mid ++ [EvTeardown t])
      = S (count (triggers_restart cfg) mid) /\
    (restart_on_fail cfg = false ->
     count is_teardown (EvSetup a :: mid ++ [EvTeardown t]) = 1%nat) /\
    snd r = of_answer t /\
    (a = Returned false ->
     mid = [EvLog ErrorSettingUp] /\ self (fst r) = self s).
Proof.
  intros r. destruct (load_pages_shape urls s) as (a & mid & t & Htr & Hbal & Ho & Hf).
  fold r in Htr, Ho, Hf.
  assert (Hfrom : calls_from bk cfg (world s)
                    ((EvSetup a :: mid) ++ [EvTeardown t]) (world (fst r))).
  { apply (traced_new bk cfg (load_pages bk cfg urls) s (fst r) (snd r));
      [apply traced_load_pages|subst r; now destruct (load_pages bk cfg urls s)|].
    exact Htr. }
  apply calls_from_split in Hfrom. destruct Hfrom as (w_mid & Hmid & Hlast).
  destruct Hlast as (w' & Hcall & ->).
  assert (Hcount : count is_teardown (EvSetup a :: mid ++ [EvTeardown t])
                   = S (count (triggers_restart cfg) mid)).
  { change (EvSetup a :: mid ++ [EvTeardown t])
      with ([EvSetup a] ++ mid ++ [EvTeardown t]).
    rewrite !count_app, Hbal. unfold count at 1 3. simpl. lia. }
  exists a, mid, t, w_mid.
  split; [exact Htr|]. split; [exact Hmid|]. split; [exact Hcall|].
  split; [exact Hcount|]. split; [|split; assumption].
  intros Hno. now rewrite Hcount, (no_restart_no_trigger mid Hno).
Qed.

(** C1 (as amended). An exception raised within a trial, by the page
    load or by the hooks of a restart, is caught by the handler of the
    trial: a trial always ends normally, so the trials and URLs after
    it are processed. When set-up has succeeded and the loop over the
    URLs has come to its end, the loader holds, for every URL
    submitted, a summary under the normalised URL. (An error raised
    outside the trials ends the loop: see [summary_lost_after_error].) *)
Theorem one_summary_per_url urls (s : state W) :
  (forall url i (s0 : state W), snd (trial bk cfg url i s0) = Ret tt) /\
  (snd (call_setup bk s) = Ret true ->
   snd (for_each urls (process_url bk cfg) (fst (call_setup bk s))) = Ret tt ->
   forall u, In u urls ->
     has_summary (self (fst (load_pages bk cfg urls s))) (normalized u)).
Proof.
  split.
  - intros url i s0. destruct (trial bk cfg url i s0) as [s' o] eqn:H.
    apply trial_spec in H. now destruct H as [-> _].
  - rewrite load_pages_unfold.
    destruct (call_setup bk s) as [s1 o1]. cbn [fst snd]. intros -> Hloop u Hin.
    destruct (for_each urls (process_url bk cfg) s1) as [s2 o2] eqn:Hrun.
    cbn [snd] in Hloop. subst o2.
    apply urls_spec in Hrun. destruct Hrun as (_ & _ & _ & Hall).
    specialize (Hall eq_refl u Hin).
    unfold call_teardown, call.
    destruct (_teardown bk (world s2)) as [w4 a]. exact Hall.
Qed.


End Orchestrator.

(** * The status of a summary *)

Lemma Exists_equiv {A} (P Q : A -> Prop) l :
  (forall x, P x <-> Q x) -> Exists P l <-> Exists Q l.
Proof.
  intros H. rewrite !List.Exists_exists.
  split; intros (x & Hin & Hx); exists x; split; auto; now apply H.
Qed.

(** C3 (as amended). A summary built from a list of trial results that
    is not empty is [FAILURE_UNKNOWN] when no result is a success,
    [SUCCESS] when every result is, and [PARTIAL_SUCCESS] when there is
    a success and a failure; built from the empty list it is
    [FAILURE_UNSET]. So it is [SUCCESS] exactly when the list is not
    empty and every result in it is a success. *)
Theorem page_status_rule url (rs : list LoadResult.t) :
  let st := PageResult.status (PageResult.init url None (Some rs)) in
  (rs = [] -> st = PageResult.FAILURE_UNSET) /\
  (rs <> [] ->
   (Forall (fun r => LoadResult.status r <> LoadResult.SUCCESS) rs ->
    st = PageResult.FAILURE_UNKNOWN) /\
   (Forall (fun r => LoadResult.status r = LoadResult.SUCCESS) rs ->
    st = PageResult.SUCCESS) /\
   (Exists (fun r => LoadResult.status r = LoadResult.SUCCESS) rs ->
    Exists (fun r => LoadResult.status r <> LoadResult.SUCCESS) rs ->
    st = PageResult.PARTIAL_SUCCESS)) /\
  (st = PageResult.SUCCESS <->
   rs <> [] /\ Forall (fun r => LoadResult.status r = LoadResult.SUCCESS) rs).
Proof.
  intros st. subst st. rewrite init_status.
  assert (Hall : existsb (fun r => negb (is_success r)) rs = false <->
                 Forall (fun r => LoadResult.status r = LoadResult.SUCCESS) rs).
  { rewrite existsb_false_Forall. apply Forall_iff. intros r.
    rewrite negb_false_iff. apply is_success_true. }
  assert (Hnone : existsb is_success rs = false <->
                  Forall (fun r => LoadResult.status r <> LoadResult.SUCCESS) rs).
  { rewrite existsb_false_Forall. apply Forall_iff. intros r.
    apply is_success_false. }
  assert (Hsome : existsb is_success rs = true <->
                  Exists (fun r => LoadResult.status r = LoadResult.SUCCESS) rs).
  { rewrite existsb_true_Exists. apply Exists_equiv. intros r.
    apply is_success_true. }
  assert (Hfail : existsb (fun r => negb (is_success r)) rs = true <->
                  Exists (fun r => LoadResult.status r <> LoadResult.SUCCESS) rs).
  { rewrite existsb_true_Exists. apply Exists_equiv. intros r.
    rewrite negb_true_iff. apply is_success_false. }
  destruct rs as [|r0 rs0].
  { split; [reflexivity|]. split; [congruence|].
    split; [discriminate|]. intros [H _]. congruence. }
  set (rs := r0 :: rs0) in *.
  destruct (existsb (fun r => negb (is_success r)) rs) eqn:Hf,
           (existsb is_success rs) eqn:Hs; cbn [andb].
  - split; [discriminate|]. split.
    + intros _. split; [|split]; auto.
      * intros H. apply Hnone in H. discriminate.
      * intros H. apply Hall in H. discriminate.
    + split; [discriminate|]. intros [_ H]. apply Hall in H. discriminate.
  - split; [discriminate|]. split.
    + intros _. split; [|split]; auto.
      * intros H. apply Hall in H. discriminate.
      * intros H. apply Hsome in H. discriminate.
    + split; [discriminate|]. intros [_ H]. apply Hall in H. discriminate.
  - split; [discriminate|]. split.
    + intros _. split; [|split]; auto.
      * intros H. apply Hnone in H. discriminate.
      * intros _ H. apply Hfail in H. discriminate.
    + split; [|reflexivity]. intros _. split; [discriminate|]. now apply Hall.
  - (* neither a success nor a failure: the list would be empty *)
    subst rs. simpl in Hf, Hs. destruct (is_success r0); discriminate.
Qed.

(** * File names *)

Lemma sanitize_class_members :
  sanitize_class =
    ["/"; ";"; ","; ">"; "<"; "&"; "*"; ":"; "%"; "="; "+"; "@"; "!"; "#"; "^";
     "("; ")"; "|"; "?"; "^"]%char.
Proof. reflexivity. Qed.

(** Character by character: a member of the class becomes a dash, any
    other character stays. *)
Lemma sanitize_url_get url n :
  get n (_sanitize_url url)
    = option_map (fun c => if in_class sanitize_class c then "-"%char else c)
        (get n url).
Proof.
  unfold _sanitize_url. revert n.
  induction url as [|c url IH]; intros n; simpl; [reflexivity|].
  destruct n; simpl; [reflexivity|apply IH].
Qed.

(** Every documented character other than the backslash is replaced. *)
Lemma documented_replaced c :
  In c documented_class -> c <> "\"%char -> in_class sanitize_class c = true.
Proof.
  unfold documented_class. simpl.
  intros H Hne.
  repeat (destruct H as [<-|H]; [try reflexivity; congruence|]).
  contradiction.
Qed.

(** C9. The backslash is among the characters documented as replaced,
    but in the pattern it only escapes the semicolon that follows it and
    is not a member of the class: [_sanitize_url] replaces the colon and
    the slash of this URL and keeps its backslash. *)
Theorem sanitize_keeps_backslash :
  In "\"%char documented_class /\
  in_class sanitize_class "\"%char = false /\
  _sanitize_url "http://a/b\c" = "http---a-b\c".
Proof.
  split; [|split]; [|reflexivity|reflexivity].
  simpl. tauto.
Qed.

(** * Runs of the model *)

Import Scripted.

(** One trial, two retries; the page fails twice, then loads: three
    calls, and the success is the one result recorded. *)
Lemma trial_attempts_witness :
  let r := trial_body backend (config 1 2 false true) "http://a.example" 0
             (fresh [timed_out; timed_out; ok (PyNum 1.5)]) in
  length (load_calls (trace (fst r))) = 3%nat /\
  exists result,
    ok (PyNum 1.5) = Returned result /\
    _load_results (self (fst r)) !! "http://a.example" = Some [result].
Proof.
  cbv zeta. split; [reflexivity|].
  destruct (trial_attempts backend (config 1 2 false true) "http://a.example" 0
              (fresh [timed_out; timed_out; ok (PyNum 1.5)]))
    as (new & Htr & _ & _ & _ & _ & _ & Hrec & _).
  destruct Hrec as (result & Hlast & Hlr & _);
    [vm_compute; reflexivity | simpl; lia |].
  exists result. split; [|exact Hlr].
  vm_compute in Htr. subst new. vm_compute in Hlast.
  now injection Hlast as <-.
Defined.

(** An unknown failure with [restart_on_fail]: one restart is counted. *)
Lemma restart_on_unknown_failure_witness :
  let r := try_once backend (config 1 1 true true) "http://a.example" 0 1
             (fresh [unknown]) in
  _num_restarts (self (fst r)) = 1%nat /\
  count is_teardown (trace (fst r)) = 1%nat /\
  count is_setup (trace (fst r)) = 1%nat.
Proof.
  cbv zeta.
  pose proof (restart_on_unknown_failure backend (config 1 1 true true)
                "http://a.example" 0%nat 1 (fresh [unknown])
                (world (fresh []))
                (LoadResult.mk LoadResult.FAILURE_UNKNOWN "http://a.example"
                   None PyNone PyNone None None None false)
                eq_refl eq_refl) as [H _].
  specialize (H eq_refl). hnf in H. destruct H as (Htr & Hn & _).
  split; [exact Hn|]. rewrite Htr. split; reflexivity.
Defined.


(** A second occurrence of a URL: its result joins the first one, and
    the summary has the times of both. *)
Lemma results_accumulate_witness :
  let r := process_url backend (config 1 0 false false) "http://a.example"
             seen_once in
  List.map LoadResult.time <$> _load_results (self (fst r)) !! "http://a.example"
    = Some [PyNum 1.5; PyNum 2] /\
  PageResult.times <$> _page_results (self (fst r)) !! "http://a.example"
    = Some [PyNum 1.5; PyNum 2].
Proof.
  cbv zeta.
  destruct (results_accumulate backend (config 1 0 false false) "http://a.example"
              seen_once eq_refl) as (new & Htr & _ & Hload & _).
  destruct (Hload (or_introl eq_refl)) as (_ & _ & _ & Hlr & Hpr & _).
  change (normalized "http://a.example") with "http://a.example" in Hlr, Hpr.
  rewrite Hlr, Hpr, lookup_insert_eq.
  vm_compute in Htr. injection Htr as <-.
  split; reflexivity.
Defined.

(** The same URL twice, one trial each: the second summary is computed
    from both results and has two times. *)
Example url_twice_two_times :
  PageResult.times <$>
    _page_results
      (self (fst (load_pages backend (config 1 0 false false)
                    ["http://a.example"; "http://a.example"]
                    (fresh [ok (PyNum 1.5); ok (PyNum 2)]))))
      !! "http://a.example"
  = Some [PyNum 1.5; PyNum 2].
Proof. vm_compute. reflexivity. Qed.

(** A first occurrence with two trials, one of them without a time. *)
Lemma times_count_witness :
  exists pr,
    _page_results
      (self (fst (process_url backend (config 2 0 false false) "http://a.example"
                    (fresh [ok (PyNum 1.5); ok PyNone]))))
      !! "http://a.example" = Some pr /\
    (length (PageResult.times pr) <= 2)%nat.
Proof.
  destruct (times_count backend (config 2 0 false false) "http://a.example"
              (fresh [ok (PyNum 1.5); ok PyNone]) eq_refl eq_refl)
    as (pr & Hpr & _ & _ & Hle).
  exists pr. split; [exact Hpr|exact Hle].
Defined.

(** Two URLs, the second without a scheme; both are summarised. *)
Lemma one_summary_per_url_witness :
  has_summary
    (self (fst (load_pages backend (config 1 0 false true)
                  ["http://a.example"; "b.example"]
                  (fresh [ok (PyNum 1.5); timed_out]))))
    "http://b.example".
Proof.
  destruct (one_summary_per_url backend (config 1 0 false true)
              ["http://a.example"; "b.example"]
              (fresh [ok (PyNum 1.5); timed_out])) as [_ H].
  apply (H eq_refl eq_refl "b.example"). simpl. tauto.
Defined.

(** Set-up returns [False]: one call of [_teardown], and the loader
    stays as constructed. *)
Lemma teardown_on_every_exit_witness :
  let r := load_pages backend (config 1 0 false true) ["http://a.example"]
             no_setup in
  count is_teardown (trace (fst r)) = 1%nat /\
  self (fst r) = new_loader.
Proof.
  cbv zeta.
  destruct (teardown_on_every_exit backend (config 1 0 false true)
              ["http://a.example"] no_setup)
    as (a & mid & t & w & Htr & _ & _ & _ & Hone & _ & H).
  split.
  - rewrite Htr. exact (Hone eq_refl).
  - vm_compute in Htr. injection Htr as Ha _. apply H. congruence.
Defined.

(** One success and one timeout: a partial success. *)
Lemma page_status_rule_witness :
  PageResult.status
    (PageResult.init "http://a.example" None
       (Some [LoadResult.make LoadResult.SUCCESS "http://a.example";
              LoadResult.make LoadResult.FAILURE_TIMEOUT "http://a.example"]))
  = PageResult.PARTIAL_SUCCESS.
Proof.
  destruct (page_status_rule "http://a.example"
              [LoadResult.make LoadResult.SUCCESS "http://a.example";
               LoadResult.make LoadResult.FAILURE_TIMEOUT "http://a.example"])
    as (_ & H & _).
  destruct H as (_ & _ & H); [discriminate|].
  apply H.
  - apply Exists_cons_hd. reflexivity.
  - apply Exists_cons_tl, Exists_cons_hd. discriminate.
Defined.

(** * Where the documented behaviour and the code part *)

(** C1. With the protocol check enabled, [urlparse] rejects the first
    URL; the error reaches the handler of the run, which ends the loop:
    the second URL is never looked at and no summary exists for either. *)
Lemma summary_lost_after_error :
  let r := load_pages backend (config 1 0 false true)
             ["http://[::1"; "http://b.example"] (fresh [ok (PyNum 1.5)]) in
  snd r = Ret tt /\
  trace (fst r)
    = [EvSetup (Returned true);
       EvLog (ErrorLoadingPages (OtherError "ValueError" "Invalid IPv6 URL"));
       EvTeardown (Returned tt)] /\
  _page_results (self (fst r)) !! "http://b.example" = None /\
  ~ (forall u, In u ["http://[::1"; "http://b.example"] ->
       has_summary (self (fst r)) (normalized u)).
Proof.
  cbv zeta. split; [reflexivity|]. split; [reflexivity|]. split; [reflexivity|].
  intros H. destruct (H "http://b.example") as (pr & Hpr & _); [simpl; tauto|].
  vm_compute in Hpr. discriminate.
Qed.


(** C3. Every result of the empty list is a success, and every result a
    failure, yet the summary is neither [SUCCESS] nor [FAILURE_UNKNOWN];
    a URL whose only trial raised gets such a summary. *)
Lemma empty_results_unset :
  Forall (fun r => LoadResult.status r = LoadResult.SUCCESS) [] /\
  Forall (fun r => LoadResult.status r <> LoadResult.SUCCESS) [] /\
  PageResult.status (PageResult.init "http://a.example" None (Some []))
    = PageResult.FAILURE_UNSET /\
  PageResult.status <$>
    (_page_results
       (self (fst (load_pages backend (config 1 0 false false) ["http://a.example"]
                     (fresh [])))) !! "http://a.example")
    = Some PageResult.FAILURE_UNSET.
Proof.
  split; [constructor|]. split; [constructor|]. split; reflexivity.
Qed.

(** C4. The Chrome loader reports no time: after one successful trial
    the summary has no entry in [times]. And a URL given twice with one
    trial per URL ends with two. *)
Lemma times_differ_from_successes :
  (let r := load_pages (chrome false) (config 1 0 false false)
              ["http://a.example"] (fresh []) in
   (PageResult.status <$> _page_results (self (fst r)) !! "http://a.example")
     = Some PageResult.SUCCESS /\
   (PageResult.times <$> _page_results (self (fst r)) !! "http://a.example")
     = Some [] /\
   (count is_success <$> _load_results (self (fst r)) !! "http://a.example")
     = Some 1%nat) /\
  (let r := load_pages backend (config 1 0 false false)
              ["http://a.example"; "http://a.example"]
              (fresh [ok (PyNum 1.5); ok (PyNum 2)]) in
   (length <$> (PageResult.times <$>
                  _page_results (self (fst r)) !! "http://a.example"))
     = Some 2%nat /\
   num_trials (config 1 0 false false) = 1).
Proof.
  split; cbv zeta; repeat split; vm_compute; reflexivity.
Qed.

(** C5. A page load that raises, as that of the PhantomJS loader does
    when it is given the trial number: the trial ends after this one
    call, although two retries are allowed, and records no result. *)
Lemma trial_without_result :
  let r := trial scripted_phantomjs (config 1 2 false false) "http://a.example" 0
             (fresh []) in
  snd r = Ret tt /\
  length (load_calls (trace (fst r))) = 1%nat /\
  retries_per_trial (config 1 2 false false) = 2 /\
  _load_results (self (fst r)) !! "http://a.example" = None /\
  _urls (self (fst r)) = [].
Proof. cbv zeta. repeat split; reflexivity. Qed.

(** C6. An unknown failure with [restart_on_fail], and the [_teardown]
    of the restart raises: [_setup] is not called again and the restart
    counter stays at zero. *)
Lemma restart_not_counted :
  let r := load_pages backend (config 1 0 true false) ["http://a.example"]
             stuck in
  trace (fst r)
    = [EvSetup (Returned true);
       EvLoadPage "http://a.example" "." 0 unknown;
       EvLog (DebugTry 0 1
                (LoadResult.make LoadResult.FAILURE_UNKNOWN "http://a.example"));
       EvTeardown (Raised (OtherError "OSError" "No such process"));
       EvLog (ErrorLoadingPage "http://a.example"
                (OtherError "OSError" "No such process"));
       EvTeardown (Returned tt)] /\
  restart_on_fail (config 1 0 true false) = true /\
  _num_restarts (self (fst r)) = 0%nat.
Proof. cbv zeta. repeat split; reflexivity. Qed.

(** C7. A run with one restart: [_teardown] is called twice, once by
    the restart and once by the [finally] clause. *)
Lemma teardown_twice_with_restart :
  let r := load_pages backend (config 1 0 true false) ["http://a.example"]
             (fresh [unknown]) in
  trace (fst r)
    = [EvSetup (Returned true);
       EvLoadPage "http://a.example" "." 0 unknown;
       EvLog (DebugTry 0 1
                (LoadResult.make LoadResult.FAILURE_UNKNOWN "http://a.example"));
       EvTeardown (Returned tt);
       EvSetup (Returned true);
       EvTeardown (Returned tt)] /\
  count is_teardown (trace (fst r)) = 2%nat /\
  snd r = Ret tt.
Proof. cbv zeta. repeat split; reflexivity. Qed.

(** C10. The same URL twice with the protocol check enabled; the first
    occurrence is loaded, the second is found inaccessible. The result
    of the first occurrence is still stored, but the summary that
    replaced the first one is that of an inaccessible URL and has no
    times: it is not computed from the results. *)
Lemma later_occurrence_inaccessible :
  let r := load_pages backend (config 1 0 false true)
             ["http://a.example"; "http://a.example"] reachable_once in
  snd r = Ret tt /\
  List.map LoadResult.time <$> _load_results (self (fst r)) !! "http://a.example"
    = Some [PyNum 1.5] /\
  PageResult.status <$> _page_results (self (fst r)) !! "http://a.example"
    = Some PageResult.FAILURE_NOT_ACCESSIBLE /\
  PageResult.times <$> _page_results (self (fst r)) !! "http://a.example"
    = Some [].
Proof. cbv zeta. repeat split; reflexivity. Qed.

(** * Further properties of the orchestrator *)

(** ** From the attempt to the run *)

Section Effects.
Context {W : Type}.
Variable P : list event -> Loader -> Loader -> Prop.
Hypothesis P_nil : forall l, P [] l l.
Hypothesis P_app : forall n1 n2 l1 l2 l3,
  P n1 l1 l2 -> P n2 l2 l3 -> P (n1 ++ n2) l1 l3.

Lemma effect_pure {A} (o : state W -> outcome A) : effect P (fun s => (s, o s)).
Proof.
  intros s s' o' H. finish H. exists []. rewrite app_nil_r. auto.
Qed.

Lemma effect_ret {A} (a : A) : effect (W := W) P (ret a).
Proof. apply (effect_pure (fun _ => Ret a)). Qed.

Lemma effect_bind {A B} (m : M W A) (f : A -> M W B) :
  effect P m -> (forall a, effect P (f a)) -> effect P (bind m f).
Proof.
  intros Hm Hf s s' o H. unfold bind in H.
  destruct (m s) as [s1 o1] eqn:H1. apply Hm in H1.
  destruct H1 as (n1 & Ht1 & HP1).
  destruct o1 as [a|e|].
  - apply Hf in H. destruct H as (n2 & Ht2 & HP2).
    exists (n1 ++ n2). rewrite Ht2, Ht1, <- app_assoc. eauto.
  - finish H. eauto.
  - finish H. eauto.
Qed.

Lemma effect_try_except {A} (m : M W A) (h : exn -> M W A) :
  effect P m -> (forall e, effect P (h e)) -> effect P (try_except m h).
Proof.
  intros Hm Hh s s' o H. unfold try_except in H.
  destruct (m s) as [s1 o1] eqn:H1. apply Hm in H1.
  destruct H1 as (n1 & Ht1 & HP1).
  destruct o1 as [a|e|].
  - finish H. eauto.
  - apply Hh in H. destruct H as (n2 & Ht2 & HP2).
    exists (n1 ++ n2). rewrite Ht2, Ht1, <- app_assoc. eauto.
  - finish H. eauto.
Qed.

Lemma effect_emit (e : event) :
  (forall l, P [e] l l) -> effect (W := W) P (emit e).
Proof. intros He s s' o H. unfold emit in H. finish H. eauto. Qed.

Lemma effect_modify (f : Loader -> Loader) :
  (forall l, P [] l (f l)) -> effect (W := W) P (modify f).
Proof.
  intros Hf s s' o H. unfold modify in H. finish H.
  exists []. rewrite app_nil_r. auto.
Qed.

Lemma effect_call {A} (f : W -> W * answer A) (ev : answer A -> event) :
  (forall a l, P [ev a] l l) -> effect P (call f ev).
Proof.
  intros Hev s s' o H. unfold call in H.
  destruct (f (world s)) as [w a]. finish H. eauto.
Qed.

Lemma effect_for_each {A} (body : A -> M W unit) (l : list A) :
  (forall x, effect P (body x)) -> effect P (for_each l body).
Proof.
  intros Hbody. induction l as [|x l IH]; simpl.
  - apply effect_ret.
  - apply effect_bind; auto.
Qed.

Variable bk : Backend W.
Variable cfg : Config.

Hypothesis P_log : forall r l, P [EvLog r] l l.
Hypothesis P_request : forall url a l, P [EvRequest url a] l l.
Hypothesis P_try : forall url i t, effect P (try_once bk cfg url i t).
Hypothesis P_touch : forall u l, P [] l (touch_load_results u l).
Hypothesis P_skip : check_protocol_availability cfg = true -> forall u l,
  P [] l (set_page_result u
            (PageResult.init u (Some PageResult.FAILURE_NOT_ACCESSIBLE) None)
            (append_url u l)).
Hypothesis P_summary : forall u l,
  P [] l (set_page_result u
            (PageResult.init u None (Some (default [] (_load_results l !! u)))) l).

Lemma effect_while_tries url i fuel : forall t,
  effect P (while_tries bk cfg fuel url i t).
Proof.
  induction fuel as [|fuel IH]; intros t; simpl;
    destruct (t <=? retries_per_trial cfg); try apply effect_ret.
  - apply (effect_pure (fun _ => Diverge)).
  - apply effect_bind; [apply P_try|].
    intros [|]; [apply effect_ret|apply IH].
Qed.

Lemma effect_trial url i : effect P (trial bk cfg url i).
Proof.
  apply effect_try_except; [apply effect_while_tries|].
  intros e. apply effect_emit, P_log.
Qed.

Lemma effect_probe url : effect P (_check_protocol_available bk cfg url).
Proof.
  unfold _check_protocol_available.
  apply effect_bind; [apply (effect_pure (fun _ => of_answer _))|]. intros p.
  apply effect_bind; [apply effect_emit, P_log|]. intros _.
  apply effect_bind.
  - apply effect_try_except.
    + apply effect_bind; [apply effect_call, P_request|].
      intros a. apply effect_ret.
    + intros e. apply effect_bind; [apply effect_emit, P_log|].
      intros _. apply effect_ret.
  - intros [final|]; [|apply effect_ret].
    apply effect_bind; [apply (effect_pure (fun _ => of_answer _))|].
    intros q. apply effect_ret.
Qed.

Lemma effect_check_url u : effect (W := W) P (_check_url u).
Proof.
  unfold _check_url. destruct (negb (contains "://" u)); [|apply effect_ret].
  apply effect_bind; [apply effect_emit, P_log|]. intros _. apply effect_ret.
Qed.

Lemma effect_process_url u : effect P (process_url bk cfg u).
Proof.
  unfold process_url.
  apply effect_bind; [apply effect_check_url|]. intros url.
  destruct (check_protocol_availability cfg) eqn:Hcheck.
  - apply effect_bind.
    { apply effect_bind; [apply effect_probe|]. intros b. apply effect_ret. }
    intros [|].
    + intros s s' o H. unfold bind, log, emit, modify in H. simpl in H. finish H.
      exists ([EvLog (InfoNotAccessible url)] ++ []). split; [reflexivity|].
      eapply P_app; [apply P_log|]. now apply P_skip.
    + apply effect_bind; [apply effect_for_each; intros i; apply effect_trial|].
      intros _. apply effect_bind; [apply effect_modify, P_touch|]. intros _.
      intros s s' o H. unfold bind, modify in H. simpl in H. finish H.
      exists []. rewrite app_nil_r. split; [reflexivity|]. apply P_summary.
  - assert (Hload : effect P
      (bind (for_each (seq 0 (Z.to_nat (num_trials cfg))) (trial bk cfg url))
         (fun _ => bind (modify (touch_load_results url))
            (fun _ => bind (fun s => (s, Ret (default [] (_load_results (self s) !! url))))
               (fun rs => modify (set_page_result url
                                    (PageResult.init url None (Some rs)))))))).
    { apply effect_bind; [apply effect_for_each; intros i; apply effect_trial|].
      intros _. apply effect_bind; [apply effect_modify, P_touch|]. intros _.
      intros s s' o H. unfold bind, modify in H. simpl in H. finish H.
      exists []. rewrite app_nil_r. split; [reflexivity|]. apply P_summary. }
    intros s s' o H. exact (Hload s s' o H).
Qed.

Lemma effect_urls urls : effect P (for_each urls (process_url bk cfg)).
Proof. apply effect_for_each. intros u. apply effect_process_url. Qed.

(** The run: whatever [P] says of the attempts, of the summaries and
    of the messages, it says of what lies between the first [_setup]
    and the last [_teardown] of a run. *)
Lemma load_pages_effect urls (s : state W) :
  let r := load_pages bk cfg urls s in
  exists a mid t,
    trace (fst r) = trace s ++ EvSetup a :: mid ++ [EvTeardown t] /\
    P mid (self s) (self (fst r)).
Proof.
  intros r. subst r. rewrite load_pages_unfold.
  unfold call_setup, call_teardown, call, log, emit.
  destruct (_setup bk (world s)) as [w1 [[|]|e]]; cbn [of_answer].
  - match goal with
    | |- context [for_each urls (process_url bk cfg) ?s1] =>
        destruct (for_each urls (process_url bk cfg) s1) as [s2 o2] eqn:Hloop
    end.
    pose proof (urls_spec bk cfg _ _ _ _ Hloop) as (Hnd & _).
    apply effect_urls in Hloop. destruct Hloop as (new & Htr & HP).
    cbn [trace self] in Htr, HP.
    destruct o2 as [[]|e|]; [| |congruence]; cbn [world self trace].
    + destruct (_teardown bk (world s2)) as [w4 t]. cbn [fst self trace].
      exists (Returned true), new, t. rewrite Htr, <- !app_assoc. auto.
    + destruct (_teardown bk (world s2)) as [w4 t]. cbn [fst self trace].
      exists (Returned true), (new ++ [EvLog (ErrorLoadingPages e)]), t.
      rewrite Htr, <- !app_assoc. split; [reflexivity|].
      eapply P_app; [exact HP|apply P_log].
  - cbn [world self trace]. destruct (_teardown bk w1) as [w4 t].
    cbn [fst self trace].
    exists (Returned false), [EvLog ErrorSettingUp], t.
    rewrite <- !app_assoc. split; [reflexivity|apply P_log].
  - cbn [world self trace]. destruct (_teardown bk w1) as [w4 t].
    cbn [fst self trace].
    exists (Raised e), [EvLog (ErrorLoadingPages e)], t.
    rewrite <- !app_assoc. split; [reflexivity|apply P_log].
Qed.

End Effects.

(** ** The loader only grows *)

Lemma grew_refl l : grew l l.
Proof.
  split; [exists []; now rewrite app_nil_r|].
  split; [intros k; exists []; now rewrite app_nil_r|]. split; auto.
Qed.

Lemma grew_trans l1 l2 l3 : grew l1 l2 -> grew l2 l3 -> grew l1 l3.
Proof.
  intros ([m1 H1] & Hr1 & Hp1 & Hn1) ([m2 H2] & Hr2 & Hp2 & Hn2).
  split; [exists (m1 ++ m2); now rewrite H2, H1, app_assoc|].
  split.
  - intros k. destruct (Hr1 k) as [a Ha], (Hr2 k) as [b Hb].
    exists (a ++ b). now rewrite Hb, Ha, app_assoc.
  - split; [auto|lia].
Qed.

Lemma grew_append_url u l : grew l (append_url u l).
Proof.
  split; [now exists [u]|].
  split; [intros k; exists []; now rewrite app_nil_r|]. split; auto.
Qed.

Lemma grew_append_load_result u r l : grew l (append_load_result u r l).
Proof.
  split; [exists []; now rewrite app_nil_r|]. split.
  - intros k. simpl. destruct (decide (u = k)) as [<-|Hne].
    + rewrite lookup_insert_eq. now exists [r].
    + rewrite lookup_insert_ne by assumption. exists []. now rewrite app_nil_r.
  - split; auto.
Qed.

Lemma grew_count_restart l : grew l (count_restart l).
Proof.
  split; [exists []; now rewrite app_nil_r|].
  split; [intros k; exists []; now rewrite app_nil_r|]. split; simpl; auto.
Qed.

Lemma grew_touch u l : grew l (touch_load_results u l).
Proof.
  split; [exists []; now rewrite app_nil_r|]. split.
  - intros k. exists []. rewrite app_nil_r. simpl.
    destruct (_load_results l !! u) eqn:Hu; [reflexivity|].
    destruct (decide (u = k)) as [<-|Hne].
    + now rewrite lookup_insert_eq, Hu.
    + now rewrite lookup_insert_ne.
  - split; auto.
Qed.

Lemma grew_set_page_result u pr l : grew l (set_page_result u pr l).
Proof.
  split; [exists []; now rewrite app_nil_r|].
  split; [intros k; exists []; now rewrite app_nil_r|]. split; [|simpl; auto].
  intros k Hk. simpl. destruct (decide (u = k)) as [<-|Hne].
  - rewrite lookup_insert_eq. eauto.
  - now rewrite lookup_insert_ne.
Qed.

Section Growth.
Context {W : Type}.
Variable bk : Backend W.
Variable cfg : Config.

Lemma grew_try_once url i t : effect growth (try_once bk cfg url i t).
Proof.
  assert (Hnil : forall l, growth [] l l) by (intros; apply grew_refl).
  assert (Happ : forall n1 n2 l1 l2 l3,
             growth n1 l1 l2 -> growth n2 l2 l3 -> growth (n1 ++ n2) l1 l3)
    by (intros ? ? ? ? ?; apply grew_trans).
  assert (Hev : forall e l, growth [e] l l) by (intros; apply grew_refl).
  unfold try_once.
  apply effect_bind; auto. { apply effect_call; auto. } intros r.
  apply effect_bind; auto. { apply effect_emit; auto. } intros _.
  destruct (String.eqb _ _).
  - apply effect_bind; auto.
    { apply effect_modify; auto. intros l. apply grew_append_url. }
    intros _. apply effect_bind; auto.
    { apply effect_modify; auto. intros l. apply grew_append_load_result. }
    intros _. now apply effect_ret.
  - apply effect_bind; auto.
    { destruct (_ >? _); [|now apply effect_ret].
      apply effect_bind; auto.
      { apply effect_modify; auto. intros l. apply grew_append_url. }
      intros _. apply effect_modify; auto. intros l.
      apply grew_append_load_result. }
    intros _. apply effect_bind; auto.
    { destruct (_ && _); [|now apply effect_ret].
      apply effect_bind; auto. { apply effect_call; auto. } intros _.
      apply effect_bind; auto. { apply effect_call; auto. } intros _.
      apply effect_modify; auto. intros l. apply grew_count_restart. }
    intros _. now apply effect_ret.
Qed.

(** X1. A run only adds to the loader: what [_urls] and each list of
    [_load_results] held before is still there, in front of what the
    run appended; every URL that had a summary still has one; and the
    restart counter has not gone down. *)
Theorem load_pages_only_grows urls (s : state W) :
  grew (self s) (self (fst (load_pages bk cfg urls s))).
Proof.
  destruct (load_pages_effect growth grew_refl
              (fun _ _ l1 l2 l3 => grew_trans l1 l2 l3) bk cfg
              (fun _ l => grew_refl l) (fun _ _ l => grew_refl l)
              grew_try_once grew_touch
              (fun _ u l => grew_trans _ _ _ (grew_append_url u l)
                              (grew_set_page_result u _ _))
              (fun u l => grew_set_page_result u _ l) urls s)
    as (a & mid & t & _ & H).
  exact H.
Qed.

End Growth.

(** ** What the restart counter counts *)

Section Restarts.
Context {W : Type}.
Variable bk : Backend W.
Variable cfg : Config.

Lemma restarts_counted_nil l : restarts_counted cfg [] l l.
Proof. split; [unfold count; simpl; lia|reflexivity]. Qed.

Lemma restarts_counted_app n1 n2 l1 l2 l3 :
  restarts_counted cfg n1 l1 l2 -> restarts_counted cfg n2 l2 l3 ->
  restarts_counted cfg (n1 ++ n2) l1 l3.
Proof.
  intros [H1 G1] [H2 G2]. split.
  - rewrite count_app. lia.
  - intros Hoff. rewrite count_app, G1, G2; auto.
Qed.

Lemma restarts_counted_try_once url i t :
  effect (restarts_counted cfg) (try_once bk cfg url i t).
Proof.
  intros s s' o H.
  unfold try_once, call_load_page, call_teardown, call_setup, call, log, emit,
    modify, bind, ret, of_answer in H.
  crunch H.
  all: finish H.
  all: rewrite <- ?app_assoc; simpl; eexists; split; [reflexivity|].
  all: split; [unfold count; simpl; lia|].
  all: intros Hoff;
    try (match goal with
         | H : _ && restart_on_fail cfg = true |- _ =>
             rewrite Hoff, andb_false_r in H; discriminate
         end);
    reflexivity.
Qed.

(** X2. Between the first [_setup] and the last [_teardown] of a run
    the restart counter goes up by exactly the number of [_setup] calls
    that returned: a restart whose [_teardown] or [_setup] raises is not
    counted. Without [restart_on_fail] there is no [_setup] call but the
    first and the counter is left as it was. *)
Theorem restart_counter_counts urls (s : state W) :
  let r := load_pages bk cfg urls s in
  exists a mid t,
    trace (fst r) = trace s ++ EvSetup a :: mid ++ [EvTeardown t] /\
    _num_restarts (self (fst r))
      = (_num_restarts (self s) + count returned_setup mid)%nat /\
    (restart_on_fail cfg = false ->
     count is_setup mid = 0%nat /\
     _num_restarts (self (fst r)) = _num_restarts (self s)).
Proof.
  intros r.
  destruct (load_pages_effect (restarts_counted cfg) restarts_counted_nil
              restarts_counted_app bk cfg) with (urls := urls) (s := s)
    as (a & mid & t & Htr & Hn & Hoff).
  - intros r0 l. split; [unfold count; simpl; lia|reflexivity].
  - intros url a l. split; [unfold count; simpl; lia|reflexivity].
  - apply restarts_counted_try_once.
  - intros u l. split; [unfold count; simpl; lia|reflexivity].
  - intros _ u l. split; [unfold count; simpl; lia|reflexivity].
  - intros u l. split; [unfold count; simpl; lia|reflexivity].
  - exists a, mid, t. fold r in Htr, Hn. split; [exact Htr|]. split; [exact Hn|].
    intros H. split; [auto|].
    assert (Hle : forall evs, (count returned_setup evs <= count is_setup evs)%nat).
    { intros evs. unfold count. induction evs as [|e evs IH]; [simpl; lia|].
      destruct e as [[b|e]| | | |]; simpl; lia. }
    specialize (Hle mid). rewrite (Hoff H) in Hle. lia.
Qed.

End Restarts.

(** One unknown failure with [restart_on_fail] off: no restart. *)
Lemma restart_counter_counts_witness :
  _num_restarts
    (self (fst (load_pages backend (config 1 0 false false) ["http://a.example"]
                  (fresh [unknown]))))
  = 0%nat.
Proof.
  destruct (restart_counter_counts backend (config 1 0 false false)
              ["http://a.example"] (fresh [unknown]))
    as (a & mid & t & _ & _ & H).
  destruct (H eq_refl) as [_ Hn]. exact Hn.
Defined.

(** ** Where the recorded results come from *)

Section Provenance.
Context {W : Type}.
Variable bk : Backend W.
Variable cfg : Config.
Variable Q : LoadResult.t -> Prop.

(** Whatever [_load_page] returns satisfies [Q]. *)
Hypothesis Q_answers : forall url outdir i w w' r,
  _load_page bk url outdir i w = (w', Returned r) -> Q r.

Lemma from_answers_append_url u l : from_answers Q l -> from_answers Q (append_url u l).
Proof. intros [H1 H2]. split; assumption. Qed.

Lemma from_answers_count_restart l :
  from_answers Q l -> from_answers Q (count_restart l).
Proof. intros [H1 H2]. split; assumption. Qed.

Lemma from_answers_append_load_result u r l :
  Q r -> from_answers Q l -> from_answers Q (append_load_result u r l).
Proof.
  intros Hr [H1 H2]. split; [|assumption].
  intros k rs. simpl. destruct (decide (u = k)) as [<-|Hne].
  - rewrite lookup_insert_eq. intros [= <-].
    apply Forall_app. split; [|now repeat constructor].
    destruct (_load_results l !! u) eqn:Hu; simpl; [eauto|constructor].
  - rewrite lookup_insert_ne by assumption. apply H1.
Qed.

Lemma from_answers_touch u l :
  from_answers Q l -> from_answers Q (touch_load_results u l).
Proof.
  intros [H1 H2]. split; [|assumption].
  intros k rs. simpl. destruct (_load_results l !! u) eqn:Hu; [apply H1|].
  destruct (decide (u = k)) as [<-|Hne].
  - rewrite lookup_insert_eq. intros [= <-]. constructor.
  - rewrite lookup_insert_ne by assumption. apply H1.
Qed.

Lemma from_answers_skip u l :
  from_answers Q l ->
  from_answers Q
    (set_page_result u
       (PageResult.init u (Some PageResult.FAILURE_NOT_ACCESSIBLE) None)
       (append_url u l)).
Proof.
  intros [H1 H2]. split; [assumption|].
  intros k pr. simpl. destruct (decide (u = k)) as [<-|Hne].
  - rewrite lookup_insert_eq. intros [= <-]. now left.
  - rewrite lookup_insert_ne by assumption. apply H2.
Qed.

Lemma from_answers_summary u l :
  from_answers Q l ->
  from_answers Q
    (set_page_result u
       (PageResult.init u None (Some (default [] (_load_results l !! u)))) l).
Proof.
  intros [H1 H2]. split; [assumption|].
  intros k pr. simpl. destruct (decide (u = k)) as [<-|Hne].
  - rewrite lookup_insert_eq. intros [= <-]. right.
    exists (default [] (_load_results l !! u)). split; [|reflexivity].
    destruct (_load_results l !! u) eqn:Hu; simpl; [eauto|constructor].
  - rewrite lookup_insert_ne by assumption. apply H2.
Qed.

Lemma from_answers_try_once url i t :
  effect (fun _ l l' => from_answers Q l -> from_answers Q l')
    (try_once bk cfg url i t).
Proof.
  intros s s' o H.
  unfold try_once, call_load_page, call_teardown, call_setup, call, log, emit,
    modify, bind, ret, of_answer in H.
  crunch H.
  all: inversion H; subst; clear H; cbn [self trace].
  all: rewrite <- ?app_assoc; eexists; (split; [reflexivity|]); intros Hl.
  all: try match goal with
           | H : _load_page _ _ _ _ _ = (_, Returned _) |- _ =>
               apply Q_answers in H
           end.
  all: auto using from_answers_append_url, from_answers_count_restart,
         from_answers_append_load_result.
Qed.

Lemma from_answers_run urls (s : state W) :
  from_answers Q (self s) ->
  from_answers Q (self (fst (load_pages bk cfg urls s))).
Proof.
  destruct (load_pages_effect
              (fun _ l l' => from_answers Q l -> from_answers Q l')
              (fun _ H => H) (fun _ _ _ _ _ H1 H2 H => H2 (H1 H)) bk cfg
              (fun _ _ H => H) (fun _ _ _ H => H)
              from_answers_try_once from_answers_touch
              (fun _ => from_answers_skip) from_answers_summary urls s)
    as (a & mid & t & _ & H).
  exact H.
Qed.

(** X3. Every trial result a run leaves on the loader is a value that
    [_load_page] returned, and every summary is, for the URL it is
    stored under, either the summary of an inaccessible URL or the one
    computed from such values: if whatever [_load_page] returns has a
    property, and the loader had only such results and summaries before
    the run, it has only such after it. *)
Theorem results_come_from_load_page urls (s : state W) :
  from_answers Q (self s) ->
  from_answers Q (self (fst (load_pages bk cfg urls s))).
Proof. apply from_answers_run. Qed.

End Provenance.

(** ** The other lists of a summary *)

Lemma scan_sizes rs : forall acc,
  PageResult.s_sizes (fold_left PageResult.scan_step rs acc)
    = PageResult.s_sizes acc
      ++ List.map LoadResult.size
           (List.filter (fun r => is_success r && truthy (LoadResult.size r)) rs).
Proof.
  induction rs as [|r rs IH]; intros acc; simpl.
  - now rewrite app_nil_r.
  - rewrite IH. unfold PageResult.scan_step.
    change (String.eqb (LoadResult.status r) PageResult.SUCCESS) with (is_success r).
    destruct (is_success r); simpl; [|reflexivity].
    destruct (truthy (LoadResult.size r)); simpl; [|reflexivity].
    now rewrite <- app_assoc.
Qed.

Lemma scan_tfo rs : forall acc,
  PageResult.s_tfo (fold_left PageResult.scan_step rs acc)
    = PageResult.s_tfo acc
      ++ List.map LoadResult.tcp_fast_open_supported (List.filter is_success rs).
Proof.
  induction rs as [|r rs IH]; intros acc; simpl.
  - now rewrite app_nil_r.
  - rewrite IH. unfold PageResult.scan_step.
    change (String.eqb (LoadResult.status r) PageResult.SUCCESS) with (is_success r).
    destruct (is_success r); simpl; [|reflexivity].
    now rewrite <- app_assoc.
Qed.

Lemma init_sizes url st rs :
  PageResult.sizes (PageResult.init url st (Some rs))
    = List.map LoadResult.size
        (List.filter (fun r => is_success r && truthy (LoadResult.size r)) rs).
Proof.
  destruct rs as [|r rs]; [reflexivity|].
  unfold PageResult.init. cbn [PageResult.nonempty_list PageResult.sizes].
  now rewrite scan_sizes.
Qed.

Lemma init_times_any url st rs :
  PageResult.times (PageResult.init url st (Some rs))
    = List.map LoadResult.time (List.filter is_timed_success rs).
Proof.
  destruct rs as [|r rs]; [reflexivity|].
  unfold PageResult.init. cbn [PageResult.nonempty_list PageResult.times].
  now rewrite scan_times.
Qed.

Lemma init_tfo url st rs :
  PageResult.tcp_fast_open_support_statuses (PageResult.init url st (Some rs))
    = List.map LoadResult.tcp_fast_open_supported (List.filter is_success rs).
Proof.
  destruct rs as [|r rs]; [reflexivity|].
  unfold PageResult.init.
  cbn [PageResult.nonempty_list PageResult.tcp_fast_open_support_statuses].
  now rewrite scan_tfo.
Qed.

Lemma untimed_no_times url rs :
  Forall untimed rs ->
  PageResult.times (PageResult.init url None (Some rs)) = [] /\
  PageResult.sizes (PageResult.init url None (Some rs)) = [].
Proof.
  intros H. rewrite init_times_any, init_sizes.
  induction H as [|r rs [Ht Hs] _ [IH1 IH2]]; [split; reflexivity|].
  simpl. unfold is_timed_success. rewrite Ht, Hs. simpl.
  rewrite !andb_false_r. auto.
Qed.

(** ** Loaders that give no time, loaders that give nothing *)

Section Backends.
Context {W : Type}.
Variable bk : Backend W.
Variable cfg : Config.

Lemma from_answers_new Q : from_answers Q new_loader.
Proof.
  split; intros k x; unfold new_loader; simpl; rewrite lookup_empty;
    discriminate.
Qed.

(** X4. The Chrome loader never reports a load time or a size, so after
    a run of a [ChromeLoader] just constructed every summary has empty
    [times] and [sizes], whatever was loaded and however often. *)
Theorem chrome_summaries_have_no_times check_output save_har urls (s : state W) :
  (forall url outdir i w,
     _load_page bk url outdir i w
       = chrome_load_page check_output save_har url outdir i w) ->
  self s = new_loader ->
  forall k pr,
    _page_results (self (fst (load_pages bk cfg urls s))) !! k = Some pr ->
    PageResult.times pr = [] /\ PageResult.sizes pr = [].
Proof.
  intros Hchrome Hnew k pr Hk.
  assert (Hq : forall url outdir i w w' r,
             _load_page bk url outdir i w = (w', Returned r) -> untimed r).
  { intros url outdir i w w' r. rewrite Hchrome. unfold chrome_load_page.
    destruct (check_output _ w) as [w1 [out|[m|c m]]]; intros [= _ <-];
      split; reflexivity. }
  pose proof (from_answers_run bk cfg untimed Hq urls s) as [_ H].
  { rewrite Hnew. apply from_answers_new. }
  destruct (H k pr Hk) as [->|(rs & Hrs & ->)]; [split; reflexivity|].
  now apply untimed_no_times.
Qed.

(** X5. A loader whose [_load_page] raises at every call, as that of
    the PhantomJS loader does when [load_pages] calls it, leaves no trial
    result at all: after a run of such a loader just constructed every
    list of results is empty and every summary has status
    [FAILURE_UNSET] or [FAILURE_NOT_ACCESSIBLE], never a success and
    never [FAILURE_UNKNOWN]. *)
Theorem raising_loader_leaves_unset urls (s : state W) :
  (forall url outdir i w, exists w' e,
     _load_page bk url outdir i w = (w', Raised e)) ->
  self s = new_loader ->
  let l := self (fst (load_pages bk cfg urls s)) in
  (forall k rs, _load_results l !! k = Some rs -> rs = []) /\
  (forall k pr, _page_results l !! k = Some pr ->
     PageResult.status pr = PageResult.FAILURE_UNSET \/
     PageResult.status pr = PageResult.FAILURE_NOT_ACCESSIBLE).
Proof.
  intros Hraise Hnew l.
  assert (Hq : forall url outdir i w w' r,
             _load_page bk url outdir i w = (w', Returned r) -> False).
  { intros url outdir i w w' r H.
    destruct (Hraise url outdir i w) as (w1 & e & He). congruence. }
  pose proof (from_answers_run bk cfg (fun _ => False) Hq urls s) as [H1 H2].
  { rewrite Hnew. apply from_answers_new. }
  fold l in H1, H2. split.
  - intros k rs Hk. specialize (H1 k rs Hk).
    destruct rs as [|r rs]; [reflexivity|]. now inversion H1.
  - intros k pr Hk. destruct (H2 k pr Hk) as [->|(rs & Hrs & ->)]; [now right|].
    left. destruct rs as [|r rs]; [reflexivity|]. now inversion Hrs.
Qed.

End Backends.

(** The Chrome loader over a scripted capturer, one URL. *)
Lemma chrome_summaries_have_no_times_witness :
  exists pr,
    _page_results
      (self (fst (load_pages (chrome true) (config 2 0 false false)
                    ["http://a.example"] (fresh [])))) !! "http://a.example"
      = Some pr /\
    PageResult.times pr = [] /\ PageResult.sizes pr = [].
Proof.
  pose proof (chrome_summaries_have_no_times (chrome true) (config 2 0 false false)
                check_output true ["http://a.example"] (fresh [])
                (fun _ _ _ _ => eq_refl) eq_refl "http://a.example") as H.
  destruct (_page_results _ !! "http://a.example") as [pr|] eqn:E.
  - exists pr. split; [reflexivity|]. now apply H.
  - vm_compute in E. discriminate.
Defined.

(** The PhantomJS loader as the command-line tool configures it. *)
Lemma raising_loader_leaves_unset_witness :
  let l := self (fst (load_pages scripted_phantomjs (main_config "." None 1)
                        ["http://a.example"] (fresh []))) in
  _load_results l !! "http://a.example" = Some [] /\
  exists pr,
    _page_results l !! "http://a.example" = Some pr /\
    PageResult.status pr = PageResult.FAILURE_UNSET.
Proof.
  destruct (raising_loader_leaves_unset scripted_phantomjs
              (main_config "." None 1) ["http://a.example"] (fresh []))
    as [Hrs Hpr].
  - intros url outdir i w. eexists _, _. reflexivity.
  - reflexivity.
  - cbv zeta. split.
    + destruct (_load_results _ !! "http://a.example") as [rs|] eqn:E.
      * now rewrite (Hrs _ _ E).
      * vm_compute in E. discriminate.
    + destruct (_page_results _ !! "http://a.example") as [pr|] eqn:E.
      * exists pr. split; [reflexivity|].
        destruct (Hpr _ _ E) as [H|H]; [exact H|].
        vm_compute in E. injection E as <-. vm_compute in H. discriminate.
      * vm_compute in E. discriminate.
Defined.

(** The Chrome loader again: all it leaves is without a time. *)
Lemma results_come_from_load_page_witness :
  from_answers untimed
    (self (fst (load_pages (chrome true) (config 2 0 false false)
                  ["http://a.example"] (fresh [])))).
Proof.
  apply results_come_from_load_page.
  - intros url outdir i w w' r. cbn [_load_page chrome].
    unfold chrome_load_page.
    destruct (check_output _ w) as [w1 [out|[m|c m]]]; intros [= _ <-];
      split; reflexivity.
  - apply from_answers_new.
Defined.

(** ** One entry of [_urls] for each recorded result *)

Lemma count_snoc {A} (f : A -> bool) l x :
  count f (l ++ [x]) = (count f l + if f x then 1 else 0)%nat.
Proof. rewrite count_app. unfold count. simpl. now destruct (f x). Qed.

Lemma record_length u r l k :
  length (default [] (_load_results (record u r l) !! k))
    = (length (default [] (_load_results l !! k))
       + if String.eqb k u then 1 else 0)%nat.
Proof.
  unfold record. simpl. destruct (String.eqb_spec k u) as [->|Hne].
  - rewrite lookup_insert_eq. simpl. now rewrite length_app.
  - rewrite lookup_insert_ne by congruence. lia.
Qed.

Lemma touch_default u l k :
  default [] (_load_results (touch_load_results u l) !! k)
    = default [] (_load_results l !! k).
Proof.
  simpl. destruct (_load_results l !! u) eqn:Hu; [reflexivity|].
  destruct (decide (u = k)) as [<-|Hne].
  - now rewrite lookup_insert_eq, Hu.
  - now rewrite lookup_insert_ne.
Qed.

Lemma tally_le_record u r l : tally_le l -> tally_le (record u r l).
Proof.
  intros H k. rewrite record_length. unfold record. simpl.
  rewrite count_snoc. specialize (H k). lia.
Qed.

Lemma tally_eq_record u r l : tally_eq l -> tally_eq (record u r l).
Proof.
  intros H k. rewrite record_length. unfold record. simpl.
  rewrite count_snoc. specialize (H k). lia.
Qed.

Section Tally.
Context {W : Type}.
Variable bk : Backend W.
Variable cfg : Config.

Lemma tally_try_once (Inv : Loader -> Prop) url i t :
  (forall u r l, Inv l -> Inv (record u r l)) ->
  (forall l, Inv l -> Inv (count_restart l)) ->
  effect (fun _ l l' => Inv l -> Inv l') (try_once bk cfg url i t).
Proof.
  intros Hrec Hcount s s' o H.
  unfold try_once, call_load_page, call_teardown, call_setup, call, log, emit,
    modify, bind, ret, of_answer in H.
  crunch H.
  all: inversion H; subst; clear H; cbn [self trace].
  all: rewrite <- ?app_assoc; eexists; (split; [reflexivity|]); intros Hl.
  all: repeat first
         [ assumption
         | apply Hcount
         | match goal with
           | |- ?J (append_load_result ?u ?r (append_url ?v ?l)) =>
               change (J (record u r l)); apply Hrec
           end ].
Qed.

(** X6. [_urls] keeps one entry for every trial: a run leaves it with at
    least as many entries of a URL as there are trial results recorded
    for that URL, and with exactly as many when the protocol check is
    disabled (an inaccessible URL is listed without a result). *)
Theorem urls_list_every_result urls (s : state W) :
  let l' := self (fst (load_pages bk cfg urls s)) in
  (tally_le (self s) -> tally_le l') /\
  (check_protocol_availability cfg = false -> tally_eq (self s) -> tally_eq l').
Proof.
  intros l'. subst l'. split.
  - destruct (load_pages_effect (fun _ l l' => tally_le l -> tally_le l')
                (fun _ H => H) (fun _ _ _ _ _ H1 H2 H => H2 (H1 H)) bk cfg)
      with (urls := urls) (s := s) as (a & mid & t & _ & H); auto.
    + intros url i t. apply tally_try_once; [apply tally_le_record|auto].
    + intros u l H k. rewrite touch_default. apply H.
    + intros _ u l H k. simpl. rewrite count_snoc. specialize (H k). lia.
  - intros Hoff.
    destruct (load_pages_effect (fun _ l l' => tally_eq l -> tally_eq l')
                (fun _ H => H) (fun _ _ _ _ _ H1 H2 H => H2 (H1 H)) bk cfg)
      with (urls := urls) (s := s) as (a & mid & t & _ & H); auto.
    + intros url i t. apply tally_try_once; [apply tally_eq_record|auto].
    + intros u l H k. rewrite touch_default. apply H.
    + congruence.
Qed.

End Tally.

(** Three results of two URLs, no protocol check: three entries. *)
Lemma urls_list_every_result_witness :
  tally_eq
    (self (fst (load_pages backend (config 2 0 false false)
                  ["http://a.example"; "b.example"]
                  (fresh [ok (PyNum 1.5); timed_out; unknown])))).
Proof.
  destruct (urls_list_every_result backend (config 2 0 false false)
              ["http://a.example"; "b.example"]
              (fresh [ok (PyNum 1.5); timed_out; unknown])) as [_ H].
  apply H; [reflexivity|]. intros k. reflexivity.
Defined.

(** ** How many page loads a run makes *)

Section Bound.
Context {W : Type}.
Variable bk : Backend W.
Variable cfg : Config.

Lemma urls_calls urls : forall (s s' : state W) o,
  for_each urls (process_url bk cfg) s = (s', o) ->
  exists new,
    trace s' = trace s ++ new /\
    (length (load_calls new)
     <= length urls
        * (Z.to_nat (num_trials cfg) * Z.to_nat (retries_per_trial cfg + 1)))%nat.
Proof.
  set (B := (Z.to_nat (num_trials cfg)
             * Z.to_nat (retries_per_trial cfg + 1))%nat).
  induction urls as [|u urls IH]; intros s s' o H; simpl in H.
  - unfold ret in H. finish H. exists []. rewrite app_nil_r.
    split; [reflexivity|simpl; lia].
  - unfold bind in H.
    destruct (process_url bk cfg u s) as [s1 o1] eqn:Hone.
    apply process_url_spec in Hone. destruct Hone as (new1 & Htr1 & _ & Hcase).
    fold B in Hcase.
    assert (Hone : (length (load_calls new1) <= B)%nat).
    { destruct o1 as [[]|e|]; [| |contradiction].
      - destruct Hcase as [(_ & _ & (Hl & _) & _)|(_ & rs & _ & Hlen & _)];
          [rewrite Hl; simpl; lia|exact Hlen].
      - destruct Hcase as (_ & (Hl & _) & _). rewrite Hl. simpl. lia. }
    destruct o1 as [[]|e|].
    + apply IH in H. destruct H as (new2 & Htr2 & Hlen2).
      exists (new1 ++ new2). rewrite Htr2, Htr1, <- app_assoc, load_calls_app,
        length_app. split; [reflexivity|]. simpl. lia.
    + finish H. exists new1. split; [assumption|]. simpl. lia.
    + contradiction.
Qed.

(** X7. A run calls [_load_page] at most
    [len(urls) * num_trials * (retries_per_trial + 1)] times, a negative
    number of trials or of attempts counting as none. *)
Theorem page_loads_bounded urls (s : state W) :
  exists new,
    trace (fst (load_pages bk cfg urls s)) = trace s ++ new /\
    (length (load_calls new)
     <= length urls * Z.to_nat (num_trials cfg)
        * Z.to_nat (retries_per_trial cfg + 1))%nat.
Proof.
  rewrite load_pages_unfold.
  unfold call_setup, call_teardown, call, log, emit.
  destruct (_setup bk (world s)) as [w1 [[|]|e]]; cbn [of_answer].
  - match goal with
    | |- context [for_each urls (process_url bk cfg) ?s1] =>
        destruct (for_each urls (process_url bk cfg) s1) as [s2 o2] eqn:Hloop
    end.
    pose proof (urls_spec bk cfg _ _ _ _ Hloop) as (Hnd & _).
    apply urls_calls in Hloop. destruct Hloop as (new & Htr & Hlen).
    cbn [trace] in Htr.
    destruct o2 as [[]|e|]; [| |congruence]; cbn [world self trace];
      match goal with
      | |- context [_teardown bk ?w] => destruct (_teardown bk w) as [w4 t]
      end; cbn [fst trace]; rewrite Htr, <- !app_assoc;
      eexists; (split; [reflexivity|]);
      rewrite !load_calls_app, !length_app; simpl; lia.
  - cbn [world self trace]. destruct (_teardown bk w1) as [w4 t].
    cbn [fst trace]. rewrite <- !app_assoc. eexists. split; [reflexivity|].
    simpl. lia.
  - cbn [world self trace]. destruct (_teardown bk w1) as [w4 t].
    cbn [fst trace]. rewrite <- !app_assoc. eexists. split; [reflexivity|].
    simpl. lia.
Qed.

End Bound.

(** ** The protocol check *)

Section Probe.
Context {W : Type}.
Variable bk : Backend W.
Variable cfg : Config.

(** X8. The protocol check sends one request for the URL, with the
    time-out of the loader and with the user agent as header if there
    is one, unless [urlparse] rejects the URL, whose exception then
    propagates before anything is sent. It answers [False] whenever the
    request raises, whatever the exception; when the request comes back
    it answers whether the URL of the response has the scheme of the
    URL asked for, and raises what [urlparse] raises on the URL of the
    response. *)
Theorem protocol_check_answer url (s : state W) :
  let r := _check_protocol_available bk cfg url s in
  match urlparse_scheme bk url with
  | Raised e => snd r = Raise e /\ world (fst r) = world s
  | Returned p =>
      let (w1, a) :=
        requests_get bk url (timeout cfg) (request_headers cfg) (world s) in
      world (fst r) = w1 /\
      In (EvRequest url a) (trace (fst r)) /\
      match a with
      | Raised _ => snd r = Ret false
      | Returned final =>
          match urlparse_scheme bk final with
          | Returned q => snd r = Ret (String.eqb p q)
          | Raised e => snd r = Raise e
          end
      end
  end.
Proof.
  intros r. subst r.
  unfold _check_protocol_available, scheme_of, try_except, call, log, emit,
    bind, ret, of_answer, request_headers.
  destruct (urlparse_scheme bk url) as [p|e]; [|split; reflexivity].
  cbn [world self trace].
  destruct (requests_get bk url _ _ (world s)) as [w1 [final|e]];
    cbn [world self trace fst snd].
  - destruct (urlparse_scheme bk final) as [q|e]; cbn [fst snd world trace];
      (split; [reflexivity|]); (split; [|reflexivity]);
      rewrite !in_app_iff; simpl; auto.
  - split; [reflexivity|]. split; [|reflexivity].
    rewrite !in_app_iff. simpl. auto.
Qed.

(** X9. The protocol check makes at most one request, calls neither
    [_setup], [_teardown] nor [_load_page], and leaves the loader as it
    is; it makes no request at all when [urlparse] rejects the URL. *)
Theorem protocol_check_reads_only url (s : state W) :
  let r := _check_protocol_available bk cfg url s in
  exists new,
    trace (fst r) = trace s ++ new /\
    self (fst r) = self s /\
    no_backend new /\
    (count is_request new <= 1)%nat /\
    (forall e, urlparse_scheme bk url = Raised e ->
       new = [] /\ snd r = Raise e).
Proof.
  intros r. subst r.
  destruct (_check_protocol_available bk cfg url s) as [s' o] eqn:H.
  cbn [fst snd].
  unfold _check_protocol_available, scheme_of, try_except, call, log, emit,
    bind, ret, of_answer in H.
  crunch H.
  all: inversion H; subst; clear H; cbn [trace self].
  all: rewrite <- ?app_assoc;
    first [ exists []; rewrite app_nil_r; split; [reflexivity|]
          | eexists; split; [reflexivity|] ].
  all: split; [reflexivity|]; split; [repeat split|].
  all: split; [unfold count; simpl; lia|].
  all: intros e0 He; try congruence.
  split; [reflexivity|congruence].
Qed.

End Probe.

(** A host that answers under the scheme it was asked for: [True]. *)
Lemma protocol_check_answer_witness :
  snd (_check_protocol_available backend (config 1 0 false true)
         "http://a.example" (fresh [])) = Ret true.
Proof.
  pose proof (protocol_check_answer backend (config 1 0 false true)
                "http://a.example" (fresh [])) as H.
  hnf in H. destruct H as (_ & _ & H). exact H.
Defined.

(** A URL that [urlparse] rejects: no request is made. *)
Lemma protocol_check_reads_only_witness :
  snd (_check_protocol_available backend (config 1 0 false true)
         "http://[::1" (fresh []))
  = Raise (OtherError "ValueError" "Invalid IPv6 URL").
Proof.
  destruct (protocol_check_reads_only backend (config 1 0 false true)
              "http://[::1" (fresh [])) as (new & _ & _ & _ & _ & H).
  apply H. reflexivity.
Defined.

(** * Further properties of the helpers *)

(** ** Substrings and prefixes *)

Lemma prefix_append n b : String.prefix n (String.append n b) = true.
Proof.
  induction n as [|a n IH]; simpl; [now destruct b|].
  destruct (ascii_dec a a); [exact IH|congruence].
Qed.

Lemma prefix_inv n : forall h,
  String.prefix n h = true -> exists b, h = String.append n b.
Proof.
  induction n as [|a n IH]; intros h H.
  - now exists h.
  - destruct h as [|c h]; simpl in H; [discriminate|].
    destruct (ascii_dec a c) as [<-|]; [|discriminate].
    destruct (IH h H) as [b ->]. now exists b.
Qed.

Lemma append_nil_l s : String.append "" s = s.
Proof. reflexivity. Qed.

Lemma append_cons c a b :
  String.append (String c a) b = String c (String.append a b).
Proof. reflexivity. Qed.

(** [contains] is Python's [in] for strings. *)
Lemma contains_spec n h :
  contains n h = true <->
  exists a b, h = String.append a (String.append n b).
Proof.
  induction h as [|c h IH]; cbn [contains].
  - split.
    + intros H. destruct (prefix_inv _ _ H) as [b Hb]. now exists "", b.
    + intros (a & b & H). destruct a; [|discriminate].
      rewrite append_nil_l in H. destruct n; [reflexivity|discriminate].
  - rewrite orb_true_iff, IH. split.
    + intros [H|(a & b & ->)].
      * destruct (prefix_inv _ _ H) as [b Hb]. now exists "", b.
      * now exists (String c a), b.
    + intros (a & b & H). destruct a as [|d a].
      * left. rewrite append_nil_l in H. rewrite H. apply prefix_append.
      * right. rewrite append_cons in H. injection H as _ ->. now exists a, b.
Qed.

(** ** URLs without a protocol *)

Lemma normalized_has_protocol u : contains "://" (normalized u) = true.
Proof.
  unfold normalized. destruct (contains "://" u) eqn:H; cbn [negb]; [exact H|].
  apply contains_spec. now exists "http", u.
Qed.

(** X10. What [_check_url] returns contains ["://"], and a URL that
    went through [_check_url] goes through it again unchanged and
    without a warning; a URL that contains ["://"] anywhere is returned
    as it is. *)
Theorem check_url_once_is_enough {W : Type} u (s : state W) :
  let r := _check_url u s in
  exists v,
    snd r = Ret v /\
    contains "://" v = true /\
    _check_url v (fst r) = (fst r, Ret v) /\
    (contains "://" u = true -> v = u /\ fst r = s).
Proof.
  intros r. subst r. exists (normalized u).
  pose proof (normalized_has_protocol u) as Hn.
  split; [|split; [exact Hn|split]].
  - unfold _check_url, normalized.
    destruct (negb (contains "://" u)); reflexivity.
  - unfold _check_url at 1. rewrite Hn. reflexivity.
  - intros H. unfold _check_url, normalized. rewrite H. simpl. auto.
Qed.

(** A host name is given [http://]. *)
Lemma check_url_once_is_enough_witness :
  snd (_check_url "http://a.example/x" (fresh [])) = Ret "http://a.example/x".
Proof.
  destruct (check_url_once_is_enough "http://a.example/x" (fresh []))
    as (v & Hv & _ & _ & H).
  destruct (H eq_refl) as [-> _]. exact Hv.
Defined.

(** ** File names again *)

Lemma re_sub_class_length cls repl s :
  String.length (re_sub_class cls repl s) = String.length s.
Proof. induction s as [|c s IH]; simpl; congruence. Qed.

Lemma re_sub_class_clean cls repl s c :
  in_class cls repl = false ->
  in_class cls c = true -> occurs c (re_sub_class cls repl s) = false.
Proof.
  intros Hrepl Hc. induction s as [|d s IH]; simpl; [reflexivity|].
  rewrite IH, orb_false_r.
  destruct (in_class cls d) eqn:Hd.
  - destruct (Ascii.eqb_spec c repl) as [->|]; [congruence|reflexivity].
  - destruct (Ascii.eqb_spec c d) as [->|]; [congruence|reflexivity].
Qed.

Lemma re_sub_class_fixed cls repl s :
  (forall c, in_class cls c = true -> occurs c s = false) ->
  re_sub_class cls repl s = s.
Proof.
  induction s as [|d s IH]; intros H; simpl; [reflexivity|].
  destruct (in_class cls d) eqn:Hd.
  - specialize (H d Hd). simpl in H. now rewrite Ascii.eqb_refl in H.
  - rewrite IH; [reflexivity|]. intros c Hc. specialize (H c Hc). simpl in H.
    now apply orb_false_iff in H.
Qed.

(** X11. [_sanitize_url] keeps the length of the URL, leaves none of
    the characters of its class in the result (in particular no slash),
    and changes nothing when applied a second time. *)
Theorem sanitize_url_clean url :
  String.length (_sanitize_url url) = String.length url /\
  (forall c, in_class sanitize_class c = true ->
     occurs c (_sanitize_url url) = false) /\
  _sanitize_url (_sanitize_url url) = _sanitize_url url.
Proof.
  unfold _sanitize_url. split; [apply re_sub_class_length|].
  assert (H : forall c, in_class sanitize_class c = true ->
                occurs c (re_sub_class sanitize_class "-" url) = false).
  { intros c Hc. now apply re_sub_class_clean. }
  split; [exact H|]. now apply re_sub_class_fixed.
Qed.

(** A URL with a query: nothing of the class is left. *)
Lemma sanitize_url_clean_witness :
  occurs "/"%char (_sanitize_url "http://a.example/x?y=1") = false.
Proof.
  destruct (sanitize_url_clean "http://a.example/x?y=1") as (_ & H & _).
  apply H. reflexivity.
Defined.

(** * Further properties of the result model *)

Lemma count_filter_le {A} (f g : A -> bool) l :
  (forall x, f x = true -> g x = true) -> (count f l <= count g l)%nat.
Proof.
  intros H. unfold count. induction l as [|x l IH]; simpl; [lia|].
  destruct (f x) eqn:Hf; [rewrite (H x Hf); simpl; lia|].
  destruct (g x); simpl; lia.
Qed.

(** X12. Whatever status is passed, a summary has one entry in
    [tcp_fast_open_support_statuses] for every result with status
    [SUCCESS], and [times] and [sizes] have at most that many entries:
    one for each success whose time, or size, is given and not zero. *)
Theorem summary_lists url st rs :
  let pr := PageResult.init url st (Some rs) in
  length (PageResult.tcp_fast_open_support_statuses pr) = count is_success rs /\
  PageResult.times pr = List.map LoadResult.time (List.filter is_timed_success rs) /\
  (length (PageResult.times pr) <= count is_success rs)%nat /\
  (length (PageResult.sizes pr) <= count is_success rs)%nat.
Proof.
  intros pr. subst pr.
  rewrite init_tfo, init_times_any, init_sizes, !length_map.
  split; [reflexivity|]. split; [reflexivity|]. split.
  - apply (count_filter_le is_timed_success is_success).
    unfold is_timed_success. intros x H. now apply andb_true_iff in H.
  - apply (count_filter_le
             (fun r => is_success r && truthy (LoadResult.size r)) is_success).
    intros x H. now apply andb_true_iff in H.
Qed.

Lemma existsb_app_status (f : LoadResult.t -> bool) a b :
  existsb f (a ++ b) = existsb f a || existsb f b.
Proof. apply List.existsb_app. Qed.

(** X13. The status of the summary of two lists of results put together
    is determined by the statuses of the summaries of each: an empty
    part does not count, two successes make a success, two unknown
    failures an unknown failure, and anything else a partial success.
    So once a URL has a failed trial no later occurrence makes its
    summary a success. *)
Theorem status_of_appended url a b :
  PageResult.status (PageResult.init url None (Some (a ++ b)))
  = combine_status
      (PageResult.status (PageResult.init url None (Some a)))
      (PageResult.status (PageResult.init url None (Some b))).
Proof.
  rewrite !init_status, !existsb_app_status.
  destruct a as [|x a]; [reflexivity|].
  destruct b as [|y b].
  - rewrite app_nil_r. cbn [app existsb orb].
    rewrite !orb_false_r.
    destruct (negb (is_success x) || existsb (fun r => negb (is_success r)) a),
             (is_success x || existsb is_success a); reflexivity.
  - change ((x :: a) ++ y :: b) with (x :: (a ++ y :: b)).
    set (fa := existsb (fun r => negb (is_success r)) (x :: a)).
    set (sa := existsb is_success (x :: a)).
    set (fb := existsb (fun r => negb (is_success r)) (y :: b)).
    set (sb := existsb is_success (y :: b)).
    assert (Ha : fa || sa = true).
    { subst fa sa. simpl. destruct (is_success x); simpl;
        rewrite ?orb_true_r; reflexivity. }
    assert (Hb : fb || sb = true).
    { subst fb sb. simpl. destruct (is_success y); simpl;
        rewrite ?orb_true_r; reflexivity. }
    destruct fa, sa, fb, sb; try discriminate; reflexivity.
Qed.

(** X14. The status of a summary does not depend on the order of the
    trial results it is computed from. *)
Theorem status_ignores_order url st rs rs' :
  Permutation rs rs' ->
  PageResult.status (PageResult.init url st (Some rs))
  = PageResult.status (PageResult.init url st (Some rs')).
Proof.
  intros Hp.
  assert (Hex : forall f : LoadResult.t -> bool, existsb f rs = existsb f rs').
  { intros f. induction Hp; simpl; try congruence.
    destruct (f x), (f y); reflexivity. }
  unfold PageResult.init. cbn [PageResult.status].
  destruct (PageResult.nonempty_str st); [reflexivity|].
  destruct rs as [|r rs], rs' as [|r' rs'].
  - reflexivity.
  - now apply Permutation_nil in Hp.
  - symmetry in Hp. now apply Permutation_nil in Hp.
  - cbn [PageResult.nonempty_list].
    destruct (scan_flags (r :: rs) PageResult.scan0) as [-> ->].
    destruct (scan_flags (r' :: rs') PageResult.scan0) as [-> ->].
    now rewrite !Hex.
Qed.

(** A failure after a success, and the other way round. *)
Lemma status_ignores_order_witness :
  PageResult.status
    (PageResult.init "http://a.example" None
       (Some [LoadResult.make LoadResult.SUCCESS "http://a.example";
              LoadResult.make LoadResult.FAILURE_TIMEOUT "http://a.example"]))
  = PageResult.status
      (PageResult.init "http://a.example" None
         (Some [LoadResult.make LoadResult.FAILURE_TIMEOUT "http://a.example";
                LoadResult.make LoadResult.SUCCESS "http://a.example"])).
Proof.
  apply status_ignores_order. apply perm_swap.
Defined.

(** * Further properties of the Chrome loader *)

Lemma occurs_append c a b :
  occurs c (String.append a b) = occurs c a || occurs c b.
Proof.
  induction a as [|d a IH]; [reflexivity|].
  rewrite append_cons. simpl. rewrite IH. now rewrite orb_assoc.
Qed.

Lemma occurs_digits d : occurs "/"%char (NilEmpty.string_of_uint d) = false.
Proof. induction d; simpl; auto. Qed.

Lemma occurs_decimal n : occurs "/"%char (decimal n) = false.
Proof.
  unfold decimal, NilZero.string_of_uint.
  destruct (Nat.to_uint n) eqn:E; try reflexivity;
    rewrite <- E; apply occurs_digits.
Qed.

Lemma har_name_no_slash url i : occurs "/"%char (har_name url i) = false.
Proof.
  unfold har_name, _sanitize_url. rewrite !occurs_append, occurs_decimal.
  rewrite (re_sub_class_clean sanitize_class "-" url "/") by reflexivity.
  reflexivity.
Qed.

Lemma path_join_relative a b :
  occurs "/"%char b = false ->
  path_join a b = String.append a b
  \/ path_join a b = String.append a (String.append "/" b).
Proof.
  intros H. unfold path_join.
  assert (Hp : String.prefix "/" b = false).
  { destruct b as [|c b]; [reflexivity|]. cbn [occurs] in H.
    apply orb_false_iff in H. destruct H as [H _].
    change (String.prefix "/" (String c b))
      with (if ascii_dec "/"%char c then String.prefix "" b else false).
    destruct (ascii_dec "/"%char c) as [<-|]; [|reflexivity].
    now rewrite Ascii.eqb_refl in H. }
  rewrite Hp. destruct (_ || _); auto.
Qed.

(** X15. [ChromeLoader._load_page] never raises: it runs the capturer
    once, with the HAR path and the URL on its command line, and
    whatever the capturer does it returns a result for the URL it was
    given: a [SUCCESS] when the capturer returned, a [FAILURE_TIMEOUT]
    when the alarm went off and a [FAILURE_UNKNOWN] for every other
    exception; only a success carries a HAR path. *)
Theorem chrome_load_page_returns {W : Type}
    (check_output : string -> W -> W * answer string) save_har url outdir i w :
  let ran := check_output (capturer_command save_har url outdir i) w in
  exists r,
    chrome_load_page check_output save_har url outdir i w
      = (fst ran, Returned r) /\
    LoadResult.url r = url /\
    LoadResult.status r
      = match snd ran with
        | Returned _ => LoadResult.SUCCESS
        | Raised (TimeoutError _) => LoadResult.FAILURE_TIMEOUT
        | Raised (OtherError _ _) => LoadResult.FAILURE_UNKNOWN
        end /\
    (LoadResult.status r = LoadResult.SUCCESS <->
     is_Some (LoadResult.har_path r)).
Proof.
  unfold chrome_load_page. fold (har_name url i).
  fold (capturer_command save_har url outdir i).
  destruct (check_output _ w) as [w' [out|[m|c m]]]; eexists;
    (split; [reflexivity|]); cbn [LoadResult.make LoadResult.url
      LoadResult.status LoadResult.har_path snd];
    (split; [reflexivity|]); (split; [reflexivity|]).
  - split; [eauto|reflexivity].
  - split; [discriminate|intros [? [=]]].
  - split; [discriminate|intros [? [=]]].
Qed.

(** X16. When HAR files are saved, the file of a successful trial lies
    directly in the output directory: its path is [outdir] followed by
    at most a slash and by a name without a slash, made of the
    sanitized URL and the trial number. Otherwise the path is
    [/dev/null]. *)
Theorem chrome_har_in_outdir {W : Type}
    (check_output : string -> W -> W * answer string) save_har url outdir i w
    w' r :
  chrome_load_page check_output save_har url outdir i w = (w', Returned r) ->
  LoadResult.status r = LoadResult.SUCCESS ->
  exists path,
    LoadResult.har_path r = Some path /\
    if save_har
    then occurs "/"%char (har_name url i) = false /\
         (path = String.append outdir (har_name url i) \/
          path = String.append outdir (String.append "/" (har_name url i)))
    else path = "/dev/null".
Proof.
  unfold chrome_load_page. fold (har_name url i).
  destruct (check_output _ w) as [w1 [out|[m|c m]]]; intros [= _ <-];
    cbn [LoadResult.make LoadResult.status LoadResult.har_path];
    try discriminate.
  intros _. eexists. split; [reflexivity|].
  destruct save_har; [|reflexivity].
  split; [apply har_name_no_slash|].
  apply path_join_relative, har_name_no_slash.
Qed.

(** A page captured with [save_har], second trial. *)
Lemma chrome_har_in_outdir_witness :
  snd (chrome_load_page check_output true "http://a.example/x" "out" 1
         (world (fresh [])))
  = Returned
      (LoadResult.mk LoadResult.SUCCESS "http://a.example/x" None PyNone PyNone
         (Some "out/http---a.example-x_trial1.har") None None false) /\
  occurs "/"%char (har_name "http://a.example/x" 1) = false.
Proof.
  split; [reflexivity|].
  destruct (chrome_har_in_outdir check_output true "http://a.example/x" "out" 1
              (world (fresh [])) (world (fresh []))
              (LoadResult.mk LoadResult.SUCCESS "http://a.example/x" None PyNone
                 PyNone (Some "out/http---a.example-x_trial1.har") None None
                 false) eq_refl eq_refl) as (path & Hp & Hslash & _).
  exact Hslash.
Defined.

(** * Loaders that always answer *)

Section Answering.
Context {W : Type}.
Variable bk : Backend W.
Variable cfg : Config.

(** [_load_page] returns a result at every call, as that of the Chrome
    loader does; restarts are off; the number of retries is not
    negative. *)
Hypothesis answers : forall url outdir i w, exists w' r,
  _load_page bk url outdir i w = (w', Returned r).
Hypothesis no_restart : restart_on_fail cfg = false.
Hypothesis retries_ok : 0 <= retries_per_trial cfg.

Lemma try_once_returns url i t (s s' : state W) o :
  try_once bk cfg url i t s = (s', o) -> exists b, o = Ret b.
Proof.
  intros H.
  destruct (answers url (outdir cfg) i (world s)) as (w1 & r & Hr).
  unfold try_once, call_load_page, call_teardown, call_setup, call, log, emit,
    modify, bind, ret, of_answer in H.
  rewrite Hr, no_restart, andb_false_r in H.
  crunch H. all: finish H; eauto.
Qed.

Lemma while_tries_returns url i fuel : forall t (s s' : state W) o,
  (Z.to_nat (retries_per_trial cfg + 1 - t) <= fuel)%nat ->
  while_tries bk cfg fuel url i t s = (s', o) -> o = Ret tt.
Proof.
  induction fuel as [|fuel IH]; intros t s s' o Hfuel H; simpl in H.
  - destruct (t <=? retries_per_trial cfg) eqn:Hle.
    + apply Z.leb_le in Hle. lia.
    + unfold ret in H. now finish H.
  - destruct (t <=? retries_per_trial cfg) eqn:Hle.
    2:{ unfold ret in H. now finish H. }
    apply Z.leb_le in Hle. unfold bind in H.
    destruct (try_once bk cfg url i (t + 1) s) as [s1 o1] eqn:Honce.
    destruct (try_once_returns _ _ _ _ _ _ Honce) as [[|] ->].
    + unfold ret in H. now finish H.
    + eapply IH; [|exact H]. lia.
Qed.

Lemma trial_records url i (s s' : state W) o :
  trial bk cfg url i s = (s', o) ->
  exists r, same_results (self s') (record url r (self s)).
Proof.
  unfold trial, try_except, trial_body. intros H.
  destruct (while_tries bk cfg _ url i 0 s) as [s1 o1] eqn:Hloop.
  assert (o1 = Ret tt) as ->.
  { eapply while_tries_returns; [|exact Hloop]. rewrite Z.sub_0_r. lia. }
  finish H.
  apply while_tries_spec in Hloop; [|rewrite Z.sub_0_r; lia].
  destruct Hloop as (_ & new & _ & _ & _ & _ & _ & _ & Hret).
  destruct (Hret eq_refl retries_ok) as (r & _ & Hsame & _). eauto.
Qed.

Lemma trials_exact url l : forall (s s' : state W) o,
  for_each l (trial bk cfg url) s = (s', o) ->
  exists rs,
    length rs = length l /\
    same_results (self s') (record_all url rs (self s)).
Proof.
  induction l as [|i l IH]; intros s s' o H; simpl in H.
  - unfold ret in H. finish H. exists []. split; [reflexivity|].
    apply same_results_refl.
  - unfold bind in H.
    destruct (trial bk cfg url i s) as [s1 o1] eqn:Htrial.
    pose proof (trial_spec bk cfg _ _ _ _ _ Htrial) as [-> _].
    apply trial_records in Htrial. destruct Htrial as (r & Hr).
    apply IH in H. destruct H as (rs & Hlen & Hrs).
    exists (r :: rs). split; [simpl; congruence|].
    eapply same_results_trans; [exact Hrs|].
    simpl. now apply same_results_record_all.
Qed.

(** X17. With a loader whose [_load_page] always returns a result, as
    the Chrome loader's does, with restarts off and a number of retries
    that is not negative, the processing of a URL that is not skipped
    by the protocol check ends normally and records exactly
    [num_trials] results (none if that is negative): one per trial,
    each with its entry in [_urls]. *)
Theorem every_trial_is_recorded u (s : state W) :
  let r := process_url bk cfg u s in
  let u' := normalized u in
  let probe := _check_protocol_available bk cfg u' (fst (_check_url u s)) in
  check_protocol_availability cfg = false \/ snd probe = Ret true ->
  snd r = Ret tt /\
  exists rs,
    length rs = Z.to_nat (num_trials cfg) /\
    _load_results (self (fst r)) !! u'
      = Some (default [] (_load_results (self s) !! u') ++ rs) /\
    _urls (self (fst r)) = _urls (self s) ++ List.map (fun _ => u') rs.
Proof.
  intros r u' probe Hreach. subst r probe.
  destruct (check_url_spec u s) as (logs & Hcu & _).
  rewrite Hcu in Hreach. cbn [fst] in Hreach.
  set (s0 := {| world := world s; self := self s; trace := trace s ++ logs |}) in *.
  assert (Hload : forall s1 s' o, self s1 = self s ->
    bind (for_each (seq 0 (Z.to_nat (num_trials cfg))) (trial bk cfg u'))
      (fun _ => bind (modify (touch_load_results u'))
         (fun _ => bind (fun s => (s, Ret (default [] (_load_results (self s) !! u'))))
            (fun rs => modify (set_page_result u'
                                 (PageResult.init u' None (Some rs)))))) s1
      = (s', o) ->
    o = Ret tt /\
    exists rs,
      length rs = Z.to_nat (num_trials cfg) /\
      _load_results (self s') !! u'
        = Some (default [] (_load_results (self s) !! u') ++ rs) /\
      _urls (self s') = _urls (self s) ++ List.map (fun _ => u') rs).
  { intros s1 s' o Hs1 H. unfold bind at 1 in H.
    destruct (for_each _ (trial bk cfg u') s1) as [s2 o2] eqn:Htrials.
    pose proof (trials_spec bk cfg _ _ _ _ _ Htrials) as [-> _].
    apply trials_exact in Htrials. destruct Htrials as (rs & Hlen & Hu & Hl & _).
    rewrite length_seq in Hlen. rewrite Hs1 in Hu, Hl.
    unfold bind, modify in H. simpl in H. finish H.
    split; [reflexivity|]. exists rs. split; [exact Hlen|].
    assert (Hold : default [] (_load_results (self s2) !! u')
                   = default [] (_load_results (self s) !! u') ++ rs).
    { rewrite Hl. apply record_all_load_results. }
    split.
    - destruct (_load_results (self s2) !! u') eqn:Hk; simpl in *.
      + congruence.
      + rewrite lookup_insert_eq. congruence.
    - rewrite Hu. apply record_all_urls. }
  destruct (process_url bk cfg u s) as [s' o] eqn:H. cbn [fst snd].
  unfold process_url in H. unfold bind at 1 in H. rewrite Hcu in H.
  fold u' in H. unfold bind at 1 in H.
  destruct (check_protocol_availability cfg) eqn:Hcheck.
  - destruct Hreach as [|Hreach]; [discriminate|].
    unfold bind at 1 in H.
    destruct (_check_protocol_available bk cfg u' s0) as [s1 o1] eqn:Hprobe.
    cbn [snd] in Hreach. subst o1.
    apply probe_spec in Hprobe. destruct Hprobe as (_ & Hself & _).
    cbn [ret negb] in H. eapply Hload; [|exact H]. rewrite Hself. reflexivity.
  - cbn [ret] in H. eapply Hload; [|exact H]. reflexivity.
Qed.

End Answering.

(** The Chrome loader, three trials, no protocol check. *)
Lemma every_trial_is_recorded_witness :
  exists rs,
    length rs = 3%nat /\
    _load_results
      (self (fst (process_url (chrome false) (config 3 1 false false)
                    "a.example" (fresh [])))) !! "http://a.example"
      = Some rs.
Proof.
  destruct (every_trial_is_recorded (chrome false) (config 3 1 false false))
    with (u := "a.example") (s := fresh []) as (_ & rs & Hlen & Hlr & _).
  - intros url outdir i w. cbn [_load_page chrome]. unfold chrome_load_page.
    destruct (check_output _ w) as [w' [out|[m|c m]]]; eauto.
  - reflexivity.
  - simpl. lia.
  - now left.
  - exists rs. split; [exact Hlen|exact Hlr].
Defined.

(** ** The processes of the Chrome loader *)

Section ChromeProcessesFacts.
Context {W H : Type}.
Variable popen : string -> W -> W * answer H.
Variable kill : H -> W -> W * answer unit.
Variable wait : H -> W -> W * answer unit.
Variable headless : bool.
Variable user_agent : option string.
Variable disable_local_cache : bool.

(** X18. [ChromeLoader._setup] never raises: an exception of [Popen],
    for Xvfb or for Chrome, makes it return [False]. When Xvfb cannot
    be started, Chrome is not launched at all and the attributes stay
    as they were. Otherwise Chrome is launched, after Xvfb in headless
    mode: [_setup] returns [True] exactly when that launch succeeds,
    the handle [Popen] gave is then in [_chrome_proc], and when the
    launch fails [_chrome_proc] is left as it was; the Xvfb handle, if
    one was started, is in [_xvfb_proc] either way. *)
Theorem chrome_setup_returns (w : chrome_world W H) :
  exists w' b,
    chrome_setup popen headless user_agent disable_local_cache w
      = (w', Returned b) /\
    (b = true ->
     is_Some (_chrome_proc w') /\ (headless = true -> is_Some (_xvfb_proc w'))) /\
    (headless = true ->
     forall os e, popen xvfb_command (os_state w) = (os, Raised e) ->
       b = false /\ os_state w' = os /\
       _chrome_proc w' = _chrome_proc w /\ _xvfb_proc w' = _xvfb_proc w) /\
    (forall os0 xvfb,
       headless = false /\ os0 = os_state w /\ xvfb = _xvfb_proc w \/
       headless = true /\
       (exists h, popen xvfb_command (os_state w) = (os0, Returned h) /\
                  xvfb = Some h) ->
       match popen (chrome_command user_agent disable_local_cache) os0 with
       | (os, Returned h) =>
           b = true /\ os_state w' = os /\
           _chrome_proc w' = Some h /\ _xvfb_proc w' = xvfb
       | (os, Raised _) =>
           b = false /\ os_state w' = os /\
           _chrome_proc w' = _chrome_proc w /\ _xvfb_proc w' = xvfb
       end).
Proof.
  unfold chrome_setup, chrome_launch.
  destruct headless.
  - destruct (popen xvfb_command (os_state w)) as [os [h|e]] eqn:Hx.
    + cbn [os_state _xvfb_proc _chrome_proc].
      destruct (popen (chrome_command _ _) os) as [os' [h'|e']] eqn:Hc;
        eexists _, _; (split; [reflexivity|]); cbn [_chrome_proc _xvfb_proc];
        (split; [|split; [intros _ ? ? [=]|]]).
      * intros _. split; eauto.
      * intros os0 xvfb [(? & _)|(_ & h0 & [= <- <-] & ->)]; [discriminate|].
        rewrite Hc. auto.
      * discriminate.
      * intros os0 xvfb [(? & _)|(_ & h0 & [= <- <-] & ->)]; [discriminate|].
        rewrite Hc. auto.
    + eexists _, _. split; [reflexivity|]. split; [discriminate|]. split.
      * intros _ os' e' [= <- _]. cbn. auto.
      * intros os0 xvfb [(? & _)|(_ & h0 & [=] & _)]. discriminate.
  - destruct (popen (chrome_command _ _) (os_state w)) as [os' [h'|e']] eqn:Hc;
      eexists _, _; (split; [reflexivity|]); cbn [_chrome_proc _xvfb_proc];
      (split; [|split; [discriminate|]]).
    + intros _. split; [eauto|discriminate].
    + intros os0 xvfb [(_ & -> & ->)|(? & _)]; [|discriminate].
      rewrite Hc. auto.
    + discriminate.
    + intros os0 xvfb [(_ & -> & ->)|(? & _)]; [|discriminate].
      rewrite Hc. auto.
Qed.

(** X19. [ChromeLoader._teardown] keeps both process handles in the
    attributes, so that a second call stops the same processes again.
    On a loader that never started a process it does nothing and
    returns; and when stopping Chrome raises, the exception propagates
    and Xvfb is not stopped. *)
Theorem chrome_teardown_keeps_handles (w : chrome_world W H) :
  let r := chrome_teardown kill wait w in
  _chrome_proc (fst r) = _chrome_proc w /\
  _xvfb_proc (fst r) = _xvfb_proc w /\
  (_chrome_proc w = None -> _xvfb_proc w = None ->
   os_state (fst r) = os_state w /\ snd r = Returned tt) /\
  (forall h os e,
     _chrome_proc w = Some h -> stop kill wait h (os_state w) = (os, Raised e) ->
     os_state (fst r) = os /\ snd r = Raised e).
Proof.
  intros r. subst r. unfold chrome_teardown.
  destruct (_chrome_proc w) as [h|] eqn:Hc;
    [destruct (stop kill wait h (os_state w)) as [os [[]|e]] eqn:Hs|];
    destruct (_xvfb_proc w) as [x|] eqn:Hx;
    try match goal with
        | |- context [stop kill wait x ?o] =>
            destruct (stop kill wait x o) as [os' a]
        end;
    cbn [fst snd os_state _chrome_proc _xvfb_proc].
  all: split; [reflexivity|]; split; [reflexivity|].
  all: split; [intros; try discriminate; auto|].
  all: intros h0 os0 e0 Hh Hstop; try discriminate.
  all: injection Hh as <-; rewrite Hs in Hstop; try discriminate.
  all: injection Hstop as <- <-; auto.
Qed.

End ChromeProcessesFacts.

(** * The list of URLs of the command-line tool *)

Lemma lstrip_fixed s :
  match s with EmptyString => True | String c _ => is_space c = false end ->
  lstrip s = s.
Proof. destruct s as [|c s]; simpl; [reflexivity|]. now intros ->. Qed.

Lemma lstrip_head s :
  match lstrip s with EmptyString => True | String c _ => is_space c = false end.
Proof.
  induction s as [|c s IH]; simpl; [exact Logic.I|].
  destruct (is_space c) eqn:Hc; [exact IH|exact Hc].
Qed.

Lemma rstrip_head s :
  match s with EmptyString => True | String c _ => is_space c = false end ->
  match rstrip s with EmptyString => True | String c _ => is_space c = false end.
Proof.
  destruct s as [|c s]; simpl; [auto|]. intros Hc.
  destruct (rstrip s); [rewrite Hc|]; exact Hc.
Qed.

Lemma rstrip_cons c s :
  rstrip (String c s)
  = match rstrip s with
    | EmptyString => if is_space c then EmptyString else String c EmptyString
    | rest' => String c rest'
    end.
Proof. reflexivity. Qed.

Lemma rstrip_idempotent s : rstrip (rstrip s) = rstrip s.
Proof.
  induction s as [|c s IH]; [reflexivity|].
  rewrite rstrip_cons.
  destruct (rstrip s) as [|d s'] eqn:Hs.
  - destruct (is_space c) eqn:Hc; [reflexivity|].
    rewrite rstrip_cons. cbn [rstrip]. now rewrite Hc.
  - rewrite rstrip_cons, IH. reflexivity.
Qed.

Lemma strip_tight s :
  lstrip (strip s) = strip s /\ rstrip (strip s) = strip s.
Proof.
  unfold strip. split; [|apply rstrip_idempotent].
  apply lstrip_fixed, rstrip_head, lstrip_head.
Qed.

Lemma strip_idempotent s : strip (strip s) = strip s.
Proof.
  destruct (strip_tight s) as [H1 H2]. unfold strip at 1. now rewrite H1.
Qed.

(** X20. The URLs taken from the file are its lines with the white
    space at both ends removed, in the order of the file and without
    the lines left empty by that; none of them begins or ends with
    white space. *)
Theorem file_urls_are_stripped lines :
  urls_of_lines lines
    = List.filter (fun l => negb (String.eqb l "")) (List.map strip lines) /\
  forall u, In u (urls_of_lines lines) ->
    u <> "" /\ lstrip u = u /\ rstrip u = u.
Proof.
  assert (Heq : urls_of_lines lines
            = List.filter (fun l => negb (String.eqb l "")) (List.map strip lines)).
  { induction lines as [|line lines IH]; simpl; [reflexivity|].
    rewrite strip_idempotent, IH. reflexivity. }
  split; [exact Heq|].
  intros u Hu. rewrite Heq in Hu. apply List.filter_In in Hu.
  destruct Hu as [Hin Hne]. apply List.in_map_iff in Hin.
  destruct Hin as (line & <- & _).
  split; [|apply strip_tight].
  apply negb_true_iff, String.eqb_neq in Hne. exact Hne.
Qed.

(** X21. A URL file that holds only blank lines, with no URL on the
    command line, gives the empty list: the tool reports the missing
    URLs and exits with -1 before any loader is created. *)
Theorem blank_file_exits {W : Type} (bk : Backend W) outdir useragent numtrials
    lines (w : W) :
  (forall line, In line lines -> strip line = "") ->
  main bk outdir useragent numtrials (assemble_urls (Some lines) None) w
    = (w, [EvLog ErrorNoURLs], Ret (Exit (-1))).
Proof.
  intros Hblank.
  assert (H : urls_of_lines lines = []).
  { induction lines as [|line lines IH]; simpl; [reflexivity|].
    rewrite (Hblank line) by (simpl; auto). simpl.
    apply IH. intros l Hl. apply Hblank. simpl. auto. }
  unfold main, assemble_urls. rewrite H. reflexivity.
Qed.

(** Three lines; the second is blank. *)
Lemma file_urls_are_stripped_witness :
  urls_of_lines ["  a.example "; "   "; "http://b.example"]
  = ["a.example"; "http://b.example"] /\
  lstrip "a.example" = "a.example".
Proof.
  destruct (file_urls_are_stripped ["  a.example "; "   "; "http://b.example"])
    as [Heq H].
  split; [rewrite Heq; reflexivity|].
  apply (H "a.example"). rewrite Heq. simpl. tauto.
Defined.

(** A file of two blank lines. *)
Lemma blank_file_exits_witness :
  main backend "." None 1 (assemble_urls (Some ["  "; ""]) None)
    (world (fresh []))
  = (world (fresh []), [EvLog ErrorNoURLs], Ret (Exit (-1))).
Proof.
  apply blank_file_exits. intros line [<-|[<-|[]]]; reflexivity.
Defined.

(** A headless loader on a machine without Xvfb. *)
Lemma chrome_setup_returns_witness :
  snd (chrome_setup (W := unit) (H := nat)
         (fun _ w => (w, Raised (OtherError "OSError" "No such file")))
         true None true
         {| os_state := tt; _xvfb_proc := None; _chrome_proc := None |})
  = Returned false.
Proof.
  destruct (chrome_setup_returns (W := unit) (H := nat)
              (fun _ w => (w, Raised (OtherError "OSError" "No such file")))
              true None true
              {| os_state := tt; _xvfb_proc := None; _chrome_proc := None |})
    as (w' & b & Heq & _ & H & _).
  destruct (H eq_refl tt (OtherError "OSError" "No such file") eq_refl)
    as (-> & _).
  rewrite Heq. reflexivity.
Defined.

(** A loader that never started a process. *)
Lemma chrome_teardown_keeps_handles_witness :
  snd (chrome_teardown (W := unit) (H := nat)
         (fun _ w => (w, Returned tt)) (fun _ w => (w, Returned tt))
         {| os_state := tt; _xvfb_proc := None; _chrome_proc := None |})
  = Returned tt.
Proof.
  destruct (chrome_teardown_keeps_handles (W := unit) (H := nat)
              (fun _ w => (w, Returned tt)) (fun _ w => (w, Returned tt))
              {| os_state := tt; _xvfb_proc := None; _chrome_proc := None |})
    as (_ & _ & H & _).
  destruct (H eq_refl eq_refl) as [_ Hr]. exact Hr.
Defined.

(** * Summaries and results after a run *)

Section Summaries.
Context {W : Type}.
Variable bk : Backend W.
Variable cfg : Config.

(** The loader a run leaves is the one it found, or the one the loop
    over the URLs left. *)
Lemma load_pages_loader urls (s : state W) :
  self (fst (load_pages bk cfg urls s)) = self s \/
  exists s1 s2 o,
    self s1 = self s /\
    for_each urls (process_url bk cfg) s1 = (s2, o) /\
    self (fst (load_pages bk cfg urls s)) = self s2.
Proof.
  rewrite load_pages_unfold. unfold call_setup, call_teardown, call, log, emit.
  destruct (_setup bk (world s)) as [w1 [[|]|e]]; cbn [of_answer].
  - right.
    match goal with
    | |- context [for_each urls (process_url bk cfg) ?s1] =>
        exists s1;
        destruct (for_each urls (process_url bk cfg) s1) as [s2 o2] eqn:Hloop
    end.
    exists s2, o2. split; [reflexivity|]. split; [reflexivity|].
    pose proof (urls_spec bk cfg _ _ _ _ Hloop) as (Hnd & _).
    destruct o2 as [[]|e|]; [| |congruence]; cbn [world self trace];
      match goal with
      | |- context [_teardown bk ?w] => destruct (_teardown bk w) as [w4 [[]|e']]
      end; reflexivity.
  - left. cbn [world]. destruct (_teardown bk w1) as [w4 [[]|e']]; reflexivity.
  - left. cbn [world]. destruct (_teardown bk w1) as [w4 [[]|e']]; reflexivity.
Qed.

(** What the processing of one URL does to the loader. *)
Lemma process_url_loader u (s s' : state W) o :
  process_url bk cfg u s = (s', o) ->
  let u' := normalized u in
  self s' = self s \/
  self s' =
    set_page_result u'
      (PageResult.init u' (Some PageResult.FAILURE_NOT_ACCESSIBLE) None)
      (append_url u' (self s)) \/
  exists rs,
    _page_results (self s') =
      <[u' := PageResult.init u' None
                (Some (default [] (_load_results (self s) !! u') ++ rs))]>
        (_page_results (self s)) /\
    _load_results (self s') !! u'
      = Some (default [] (_load_results (self s) !! u') ++ rs) /\
    (forall k, k <> u' ->
       _load_results (self s') !! k = _load_results (self s) !! k) /\
    _urls (self s') = _urls (self s) ++ List.map (fun _ => u') rs.
Proof.
  intros H u'. apply process_url_spec in H. fold u' in H.
  destruct H as (new & _ & _ & H).
  destruct o as [[]|e|]; [| |contradiction].
  - destruct H as [(_ & _ & _ & H)|(_ & rs & _ & _ & Hp & Hl & Hk & Hu)].
    + right. left. exact H.
    + right. right. exists rs. repeat split; assumption.
  - left. apply H.
Qed.

Lemma up_to_date_step u (s s' : state W) o :
  process_url bk cfg u s = (s', o) ->
  up_to_date (self s) -> up_to_date (self s').
Proof.
  intros H Hs. apply process_url_loader in H.
  destruct H as [->|[->|(rs & Hp & Hl & Hk & _)]]; [assumption| |].
  - intros k pr. cbn [set_page_result append_url _page_results _load_results].
    destruct (decide (k = normalized u)) as [->|Hne].
    + rewrite lookup_insert_eq. intros [= <-]. now left.
    + rewrite lookup_insert_ne by congruence. apply Hs.
  - intros k pr. rewrite Hp.
    destruct (decide (k = normalized u)) as [->|Hne].
    + rewrite lookup_insert_eq, Hl. intros [= <-]. now right.
    + rewrite lookup_insert_ne, Hk by congruence. apply Hs.
Qed.

Lemma up_to_date_urls urls : forall (s s' : state W) o,
  for_each urls (process_url bk cfg) s = (s', o) ->
  up_to_date (self s) -> up_to_date (self s').
Proof.
  induction urls as [|u urls IH]; intros s s' o H Hs; simpl in H.
  - unfold ret in H. now finish H.
  - unfold bind in H.
    destruct (process_url bk cfg u s) as [s1 o1] eqn:Hone.
    apply up_to_date_step in Hone; [|assumption].
    destruct o1 as [[]|e|].
    + eapply IH; eassumption.
    + now finish H.
    + now finish H.
Qed.

(** X22. The summaries keep up with the results: after a run, as
    before it, every summary in [_page_results] is either that of an
    inaccessible URL or equal to the summary of all the trial results
    [_load_results] holds for its URL, also when the run was cut short
    by an exception. *)
Theorem summaries_match_results urls (s : state W) :
  up_to_date (self s) ->
  up_to_date (self (fst (load_pages bk cfg urls s))).
Proof.
  intros Hs.
  destruct (load_pages_loader urls s) as [->|(s1 & s2 & o & H1 & Hloop & ->)];
    [assumption|].
  eapply up_to_date_urls; [eassumption|]. now rewrite H1.
Qed.

Lemma same_outside_refl keys l : same_outside keys l l.
Proof.
  split; [auto|]. exists []. now rewrite app_nil_r.
Qed.

Lemma same_outside_trans keys l1 l2 l3 :
  same_outside keys l1 l2 -> same_outside keys l2 l3 -> same_outside keys l1 l3.
Proof.
  intros (Hk1 & m1 & Hu1 & Hm1) (Hk2 & m2 & Hu2 & Hm2). split.
  - intros k Hn. destruct (Hk1 k Hn) as [A B], (Hk2 k Hn) as [C D].
    split; congruence.
  - exists (m1 ++ m2). rewrite Hu2, Hu1, <- app_assoc. split; [reflexivity|].
    apply Forall_app; split; assumption.
Qed.

Lemma same_outside_step keys u (s s' : state W) o :
  process_url bk cfg u s = (s', o) ->
  In (normalized u) keys ->
  same_outside keys (self s) (self s').
Proof.
  intros H Hin. apply process_url_loader in H.
  destruct H as [->|[->|(rs & Hp & Hl & Hk & Hu)]].
  - apply same_outside_refl.
  - split.
    + intros k Hn. cbn [set_page_result append_url _page_results _load_results].
      split; [reflexivity|].
      apply lookup_insert_ne. intros E. apply Hn. now rewrite <- E.
    + exists [normalized u]. split; [reflexivity|]. now constructor.
  - split.
    + intros k Hn. assert (k <> normalized u) by (intros ->; contradiction).
      split; [now apply Hk|]. rewrite Hp. apply lookup_insert_ne. congruence.
    + eexists. split; [exact Hu|].
      apply List.Forall_forall. intros x Hx. apply in_map_iff in Hx.
      now destruct Hx as (_ & <- & _).
Qed.

Lemma same_outside_urls keys urls : forall (s s' : state W) o,
  for_each urls (process_url bk cfg) s = (s', o) ->
  (forall u, In u urls -> In (normalized u) keys) ->
  same_outside keys (self s) (self s').
Proof.
  induction urls as [|u urls IH]; intros s s' o H Hin; simpl in H.
  - unfold ret in H. finish H. apply same_outside_refl.
  - unfold bind in H.
    destruct (process_url bk cfg u s) as [s1 o1] eqn:Hone.
    apply (same_outside_step keys) in Hone; [|apply Hin; now left].
    destruct o1 as [[]|e|].
    + eapply same_outside_trans; [eassumption|].
      eapply IH; [eassumption|]. intros v Hv. apply Hin. now right.
    + now finish H.
    + now finish H.
Qed.

(** X23. A run touches the entries of its own URLs only: for every key
    that is not one of the URLs given, as [_check_url] returns them,
    [_load_results] and [_page_results] hold after the run what they
    held before (nothing, if the key was not there), and every entry
    the run appends to [_urls] is one of those URLs. *)
Theorem other_urls_untouched urls (s : state W) :
  same_outside (List.map normalized urls) (self s)
    (self (fst (load_pages bk cfg urls s))).
Proof.
  destruct (load_pages_loader urls s) as [->|(s1 & s2 & o & H1 & Hloop & ->)];
    [apply same_outside_refl|].
  rewrite <- H1. eapply same_outside_urls; [eassumption|].
  intros u Hu. now apply in_map.
Qed.

End Summaries.

(** A fresh loader, one URL that loads and one that does not get that
    far. *)
Lemma summaries_match_results_witness :
  up_to_date
    (self (fst (load_pages backend (config 2 0 false false)
                  ["http://a.example"; "b.example"]
                  (fresh [ok (PyNum 1.5); timed_out; unknown])))).
Proof.
  apply summaries_match_results.
  intros k pr. vm_compute. discriminate.
Defined.

(** * The body of the PhantomJS loader *)

Section PhantomJSFacts.
Context {W : Type}.
Variable check_output : string -> W -> W * answer string.
Variable write_file : string -> string -> W -> W * answer unit.
Variable timeout : Z.

Lemma load_result_with_raises name build :
  exists m, load_result_with name build = Raised (OtherError "AttributeError" m).
Proof. unfold load_result_with, loader_attribute. eauto. Qed.

Lemma phantomjs_except_raises url e :
  exists m, phantomjs_except url e = Raised (OtherError "AttributeError" m).
Proof. destruct e; apply load_result_with_raises. Qed.

Lemma phantomjs_try_raises url outdir w :
  exists e, snd (phantomjs_try check_output write_file timeout url outdir w)
            = Raised e.
Proof.
  unfold phantomjs_try.
  destruct (check_output _ w) as [w1 [output|e]]; [|eauto].
  destruct (str_split "*=*=*=*" output) as [|har [|statusline [|x rest]]];
    [eauto|eauto| |eauto].
  repeat match goal with
         | |- context [if ?b then _ else _] => destruct b
         | |- context [write_file ?a ?b ?c] =>
             destruct (write_file a b c) as [w2 [[]|e]]
         | |- context [returnvals_of ?a ?b] =>
             destruct (returnvals_of a b) as [d|e]
         end;
    cbn [snd];
    try (destruct (load_result_with_raises "FAILURE_TIMEOUT"
                     (fun st => Returned (LoadResult.make st url))) as [m ->]; eauto);
    try (destruct (load_result_with_raises "FAILURE_UNKNOWN"
                     (fun st => Returned (LoadResult.make st url))) as [m ->]; eauto);
    eauto.
Qed.

(** X24. [PhantomJSLoader._load_page] never returns a result: each of
    its [return] statements takes the status from the class [Loader],
    which has no such attribute, so whatever PhantomJS prints and
    whatever goes wrong the call ends with an [AttributeError]. When
    PhantomJS reports [SUCCESS] the HAR file is written all the same
    before the call fails. *)
Theorem phantomjs_load_page_never_returns url outdir w :
  let r := phantomjs_load_page_body check_output write_file timeout url outdir w in
  (exists m, snd r = Raised (OtherError "AttributeError" m)) /\
  (forall w1 output har statusline,
     check_output (phantom_cmd timeout url outdir) w = (w1, Returned output) ->
     str_split "*=*=*=*" output = [har; statusline] ->
     hd "" (str_split ":" (strip statusline)) = "SUCCESS" ->
     fst r = fst (write_file (phantomjs_harpath url outdir) har w1)).
Proof.
  intros r. subst r. unfold phantomjs_load_page_body. split.
  - destruct (phantomjs_try_raises url outdir w) as [e He].
    destruct (phantomjs_try _ _ _ url outdir w) as [w' a]. cbn [snd] in He.
    subst a. cbn [snd]. apply phantomjs_except_raises.
  - intros w1 output har statusline Hout Hsplit Hstatus.
    unfold phantomjs_try. rewrite Hout, Hsplit, Hstatus.
    cbn [String.eqb Ascii.eqb Bool.eqb].
    destruct (write_file _ har w1) as [w2 [[]|e]]; [|reflexivity].
    destruct (returnvals_of _ _) as [d|e]; reflexivity.
Qed.

End PhantomJSFacts.

(** PhantomJS reports a page loaded in a second and a half. *)
Lemma phantomjs_load_page_never_returns_witness :
  snd (phantomjs_load_page_body
         (fun _ (w : list string) =>
            (w, Returned "{}*=*=*=*SUCCESS:final_url=http://a.example/;time=1.5"))
         (fun path _ w => (path :: w, Returned tt))
         30 "http://a.example" "out" [])
  = Raised (OtherError "AttributeError"
              "type object 'Loader' has no attribute 'FAILURE_UNKNOWN'") /\
  fst (phantomjs_load_page_body
         (fun _ (w : list string) =>
            (w, Returned "{}*=*=*=*SUCCESS:final_url=http://a.example/;time=1.5"))
         (fun path _ w => (path :: w, Returned tt))
         30 "http://a.example" "out" [])
  = ["out/http---a.example.har"].
Proof.
  split; [reflexivity|].
  destruct (phantomjs_load_page_never_returns
              (fun _ (w : list string) =>
                 (w, Returned "{}*=*=*=*SUCCESS:final_url=http://a.example/;time=1.5"))
              (fun path _ w => (path :: w, Returned tt))
              30 "http://a.example" "out" []) as [_ H].
  rewrite (H [] _ "{}" "SUCCESS:final_url=http://a.example/;time=1.5"
             eq_refl eq_refl eq_refl).
  reflexivity.
Defined.

(** * Constructing a Chrome loader *)

(** X25. A [ChromeLoader] that could be constructed has none of the
    options Chrome cannot honour, so [_setup] never passes a user agent
    to Chrome: the command it launches is the fixed one, with the two
    cache flags when the local cache is disabled. The loader starts
    without processes, so a [_teardown] before any [_setup] does
    nothing and returns. *)
Theorem constructed_chrome_loader {W H : Type} (o : Options) (os : W)
    (w : chrome_world W H) :
  chrome_init o os = Returned w ->
  (full_page o = true /\ disable_network_cache o = false /\
   save_screenshot o = false) /\
  chrome_command (user_agent (common o)) (disable_local_cache o)
    = String.append "/usr/bin/env google-chrome "
        (String.append
           (if disable_local_cache o
            then " --disable-application-cache --disable-cache" else "")
           " --remote-debugging-port=9222 --enable-benchmarking --enable-net-benchmarking") /\
  forall kill wait, chrome_teardown kill wait w = (w, Returned tt).
Proof.
  unfold chrome_init, not_implemented.
  destruct (full_page o); cbn [negb]; [|discriminate].
  destruct (PageResult.nonempty_str (user_agent (common o))) eqn:Hua;
    [discriminate|].
  destruct (disable_network_cache o); [discriminate|].
  destruct (save_screenshot o); [discriminate|].
  intros [= <-]. split; [auto|]. split; [|reflexivity].
  unfold chrome_command. rewrite Hua.
  destruct (disable_local_cache o); reflexivity.
Qed.

(** The defaults, but an empty user agent. *)
Lemma constructed_chrome_loader_witness :
  chrome_command (Some "") true
  = "/usr/bin/env google-chrome  --disable-application-cache --disable-cache --remote-debugging-port=9222 --enable-benchmarking --enable-net-benchmarking".
Proof.
  pose (o := {| common :=
                  {| outdir := "."; num_trials := 1; timeout := 30;
                     user_agent := Some ""; restart_on_fail := false;
                     retries_per_trial := 0;
                     check_protocol_availability := true |};
                http2 := false; disable_local_cache := true;
                disable_network_cache := false; full_page := true;
                headless := true; proxy := None; save_har := false;
                save_screenshot := false; stdout_filename := None |}).
  destruct (constructed_chrome_loader (W := unit) (H := nat) o tt
              {| os_state := tt; _xvfb_proc := None; _chrome_proc := None |}
              eq_refl) as (_ & Hcmd & _).
  exact Hcmd.
Defined.
